(** * Centrifuge connection handlers: a shallow embedding of [handlers.go]

    The development follows the Go source file by file and function by
    function.  Go values are modelled as follows.

    - [int], [int64] and [time.Duration] are [Z]; where the source does
      arithmetic that can leave the 64-bit range the wrap-around is written
      out with [wrap64].
    - [[]byte] is [list byte]; a Go [string] is a [string].
    - A pointer that may be [nil] ([*proto.Disconnect], [error]) is an
      [option].
    - Methods that mutate their receiver take the receiver's state and give
      the new state back, together with the returned value.
    - A mutex-protected method is one atomic transition.

    Part I holds the definitions, Part II and Part III the properties.
    Beyond [handlers.go], Part I also holds the generated code of package
    [controlproto], whose properties are in Part III. *)

From Stdlib Require Import ZArith Lia List String.
From Stdlib.Strings Require Import Byte.
From stdpp Require Import gmap strings list.

Import ListNotations.
Local Open Scope Z_scope.

(** ** Part I: definitions *)

(** *** Go base types *)

Definition bytes := list byte.

(** A Go [error] value: only its text matters here. *)
Definition error := string.

(** [len] of a slice, as a Go [int]. *)
Definition len {A} (l : list A) : Z := Z.of_nat (length l).

(** Reduction of an unbounded integer to the signed 64-bit range. *)
Definition wrap64 (z : Z) : Z := (z + 2 ^ 63) mod 2 ^ 64 - 2 ^ 63.

Definition maxInt64 : Z := 2 ^ 63 - 1.

(** *** Package [proto]: the wire types used by the handlers *)

Module proto.

Inductive Encoding := EncodingJSON | EncodingProtobuf.

Definition Encoding_eqb (a b : Encoding) : bool :=
  match a, b with
  | EncodingJSON, EncodingJSON | EncodingProtobuf, EncodingProtobuf => true
  | _, _ => false
  end.

Record Disconnect := { Reason : string; Reconnect : bool }.

(** [Error] as carried by a reply. *)
Record Error := { Code : Z; Message : string }.

(** A decoded client command; [ID] is a [uint32]. *)
Record Command := { ID : Z; Method : Z; Params : bytes }.

(** A reply to one command. *)
Record Reply := { rID : Z; rError : option Error; rResult : bytes }.

End proto.

(** *** Package [internal/queue] *)

Module queue.

(** Modelled from the spec: the queue of package [internal/queue], whose
    source [handlers.go] only imports.  Section 4.1 gives its contract: a
    FIFO of opaque frames with wait, close and size; here the frames in
    their order of arrival and the closed flag. *)
Record Queue := { items : list bytes; closed : bool }.

(** Modelled from the spec: [queue.New()], an open queue holding nothing. *)
Definition New : Queue := {| items := []; closed := false |}.

(** Modelled from the spec: [Add(frame)] tells whether the frame was
    accepted; a closed queue accepts nothing. *)
Definition Add (q : Queue) (frame : bytes) : Queue * bool :=
  if closed q then (q, false)
  else ({| items := items q ++ [frame]; closed := false |}, true).

(** Modelled from the spec: [Remove()] gives the oldest frame, or reports
    that there is none. *)
Definition Remove (q : Queue) : Queue * option bytes :=
  match items q with
  | [] => (q, None)
  | frame :: rest => ({| items := rest; closed := closed q |}, Some frame)
  end.

(** Modelled from the spec: [Size()] is the total number of bytes held. *)
Definition Size (q : Queue) : Z :=
  fold_right (fun frame acc => len frame + acc) 0 (items q).

(** Modelled from the spec: [Len()] is the number of frames held. *)
Definition Len (q : Queue) : Z := len (items q).

(** Modelled from the spec: [Close()] is idempotent; the frames held stay
    until they are drained. *)
Definition Close (q : Queue) : Queue := {| items := items q; closed := true |}.

(** Modelled from the spec: [Closed()] tells whether [Close] was called. *)
Definition Closed (q : Queue) : bool := closed q.

(** The three ways a call of [Wait] can go. *)
Inductive WaitResult :=
| WaitItem (frame : bytes)   (* (frame, true) *)
| WaitClosed                 (* (nil, false) *)
| WaitBlocks.                (* nothing to return yet: the caller sleeps *)

(** Modelled from the spec: [Wait()] blocks until a frame is available or
    the queue is closed; after [Close] it gives [(_, false)] once the queue
    is drained. *)
Definition Wait (q : Queue) : Queue * WaitResult :=
  match Remove q with
  | (q', Some frame) => (q', WaitItem frame)
  | (q', None) => (q', if closed q then WaitClosed else WaitBlocks)
  end.

End queue.

(** *** The per-connection writer *)

Record writerConfig := { MaxQueueSize : Z }.

(** [writer]: the mutex is implicit (each method is one transition); the
    [writeFn] callback set by [onWrite] is passed to [runWriteRoutine]. *)
Record writer := {
  config : writerConfig;
  messages : queue.Queue;
  w_closed : bool
}.

Definition mergeQueueMessages : bool := true.
Definition maxMessagesInFrame : Z := 4.

Definition writer_write (w : writer) (data : bytes)
  : writer * option proto.Disconnect :=
  let '(q, ok) := queue.Add (messages w) data in
  let w' := {| config := config w; messages := q; w_closed := w_closed w |} in
  if negb ok then (w', None)
  else if MaxQueueSize (config w') <? queue.Size (messages w')
       then (w', Some {| proto.Reason := "slow"; proto.Reconnect := true |})
       else (w', None).

Definition writer_close (w : writer) : writer * option error :=
  if w_closed w then (w, None)
  else ({| config := config w;
           messages := queue.Close (messages w);
           w_closed := true |}, None).

(** **** [runWriteRoutine]

    The routine is the only consumer of [w.messages]; producers call
    [writer.write] and [writer.close] from other goroutines.  Their calls are
    given as a schedule: a list of turns, one turn (a possibly empty list of
    calls) taking place before each queue operation of the routine.  A
    blocked [Wait] sleeps through further turns until a frame arrives or the
    queue is closed; when the schedule is exhausted it sleeps for ever. *)

Inductive EnvAction :=
| EnvWrite (data : bytes)   (* some goroutine calls w.write(data) *)
| EnvClose.                 (* some goroutine calls w.close() *)

Definition env_act (w : writer) (a : EnvAction) : writer :=
  match a with
  | EnvWrite data => fst (writer_write w data)
  | EnvClose => fst (writer_close w)
  end.

Definition env_acts (w : writer) (turn : list EnvAction) : writer :=
  fold_left env_act turn w.

Section WriteRoutine.

(** The state of the transport behind [w.writeFn], and [w.writeFn]. *)
Context {T : Type}.
Variable writeFn : T -> list bytes -> T * option error.

Record routine := {
  r_writer : writer;
  r_env : list (list EnvAction);               (* producers' turns to come *)
  r_transport : T;
  r_written : list (list bytes * option error) (* calls of writeFn so far *)
}.

Definition set_writer (s : routine) (w : writer) : routine :=
  {| r_writer := w; r_env := r_env s;
     r_transport := r_transport s; r_written := r_written s |}.

Definition set_messages (s : routine) (q : queue.Queue) : routine :=
  set_writer s {| config := config (r_writer s); messages := q;
                  w_closed := w_closed (r_writer s) |}.

(** One turn of the producers. *)
Definition env_turn (s : routine) : routine :=
  match r_env s with
  | [] => s
  | turn :: rest =>
      {| r_writer := env_acts (r_writer s) turn; r_env := rest;
         r_transport := r_transport s; r_written := r_written s |}
  end.

(** [w.messages.Wait()], sleeping through the producers' turns. *)
Fixpoint await (w : writer) (env : list (list EnvAction)) {struct env}
  : writer * list (list EnvAction) * queue.WaitResult :=
  match queue.Wait (messages w) with
  | (_, queue.WaitBlocks) =>
      match env with
      | [] => (w, [], queue.WaitBlocks)
      | turn :: rest => await (env_acts w turn) rest
      end
  | (q, r) =>
      ({| config := config w; messages := q; w_closed := w_closed w |}, env, r)
  end.

(** [w.writeFn(msgs...)], recorded. *)
Definition call_writeFn (s : routine) (msgs : list bytes) : routine * option error :=
  let '(t, writeErr) := writeFn (r_transport s) msgs in
  ({| r_writer := r_writer s; r_env := r_env s; r_transport := t;
      r_written := r_written s ++ [(msgs, writeErr)] |}, writeErr).

Inductive DrainResult :=
| DrainBreak (msgs : list bytes) (s : routine)   (* the inner loop is left *)
| DrainReturn (s : routine).                     (* the routine returns *)

(** The inner loop [for messageCount > 0 { messageCount--; ... }]. *)
Fixpoint drain (messageCount : nat) (msgs : list bytes) (s : routine) : DrainResult :=
  match messageCount with
  | O => DrainBreak msgs s
  | S messageCount' =>
      if maxMessagesInFrame <=? len msgs then DrainBreak msgs s
      else
        let s1 := env_turn s in
        match queue.Remove (messages (r_writer s1)) with
        | (q, Some msg) => drain messageCount' (msgs ++ [msg]) (set_messages s1 q)
        | (q, None) =>
            let s2 := env_turn (set_messages s1 q) in
            if queue.Closed (messages (r_writer s2)) then DrainReturn s2
            else DrainBreak msgs s2
        end
  end.

Inductive Step :=
| Continue (s : routine)   (* next iteration of the outer loop *)
| Return (s : routine)     (* the routine returns *)
| Sleep (s : routine).     (* Wait never returns *)

(** What follows a call of [writeFn]: [if writeErr != nil { return }]. *)
Definition after_write (r : routine * option error) : Step :=
  match r with
  | (s, Some _) => Return s
  | (s, None) => Continue s
  end.

(** One iteration of the outer [for] loop. *)
Definition iteration (s : routine) : Step :=
  let s0 := env_turn s in
  let '(w, env, r) := await (r_writer s0) (r_env s0) in
  let s1 := {| r_writer := w; r_env := env;
               r_transport := r_transport s0; r_written := r_written s0 |} in
  match r with
  | queue.WaitBlocks => Sleep s1
  | queue.WaitClosed =>
      let s2 := env_turn s1 in
      if queue.Closed (messages (r_writer s2)) then Return s2 else Continue s2
  | queue.WaitItem msg =>
      let s2 := env_turn s1 in
      let messageCount := queue.Len (messages (r_writer s2)) in
      if mergeQueueMessages && (0 <? messageCount) then
        match drain (Z.to_nat messageCount) [msg] s2 with
        | DrainReturn s3 => Return s3
        | DrainBreak msgs s3 =>
            if 0 <? len msgs then after_write (call_writeFn s3 msgs)
            else Continue s3
        end
      else after_write (call_writeFn s2 [msg])
  end.

Inductive Outcome := Returned | Sleeping | OutOfFuel.

(** The outer loop, for at most [fuel] iterations. *)
Fixpoint writer_runWriteRoutine (fuel : nat) (s : routine) : Outcome * routine :=
  match fuel with
  | O => (OutOfFuel, s)
  | S fuel' =>
      match iteration s with
      | Continue s' => writer_runWriteRoutine fuel' s'
      | Return s' => (Returned, s')
      | Sleep s' => (Sleeping, s')
      end
  end.

(** The routine as [newWriter] starts it: nothing written yet. *)
Definition start (w : writer) (env : list (list EnvAction)) (t : T) : routine :=
  {| r_writer := w; r_env := env; r_transport := t; r_written := [] |}.

(** The frames in their order of arrival: those in the queue, then those
    the producers' calls still to come will put there. *)
Definition arrivals (s : routine) : list bytes :=
  queue.items (messages (env_acts (r_writer s) (concat (r_env s)))).

(** [popped x w w']: [w'] is [w] with its oldest frame [x] taken out. *)
Definition popped (x : bytes) (w w' : writer) : Prop :=
  queue.items (messages w) = x :: queue.items (messages w') /\
  queue.closed (messages w) = queue.closed (messages w') /\
  config w = config w' /\ w_closed w = w_closed w'.

(** What holds between two iterations: all calls of [writeFn] so far took
    a well-sized batch and succeeded, and the batches written followed by
    the frames still to come are the frames in their order of arrival. *)
Definition batch_ok (call : list bytes * option error) : Prop :=
  1 <= len (fst call) <= maxMessagesInFrame.

Definition succeeded (call : list bytes * option error) : Prop :=
  snd call = None.

Definition Inv (total : list bytes) (s : routine) : Prop :=
  Forall batch_ok (r_written s) /\
  total = concat (map fst (r_written s)) ++ arrivals s /\
  Forall succeeded (r_written s).

(** What holds when the routine has stopped, for whatever reason. *)
Definition Post (total : list bytes) (s : routine) : Prop :=
  Forall batch_ok (r_written s) /\
  (exists rest, total = concat (map fst (r_written s)) ++ rest) /\
  (exists log last, r_written s = log ++ last /\
                    Forall succeeded log /\ (length last <= 1)%nat).

End WriteRoutine.

(** *** What the handlers take from outside this file *)

(** A value or an [error], as a Go call returning [(v, err)] gives it. *)
Inductive result (A : Type) := Ok (v : A) | Err (err : error).
Arguments Ok {A} v.
Arguments Err {A} err.

(** Package-level values of [proto] and the JSON marshaller, which are
    declared outside [handlers.go]. *)
Class Externals := {
  DisconnectNormal : proto.Disconnect;
  DisconnectBadRequest : proto.Disconnect;
  DisconnectServerError : proto.Disconnect;
  (** [proto.ErrBadRequest.Error()] *)
  ErrBadRequest_Error : string;
  (** [json.Marshal] at [*proto.Disconnect] *)
  json_Marshal : proto.Disconnect -> result string
}.

(** Instants and durations are counted in nanoseconds. *)
Definition Time := Z.
Definition Duration := Z.
Definition Second : Duration := 1000000000.

(** *** Package [github.com/gorilla/websocket], as far as the handlers use it *)

Module websocket.

Inductive MessageType := TextMessage | BinaryMessage | CloseMessage | PingMessage.

(** What reaches the wire. *)
Inductive Frame :=
| Data (messageType : MessageType) (payload : bytes) (compressed : bool)
| Control (messageType : MessageType) (payload : bytes) (deadline : Time)
| Close_ (code : Z) (text : string) (deadline : Time).

(** The closure given to [SetPongHandler]; the handlers install only one,
    which pushes the read deadline [pongWait] beyond the current instant. *)
Inductive PongHandler :=
| ResetReadDeadline (pongWait : Duration).

Record Conn := {
  readLimit : option Z;
  readDeadline : option Time;
  writeDeadline : option Time;       (* [None] is the zero [time.Time] *)
  enableWriteCompression : bool;
  compressionLevel : Z;
  pongHandler : option PongHandler;  (* [None]: the library's default *)
  wire : list Frame;
  conn_closed : bool
}.

(** The operations that can fail; whether they do is up to the network. *)
Inductive Op :=
| OpNextWriter | OpWrite (payload : bytes) | OpCloseWriter
| OpWriteControl | OpClose | OpSetCompressionLevel (level : Z).

Definition SetReadLimit (c : Conn) (limit : Z) : Conn :=
  {| readLimit := Some limit; readDeadline := readDeadline c;
     writeDeadline := writeDeadline c;
     enableWriteCompression := enableWriteCompression c;
     compressionLevel := compressionLevel c; pongHandler := pongHandler c;
     wire := wire c; conn_closed := conn_closed c |}.

Definition SetReadDeadline (c : Conn) (t : Time) : Conn :=
  {| readLimit := readLimit c; readDeadline := Some t;
     writeDeadline := writeDeadline c;
     enableWriteCompression := enableWriteCompression c;
     compressionLevel := compressionLevel c; pongHandler := pongHandler c;
     wire := wire c; conn_closed := conn_closed c |}.

Definition SetWriteDeadline (c : Conn) (t : option Time) : Conn :=
  {| readLimit := readLimit c; readDeadline := readDeadline c;
     writeDeadline := t;
     enableWriteCompression := enableWriteCompression c;
     compressionLevel := compressionLevel c; pongHandler := pongHandler c;
     wire := wire c; conn_closed := conn_closed c |}.

Definition EnableWriteCompression (c : Conn) (enable : bool) : Conn :=
  {| readLimit := readLimit c; readDeadline := readDeadline c;
     writeDeadline := writeDeadline c;
     enableWriteCompression := enable;
     compressionLevel := compressionLevel c; pongHandler := pongHandler c;
     wire := wire c; conn_closed := conn_closed c |}.

Definition SetPongHandler (c : Conn) (h : PongHandler) : Conn :=
  {| readLimit := readLimit c; readDeadline := readDeadline c;
     writeDeadline := writeDeadline c;
     enableWriteCompression := enableWriteCompression c;
     compressionLevel := compressionLevel c; pongHandler := Some h;
     wire := wire c; conn_closed := conn_closed c |}.

Definition put (c : Conn) (f : Frame) : Conn :=
  {| readLimit := readLimit c; readDeadline := readDeadline c;
     writeDeadline := writeDeadline c;
     enableWriteCompression := enableWriteCompression c;
     compressionLevel := compressionLevel c; pongHandler := pongHandler c;
     wire := wire c ++ [f]; conn_closed := conn_closed c |}.

Definition shut (c : Conn) : Conn :=
  {| readLimit := readLimit c; readDeadline := readDeadline c;
     writeDeadline := writeDeadline c;
     enableWriteCompression := enableWriteCompression c;
     compressionLevel := compressionLevel c; pongHandler := pongHandler c;
     wire := wire c; conn_closed := true |}.

(** A pong arrives at instant [now]: the installed handler runs. *)
Definition pong (c : Conn) (now : Time) : Conn :=
  match pongHandler c with
  | Some (ResetReadDeadline pongWait) => SetReadDeadline c (now + pongWait)
  | None => c
  end.

Section Network.

(** The network: which operation fails in which state, and how. *)
Variable fault : Conn -> Op -> option error.

Definition SetCompressionLevel (c : Conn) (level : Z) : Conn * option error :=
  match fault c (OpSetCompressionLevel level) with
  | Some err => (c, Some err)
  | None =>
      ({| readLimit := readLimit c; readDeadline := readDeadline c;
          writeDeadline := writeDeadline c;
          enableWriteCompression := enableWriteCompression c;
          compressionLevel := level; pongHandler := pongHandler c;
          wire := wire c; conn_closed := conn_closed c |}, None)
  end.

(** [conn.NextWriter(messageType)]: the writer, or [nil] and an error. *)
Definition NextWriter (c : Conn) (messageType : MessageType) : result MessageType :=
  match fault c OpNextWriter with
  | Some err => Err err
  | None => Ok messageType
  end.

(** [writer.Write(payload)] on the message buffered so far: [(n, err)]. *)
Definition Write (c : Conn) (buffered payload : bytes) : bytes * Z * option error :=
  match fault c (OpWrite payload) with
  | Some err => (buffered, 0, Some err)
  | None => (buffered ++ payload, len payload, None)
  end.

(** [writer.Close()]: the buffered message goes out as one frame. *)
Definition CloseWriter (c : Conn) (messageType : MessageType) (buffered : bytes)
  : Conn * option error :=
  match fault c OpCloseWriter with
  | Some err => (c, Some err)
  | None => (put c (Data messageType buffered (enableWriteCompression c)), None)
  end.

Definition WriteControl (c : Conn) (f : Frame) : Conn * option error :=
  match fault c OpWriteControl with
  | Some err => (c, Some err)
  | None => (put c f, None)
  end.

Definition Close (c : Conn) : Conn * option error :=
  (shut c, fault c OpClose).

End Network.

End websocket.

(** *** The websocket transport *)

Definition websocketCloseStatus : Z := 3000.

Record websocketTransportOptions := {
  enc : proto.Encoding;
  pingInterval : Duration;
  writeTimeout : Duration;
  compressionMinSize : Z
}.

(** A [*time.Timer] made by [time.AfterFunc]. *)
Inductive Timer := TimerArmed (after : Duration) | TimerStopped.

(** [websocketTransport]; [closeCh] is [true] once the channel is closed.
    The [writer] the transport points to is kept beside it, the two
    Prometheus counters the transport feeds are kept in it. *)
Record websocketTransport := {
  conn : websocket.Conn;
  ws_closed : bool;
  ws_closeCh : bool;
  opts : websocketTransportOptions;
  pingTimer : option Timer;
  transportMessagesSent : Z;
  transportBytesOut : Z
}.

Inductive WriteResult :=
| Wrote (err : option error)   (* the call returns [err] *)
| Panics.                      (* nil dereference *)

Section WebsocketTransport.

Context `{Externals}.
Variable fault : websocket.Conn -> websocket.Op -> option error.

Definition ws_set_conn (t : websocketTransport) (c : websocket.Conn) : websocketTransport :=
  {| conn := c; ws_closed := ws_closed t; ws_closeCh := ws_closeCh t;
     opts := opts t; pingTimer := pingTimer t;
     transportMessagesSent := transportMessagesSent t;
     transportBytesOut := transportBytesOut t |}.

Definition websocketTransport_Encoding (t : websocketTransport) : proto.Encoding :=
  enc (opts t).

Definition websocketTransport_Close (now : Time) (t : websocketTransport)
    (disconnect : option proto.Disconnect) : websocketTransport * option error :=
  if ws_closed t then (t, None)
  else
    let t1 := {| conn := conn t; ws_closed := true; ws_closeCh := true;
                 opts := opts t;
                 pingTimer := match pingTimer t with
                              | Some _ => Some TimerStopped
                              | None => None
                              end;
                 transportMessagesSent := transportMessagesSent t;
                 transportBytesOut := transportBytesOut t |} in
    match disconnect with
    | Some d =>
        let deadline := now + Second in
        match json_Marshal d with
        | Err err => (t1, Some err)
        | Ok reason =>
            let msg := websocket.Close_ websocketCloseStatus reason deadline in
            let '(c, _) := websocket.WriteControl fault (conn t1) msg in
            let '(c', err) := websocket.Close fault c in
            (ws_set_conn t1 c', err)
        end
    | None =>
        let '(c', err) := websocket.Close fault (conn t1) in
        (ws_set_conn t1 c', err)
    end.

Definition sendError : proto.Disconnect :=
  {| proto.Reason := "error sending message"; proto.Reconnect := true |}.

(** The loop [for _, payload := range data] of [write]; [all] is the whole
    of [data], whose length the loop adds to [bytesOut]. *)
Fixpoint write_payloads (now : Time) (t : websocketTransport) (all : list bytes)
    (buffered : bytes) (bytesOut : Z) (data : list bytes)
  : websocketTransport * bytes * Z * option (option error) :=
  match data with
  | [] => (t, buffered, bytesOut, None)
  | payload :: rest =>
      let '(buffered', n, err) := websocket.Write fault (conn t) buffered payload in
      if negb (n =? len payload) || (match err with Some _ => true | None => false end) then
        (fst (websocketTransport_Close now t (Some sendError)), buffered', bytesOut,
         Some err)
      else write_payloads now t all buffered' (bytesOut + len all) rest
  end.

Definition websocketTransport_write (now : Time) (t : websocketTransport)
    (data : list bytes) : websocketTransport * WriteResult :=
  if ws_closeCh t then (t, Wrote None)
  else
    let c := conn t in
    let c := if 0 <? compressionMinSize (opts t)
             then websocket.EnableWriteCompression c
                    (compressionMinSize (opts t) <? len data)
             else c in
    let c := if 0 <? writeTimeout (opts t)
             then websocket.SetWriteDeadline c (Some (now + writeTimeout (opts t)))
             else c in
    let t := ws_set_conn t c in
    let messageType :=
      if proto.Encoding_eqb (websocketTransport_Encoding t) proto.EncodingProtobuf
      then websocket.BinaryMessage else websocket.TextMessage in
    match websocket.NextWriter fault (conn t) messageType with
    | Err _ =>
        (* the transport is closed, then the nil writer is used *)
        (fst (websocketTransport_Close now t (Some sendError)), Panics)
    | Ok writer =>
        match write_payloads now t data [] 0 data with
        | (t, _, _, Some err) => (t, Wrote err)
        | (t, buffered, bytesOut, None) =>
            let '(c, err) := websocket.CloseWriter fault (conn t) writer buffered in
            let t := ws_set_conn t c in
            match err with
            | Some _ =>
                (fst (websocketTransport_Close now t (Some sendError)), Wrote err)
            | None =>
                let c := if 0 <? writeTimeout (opts t)
                         then websocket.SetWriteDeadline (conn t) None
                         else conn t in
                ({| conn := c; ws_closed := ws_closed t; ws_closeCh := ws_closeCh t;
                    opts := opts t; pingTimer := pingTimer t;
                    transportMessagesSent := transportMessagesSent t + len data;
                    transportBytesOut := transportBytesOut t + bytesOut |},
                 Wrote None)
            end
        end
    end.

Definition addPing (t : websocketTransport) : websocketTransport :=
  if ws_closed t then t
  else {| conn := conn t; ws_closed := ws_closed t; ws_closeCh := ws_closeCh t;
          opts := opts t;
          pingTimer := Some (TimerArmed (pingInterval (opts t)));
          transportMessagesSent := transportMessagesSent t;
          transportBytesOut := transportBytesOut t |}.

(** [ping], run by the ping timer at instant [now]. *)
Definition websocketTransport_ping (now : Time) (t : websocketTransport)
  : websocketTransport :=
  if ws_closeCh t then t
  else
    let deadline := now + Z.quot (pingInterval (opts t)) 2 in
    match websocket.WriteControl fault (conn t)
            (websocket.Control websocket.PingMessage
               (list_byte_of_string "ping") deadline) with
    | (c, Some _) =>
        fst (websocketTransport_Close now (ws_set_conn t c) (Some DisconnectServerError))
    | (c, None) => addPing (ws_set_conn t c)
    end.

Definition newWebsocketTransport (c : websocket.Conn)
    (o : websocketTransportOptions) : websocketTransport :=
  let transport := {| conn := c; ws_closed := false; ws_closeCh := false;
                      opts := o; pingTimer := None;
                      transportMessagesSent := 0; transportBytesOut := 0 |} in
  if 0 <? pingInterval o then addPing transport else transport.

End WebsocketTransport.

(** **** [WebsocketHandler.ServeHTTP] *)

Record WebsocketConfig := {
  WebsocketCompression : bool;
  WebsocketCompressionLevel : Z;
  WebsocketCompressionMinSize : Z;
  WebsocketReadBufferSize : Z;
  WebsocketWriteBufferSize : Z
}.

(** The fields of the node's [Config] the handlers read. *)
Record Config := {
  ClientPingInterval : Duration;
  ClientMessageWriteTimeout : Duration;
  ClientRequestMaxSize : Z;
  ClientQueueMaxSize : Z
}.

Definition newWriter (c : writerConfig) : writer :=
  {| config := c; messages := queue.New; w_closed := false |}.

(** [pingInterval * 10 / 9] on [time.Duration], an [int64]: the product
    wraps around, the quotient is truncated. *)
Definition pongWait_of (pingInterval : Duration) : Duration :=
  Z.quot (wrap64 (pingInterval * 10)) 9.

(** What [ServeHTTP] has set up when it starts the goroutine that reads
    the connection. *)
Record Served := {
  served_transport : websocketTransport;
  served_writer : writer;
  served_log : list string
}.

Section ServeHTTP.

Variable fault : websocket.Conn -> websocket.Op -> option error.

(** [upgraded] is what [upgrader.Upgrade] gives, [format] the value of the
    URL query parameter of that name, [now] the reading of the clock. *)
Definition WebsocketHandler_ServeHTTP (s_config : WebsocketConfig) (config : Config)
    (upgraded : result websocket.Conn) (format : string) (now : Time)
  : option Served :=
  let wsCompression := WebsocketCompression s_config in
  let wsCompressionLevel := WebsocketCompressionLevel s_config in
  let wsCompressionMinSize := WebsocketCompressionMinSize s_config in
  match upgraded with
  | Err _ => None
  | Ok conn =>
      let '(conn, log) :=
        if wsCompression then
          match websocket.SetCompressionLevel fault conn wsCompressionLevel with
          | (conn, Some _) => (conn, ["websocket error setting compression level"])
          | (conn, None) => (conn, [])
          end
        else (conn, []) in
      let pingInterval := ClientPingInterval config in
      let writeTimeout := ClientMessageWriteTimeout config in
      let maxRequestSize := ClientRequestMaxSize config in
      let conn := if 0 <? maxRequestSize
                  then websocket.SetReadLimit conn maxRequestSize else conn in
      let conn :=
        if 0 <? pingInterval then
          let pongWait := pongWait_of pingInterval in
          let conn := websocket.SetReadDeadline conn (now + pongWait) in
          websocket.SetPongHandler conn (websocket.ResetReadDeadline pongWait)
        else conn in
      let enc := if String.eqb format "protobuf"
                 then proto.EncodingProtobuf else proto.EncodingJSON in
      let opts := {| pingInterval := pingInterval; writeTimeout := writeTimeout;
                     compressionMinSize := wsCompressionMinSize; enc := enc |} in
      let writerConf := {| MaxQueueSize := ClientQueueMaxSize config |} in
      let writer := newWriter writerConf in
      let transport := newWebsocketTransport conn opts in
      Some {| served_transport := transport; served_writer := writer;
              served_log := log |}
  end.

End ServeHTTP.

(** *** The SockJS transport *)

Module sockjs.

(** A [sockjs.Session], as far as the handlers use it. *)
Record Session := {
  sent : list bytes;
  closing : option (Z * string)   (* status and reason given to [Close] *)
}.

Inductive Op := OpSend (payload : bytes) | OpClose.

Section Network.

Variable fault : Session -> Op -> option error.

Definition Send (s : Session) (payload : bytes) : Session * option error :=
  match fault s (OpSend payload) with
  | Some err => (s, Some err)
  | None => ({| sent := sent s ++ [payload]; closing := closing s |}, None)
  end.

Definition Close (s : Session) (status : Z) (reason : string)
  : Session * option error :=
  match fault s OpClose with
  | Some err => (s, Some err)
  | None => ({| sent := sent s; closing := Some (status, reason) |}, None)
  end.

End Network.

End sockjs.

Definition sockjsCloseStatus : Z := 3000.

Record sockjsTransport := {
  sj_closed : bool;
  sj_closeCh : bool;
  session : sockjs.Session;
  sj_messagesSent : Z;   (* transportMessagesSent, label "sockjs" *)
  sj_bytesOut : Z        (* transportBytesOut, label "sockjs" *)
}.

Section SockjsTransport.

Context `{Externals}.
Variable fault : sockjs.Session -> sockjs.Op -> option error.

Definition newSockjsTransport (s : sockjs.Session) : sockjsTransport :=
  {| session := s; sj_closed := false; sj_closeCh := false;
     sj_messagesSent := 0; sj_bytesOut := 0 |}.

Definition sockjsTransport_Encoding (t : sockjsTransport) : proto.Encoding :=
  proto.EncodingJSON.

Definition sockjsTransport_Close (t : sockjsTransport)
    (disconnect : option proto.Disconnect) : sockjsTransport * option error :=
  if sj_closed t then (t, None)
  else
    let t1 := {| sj_closed := true; sj_closeCh := true; session := session t;
                 sj_messagesSent := sj_messagesSent t;
                 sj_bytesOut := sj_bytesOut t |} in
    let disconnect := match disconnect with
                      | None => DisconnectNormal
                      | Some d => d
                      end in
    match json_Marshal disconnect with
    | Err err => (t1, Some err)
    | Ok reason =>
        let '(s, err) := sockjs.Close fault (session t1) sockjsCloseStatus reason in
        ({| sj_closed := true; sj_closeCh := true; session := s;
            sj_messagesSent := sj_messagesSent t;
            sj_bytesOut := sj_bytesOut t |}, err)
    end.

(** The loop [for _, payload := range data] of [write]; [all] is the whole
    of [data], whose length the loop adds to the byte counter. *)
Fixpoint sockjs_send_all (t : sockjsTransport) (all data : list bytes)
  : sockjsTransport * option error :=
  match data with
  | [] => (t, None)
  | payload :: rest =>
      let t := {| sj_closed := sj_closed t; sj_closeCh := sj_closeCh t;
                  session := session t;
                  sj_messagesSent := sj_messagesSent t + 1;
                  sj_bytesOut := sj_bytesOut t + len all |} in
      match sockjs.Send fault (session t) payload with
      | (_, Some err) =>
          (fst (sockjsTransport_Close t
                  (Some {| proto.Reason := "error sending message";
                           proto.Reconnect := true |})), Some err)
      | (s, None) =>
          sockjs_send_all {| sj_closed := sj_closed t; sj_closeCh := sj_closeCh t;
                             session := s;
                             sj_messagesSent := sj_messagesSent t;
                             sj_bytesOut := sj_bytesOut t |} all rest
      end
  end.

Definition sockjsTransport_write (t : sockjsTransport) (data : list bytes)
  : sockjsTransport * option error :=
  if sj_closeCh t then (t, None) else sockjs_send_all t data data.

End SockjsTransport.

(** *** The [Transport] and [Client] interfaces *)

(** [Transport], as far as [handleClientData] uses it.  [Close] reads the
    clock, whose reading is its first argument. *)
Class Transport (T : Type) := {
  Transport_Encoding : T -> proto.Encoding;
  Transport_Close : Time -> T -> option proto.Disconnect -> T * option error
}.

#[export] Instance websocketTransport_Transport `{Externals}
    (fault : websocket.Conn -> websocket.Op -> option error)
  : Transport websocketTransport :=
  {| Transport_Encoding := websocketTransport_Encoding;
     Transport_Close := websocketTransport_Close fault |}.

#[export] Instance sockjsTransport_Transport `{Externals}
    (fault : sockjs.Session -> sockjs.Op -> option error)
  : Transport sockjsTransport :=
  {| Transport_Encoding := sockjsTransport_Encoding;
     Transport_Close := fun _ => sockjsTransport_Close fault |}.

(** [Client], whose implementation lies outside [handlers.go].  A client
    holds its transport, so [Close] acts on both; [Handle] gives the reply
    (or [nil]) and the disconnect (or [nil]). *)
Class Client (C T : Type) := {
  Client_ID : C -> string;
  Client_UserID : C -> string;
  Client_Handle : C -> proto.Command -> C * option proto.Reply * option proto.Disconnect;
  Client_Close : Time -> C -> T -> option proto.Disconnect -> C * T
}.

(** *** Command decoders and reply encoders of package [proto] *)

(** How a decoder's run ends: [io.EOF], or another error. *)
Inductive DecodeEnd := EOF | Malformed (err : error).

(** A command decoder over one frame, given by what its successive calls of
    [Decode] return: the commands [pending], one at each call, then the
    error [final]. *)
Record CommandDecoder := { pending : list proto.Command; final : DecodeEnd }.

(** The codecs of package [proto], which are outside [handlers.go]:
    the decoder [GetCommandDecoder] gives for a frame, and the bytes a reply
    encoder appends for one reply (its delimiter included). *)
Class Codec := {
  GetCommandDecoder : proto.Encoding -> bytes -> CommandDecoder;
  marshalReply : proto.Encoding -> proto.Reply -> result bytes
}.

(** Modelled from the spec: the reply encoder of package [proto], whose
    source [handlers.go] only imports.  Section 6 gives the wire protocol
    as length-delimited framing of the replies in JSON or in the binary
    encoding: an encoder holds the encoding it was made for and the bytes
    of the replies encoded so far. *)
Record ReplyEncoder := { e_enc : proto.Encoding; buffer : bytes }.

(** Modelled from the spec: [proto.GetReplyEncoder(enc)], an encoder that
    holds no reply yet. *)
Definition GetReplyEncoder (enc : proto.Encoding) : ReplyEncoder :=
  {| e_enc := enc; buffer := [] |}.

(** Modelled from the spec: [encoder.Encode(rep)] appends the bytes of the
    reply, delimited, to those of the replies before it, or fails and
    leaves them. *)
Definition Encode `{Codec} (e : ReplyEncoder) (rep : proto.Reply) : result ReplyEncoder :=
  match marshalReply (e_enc e) rep with
  | Ok chunk => Ok {| e_enc := e_enc e; buffer := buffer e ++ chunk |}
  | Err err => Err err
  end.

(** Modelled from the spec: [encoder.Finish()] gives the frame, the replies
    encoded one after the other. *)
Definition Finish (e : ReplyEncoder) : bytes := buffer e.

(** *** [handleClientData] *)

Inductive LogLevel := LogLevelDebug | LogLevelInfo | LogLevelError.

(** What [handleClientData] does to the objects it is given, in order. *)
Inductive Event :=
| EvLog (level : LogLevel) (message : string)
| EvDecode (r : proto.Command + DecodeEnd)        (* decoder.Decode() gave r *)
| EvHandle (cmd : proto.Command)                  (* c.Handle(cmd) *)
| EvEncode (rep : proto.Reply)                    (* encoder.Encode(rep) *)
| EvTransportClose (d : option proto.Disconnect)  (* transport.Close(d) *)
| EvClientClose (d : option proto.Disconnect)     (* c.Close(d) *)
| EvWrite (data : bytes)                          (* writer.write(data) *)
| EvPutCommandDecoder
| EvPutReplyEncoder.

Section HandleClientData.

Context {HE : Externals} {HK : Codec}.
Context {C T : Type} {HC : Client C T} {HT : Transport T}.

(** The objects [handleClientData] works on. *)
Record World := {
  w_client : C;
  w_transport : T;
  w_writer : writer;
  w_events : list Event
}.

Definition emit (W : World) (evs : list Event) : World :=
  {| w_client := w_client W; w_transport := w_transport W;
     w_writer := w_writer W; w_events := w_events W ++ evs |}.

Definition transport_Close (now : Time) (W : World) (d : option proto.Disconnect)
  : World :=
  {| w_client := w_client W;
     w_transport := fst (Transport_Close now (w_transport W) d);
     w_writer := w_writer W;
     w_events := w_events W ++ [EvTransportClose d] |}.

Definition client_Close (now : Time) (W : World) (d : option proto.Disconnect)
  : World :=
  let '(c, t) := Client_Close now (w_client W) (w_transport W) d in
  {| w_client := c; w_transport := t; w_writer := w_writer W;
     w_events := w_events W ++ [EvClientClose d] |}.

Definition put_codecs (W : World) : World :=
  emit W [EvPutCommandDecoder; EvPutReplyEncoder].

(** The loop [for { cmd, err := decoder.Decode() ... }], by recursion on
    what the decoder has to give.  [None]: the function returned [false]
    from within the loop; [Some encoder]: the loop was left by [break]. *)
Fixpoint handleLoop (now : Time) (cmds : list proto.Command) (final : DecodeEnd)
    (W : World) (encoder : ReplyEncoder) : option ReplyEncoder * World :=
  match cmds with
  | [] =>
      let W := emit W [EvDecode (inr final)] in
      match final with
      | EOF => (Some encoder, W)
      | Malformed _ =>
          let W := emit W [EvLog LogLevelInfo "error decoding request"] in
          let W := transport_Close now W (Some DisconnectBadRequest) in
          (None, put_codecs W)
      end
  | cmd :: rest =>
      let W := emit W [EvDecode (inl cmd)] in
      if proto.ID cmd =? 0 then
        let W := emit W [EvLog LogLevelInfo "command ID required"] in
        let W := client_Close now W (Some DisconnectBadRequest) in
        (None, put_codecs W)
      else
        let '(c, rep, disconnect) := Client_Handle (w_client W) cmd in
        let W := {| w_client := c; w_transport := w_transport W;
                    w_writer := w_writer W;
                    w_events := w_events W ++ [EvHandle cmd] |} in
        match disconnect with
        | Some d =>
            let W := emit W [EvLog LogLevelInfo "disconnect after handling command"] in
            let W := transport_Close now W (Some d) in
            (None, put_codecs W)
        | None =>
            match rep with
            | Some rep =>
                let W := emit W [EvEncode rep] in
                match Encode encoder rep with
                | Err _ =>
                    let W := emit W [EvLog LogLevelError "error encoding reply"] in
                    let W := transport_Close now W
                               (Some {| proto.Reason := "internal error";
                                        proto.Reconnect := true |}) in
                    (None, W)
                | Ok encoder => handleLoop now rest final W encoder
                end
            | None => handleLoop now rest final W encoder
            end
        end
  end.

Definition handleClientData (now : Time) (W : World) (data : bytes) : bool * World :=
  if len data =? 0 then
    let W := emit W [EvLog LogLevelError "empty client request received"] in
    let W := transport_Close now W
               (Some {| proto.Reason := ErrBadRequest_Error;
                        proto.Reconnect := false |}) in
    (false, W)
  else
    let encoder := GetReplyEncoder (Transport_Encoding (w_transport W)) in
    let decoder := GetCommandDecoder (Transport_Encoding (w_transport W)) data in
    match handleLoop now (pending decoder) (final decoder) W encoder with
    | (None, W) => (false, W)
    | (Some encoder, W) =>
        let frame := Finish encoder in
        let '(w, disconnect) := writer_write (w_writer W) frame in
        let W := {| w_client := w_client W; w_transport := w_transport W;
                    w_writer := w;
                    w_events := w_events W ++ [EvWrite frame] |} in
        match disconnect with
        | Some d =>
            let W := emit W [EvLog LogLevelInfo
                               "disconnect after sending data to transport"] in
            let W := transport_Close now W (Some d) in
            (false, put_codecs W)
        | None => (true, put_codecs W)
        end
    end.

(** The world before a call: the given objects, nothing done yet. *)
Definition world (c : C) (t : T) (w : writer) : World :=
  {| w_client := c; w_transport := t; w_writer := w; w_events := [] |}.

(** Projections of a list of events. *)
Definition handled (evs : list Event) : list proto.Command :=
  omap (fun ev => match ev with EvHandle cmd => Some cmd | _ => None end) evs.

Definition written (evs : list Event) : list bytes :=
  omap (fun ev => match ev with EvWrite data => Some data | _ => None end) evs.

Definition decoded (evs : list Event) : list (proto.Command + DecodeEnd) :=
  omap (fun ev => match ev with EvDecode r => Some r | _ => None end) evs.

(** The replies given to [encoder.Encode], in order. *)
Definition encoded (evs : list Event) : list proto.Reply :=
  omap (fun ev => match ev with EvEncode rep => Some rep | _ => None end) evs.

Definition closes (evs : list Event) : list (option proto.Disconnect) :=
  omap (fun ev => match ev with
                  | EvTransportClose d | EvClientClose d => Some d
                  | _ => None
                  end) evs.

(** The replies [c.Handle] gives to the commands [cmds], one after the
    other, from the client state [c] on. *)
Fixpoint exchange (c : C) (cmds : list proto.Command)
  : list (proto.Command * option proto.Reply) :=
  match cmds with
  | [] => []
  | cmd :: rest =>
      let '(c', rep, _) := Client_Handle c cmd in
      (cmd, rep) :: exchange c' rest
  end.

(** No command of [cmds] makes the loop return: each has an ID, is handled
    without a disconnect, and its reply, if there is one, can be encoded. *)
Fixpoint smooth (enc : proto.Encoding) (c : C) (cmds : list proto.Command) : bool :=
  match cmds with
  | [] => true
  | cmd :: rest =>
      negb (proto.ID cmd =? 0) &&
      match Client_Handle c cmd with
      | (c', Some rep, None) =>
          match marshalReply enc rep with
          | Ok _ => smooth enc c' rest
          | Err _ => false
          end
      | (c', None, None) => smooth enc c' rest
      | (_, _, Some _) => false
      end
  end.

(** The replies of an exchange, in its order. *)
Definition replies (xs : list (proto.Command * option proto.Reply))
  : list proto.Reply :=
  omap snd xs.

(** The client after [c.Handle] was called on the commands [cmds] in turn. *)
Fixpoint client_after (c : C) (cmds : list proto.Command) : C :=
  match cmds with
  | [] => c
  | cmd :: rest => client_after (fst (fst (Client_Handle c cmd))) rest
  end.

(** A frame passes when nothing makes [handleClientData] return before it
    calls [writer.write]: the frame is not empty, the decoder ends with
    [io.EOF], and no command stops the loop. *)
Definition passes (enc : proto.Encoding) (c : C) (data : bytes) : bool :=
  negb (len data =? 0) &&
  match final (GetCommandDecoder enc data) with
  | EOF => smooth enc c (pending (GetCommandDecoder enc data))
  | Malformed _ => false
  end.

(** The bytes of the replies of an exchange, in its order. *)
Definition chunk (enc : proto.Encoding) (x : proto.Command * option proto.Reply)
  : bytes :=
  match snd x with
  | Some rep => match marshalReply enc rep with Ok b => b | Err _ => [] end
  | None => []
  end.

Definition frame_of (enc : proto.Encoding)
    (xs : list (proto.Command * option proto.Reply)) : bytes :=
  concat (map (chunk enc) xs).

(** What a run of the loop leaves behind it, apart from the encoder. *)
Definition loop_ok (now : Time) (cmds : list proto.Command) (final : DecodeEnd)
    (W : World) (encoder : ReplyEncoder)
    (res : option ReplyEncoder) (W' : World) (new : list Event) : Prop :=
  w_events W' = w_events W ++ new /\
  w_writer W' = w_writer W /\
  written new = [] /\
  (exists rest, cmds = handled new ++ rest) /\
  (forall err, In (EvDecode (inr (Malformed err))) new ->
     res = None /\
     closes new = [Some DisconnectBadRequest] /\
     In (EvTransportClose (Some DisconnectBadRequest)) new /\
     w_transport W' =
       fst (Transport_Close now (w_transport W) (Some DisconnectBadRequest))) /\
  (forall encoder', res = Some encoder' ->
     handled new = cmds /\ closes new = [] /\
     w_transport W' = w_transport W /\
     e_enc encoder' = e_enc encoder /\
     buffer encoder' =
       buffer encoder ++ frame_of (e_enc encoder) (exchange (w_client W) cmds) /\
     Forall (fun x => forall rep, snd x = Some rep ->
               exists b, marshalReply (e_enc encoder) rep = Ok b)
            (exchange (w_client W) cmds)).

End HandleClientData.

(** *** Admin tokens *)

(** Package [github.com/gorilla/securecookie], as far as the handlers use
    it: [securecookie.New([]byte(secret), nil)] followed by [Encode(name,
    value)], or by [Decode(name, token, &val)]. *)
Class SecureCookie := {
  securecookie_Encode : string -> string -> string -> result string;
  securecookie_Decode : string -> string -> string -> result string
}.

Definition secureAdminTokenKey : string := "token".
Definition secureAdminTokenValue : string := "authorized".

Definition generateSecureAdminToken `{SecureCookie} (secret : string) : result string :=
  securecookie_Encode secret secureAdminTokenKey secureAdminTokenValue.

Definition checkSecureAdminToken `{SecureCookie} (secret token : string) : bool :=
  match securecookie_Decode secret secureAdminTokenKey token with
  | Err _ => false
  | Ok val => if negb (String.eqb val secureAdminTokenValue) then false else true
  end.

(** *** Presence with user mapping *)

Module presence.

Record ClientInfo := {
  ClientID : string;
  UserID : string;
  ConnInfo : bytes;
  ChanInfo : bytes
}.

(** Modelled from the spec: the presence manager, of which the repository
    files covered here hold only the test.  Sections 4.7 and 6 give the
    state kept for a channel when user mapping is enabled: a presence hash
    from client ID to [ClientInfo], and a user-mapping hash from user ID to
    a reference count.  Expiry by TTL is left out: no entry expires during
    the calls considered. *)
Record Channel := {
  clients : gmap string ClientInfo;
  users : gmap string Z
}.

Definition no_one : Channel := {| clients := ∅; users := ∅ |}.

Definition channel (pm : gmap string Channel) (ch : string) : Channel :=
  default no_one (pm !! ch).

(** Modelled from the spec: [AddPresence(ch, clientID, info)] writes the
    client's entry and counts the user once for each client ID that was not
    present. *)
Definition AddPresence (pm : gmap string Channel) (ch clientID : string)
    (info : ClientInfo) : gmap string Channel :=
  let st := channel pm ch in
  let is_new_client := bool_decide (clients st !! clientID = None) in
  let users' :=
    if is_new_client
    then <[UserID info := default 0 (users st !! UserID info) + 1]> (users st)
    else users st in
  <[ch := {| clients := <[clientID := info]> (clients st); users := users' |}]> pm.

(** Modelled from the spec: [RemovePresence(ch, clientID, userID)] deletes
    the entry of a client that is present and releases one reference of the
    user ID it is given, forgetting the user when none is left. *)
Definition RemovePresence (pm : gmap string Channel) (ch clientID userID : string)
  : gmap string Channel :=
  let st := channel pm ch in
  match clients st !! clientID with
  | None => pm
  | Some _ =>
      let connections := default 0 (users st !! userID) - 1 in
      let users' :=
        if connections <=? 0 then delete userID (users st)
        else <[userID := connections]> (users st) in
      <[ch := {| clients := delete clientID (clients st); users := users' |}]> pm
  end.

(** Modelled from the spec: [Presence(ch)] is the map from client ID to
    [ClientInfo]. *)
Definition Presence (pm : gmap string Channel) (ch : string)
  : gmap string ClientInfo :=
  clients (channel pm ch).

Record Stats := { NumClients : nat; NumUsers : nat }.

(** Modelled from the spec: [PresenceStats(ch)] reads the sizes of the two
    hashes, without scanning the clients. *)
Definition PresenceStats (pm : gmap string Channel) (ch : string) : Stats :=
  {| NumClients := size (clients (channel pm ch));
     NumUsers := size (users (channel pm ch)) |}.

(** Calls of the manager, and their effect one after the other. *)
Inductive Call :=
| Add (ch clientID : string) (info : ClientInfo)
| Remove (ch clientID userID : string).

Definition call (pm : gmap string Channel) (c : Call) : gmap string Channel :=
  match c with
  | Add ch clientID info => AddPresence pm ch clientID info
  | Remove ch clientID userID => RemovePresence pm ch clientID userID
  end.

Definition calls (pm : gmap string Channel) (cs : list Call) : gmap string Channel :=
  fold_left call cs pm.

(** A call agrees with the presence held when it names, for a client that
    is present, the user that client was added with. *)
Definition agrees (pm : gmap string Channel) (c : Call) : bool :=
  match c with
  | Add ch clientID info =>
      match Presence pm ch !! clientID with
      | Some held => bool_decide (UserID held = UserID info)
      | None => true
      end
  | Remove ch clientID userID =>
      match Presence pm ch !! clientID with
      | Some held => bool_decide (UserID held = userID)
      | None => true
      end
  end.

Fixpoint agree (pm : gmap string Channel) (cs : list Call) : bool :=
  match cs with
  | [] => true
  | c :: rest => agrees pm c && agree (call pm c) rest
  end.

(** What the calls themselves say, whatever the manager keeps. *)










(** The user IDs of the clients present in a channel. *)
Definition users_present (pm : gmap string Channel) (ch : string) : gset string :=
  map_img (UserID <$> Presence pm ch).



End presence.

(** *** Instances to run the definitions on *)

Module Demo.

Definition externals : Externals :=
  {| DisconnectNormal := {| proto.Reason := ""; proto.Reconnect := true |};
     DisconnectBadRequest := {| proto.Reason := "bad request"; proto.Reconnect := false |};
     DisconnectServerError :=
       {| proto.Reason := "internal server error"; proto.Reconnect := true |};
     ErrBadRequest_Error := "bad request";
     json_Marshal := fun d =>
       Ok (proto.Reason d ++ (if proto.Reconnect d then ";reconnect" else ";stay away"))%string |}.

(** A wire format of one byte per command: the byte is the command's ID
    and its parameter; ["!"] cannot be decoded. *)
Fixpoint decoder (data : bytes) : CommandDecoder :=
  match data with
  | [] => {| pending := []; final := EOF |}
  | b :: rest =>
      if Byte.eqb b "!"%byte
      then {| pending := []; final := Malformed "unexpected character" |}
      else let d := decoder rest in
           {| pending := {| proto.ID := Z.of_N (Byte.to_N b); proto.Method := 0;
                            proto.Params := [b] |} :: pending d;
              final := final d |}
  end.

(** A reply goes out as its result followed by a line feed. *)
Definition codec : Codec :=
  {| GetCommandDecoder := fun _ data => decoder data;
     marshalReply := fun _ rep => Ok (proto.rResult rep ++ ["010"%byte]) |}.

(** A client that counts the commands it handled and echoes each one. *)
Definition client {T} `{Transport T} : Client nat T :=
  {| Client_ID := fun _ => "client";
     Client_UserID := fun _ => "user";
     Client_Handle := fun n cmd =>
       (S n, Some {| proto.rID := proto.ID cmd; proto.rError := None;
                     proto.rResult := proto.Params cmd |}, None);
     Client_Close := fun now n t d => (n, fst (Transport_Close now t d)) |}.


(** A network on which nothing fails. *)
Definition reliable {S O : Type} : S -> O -> option error := fun _ _ => None.

Definition fresh_conn : websocket.Conn :=
  {| websocket.readLimit := None; websocket.readDeadline := None;
     websocket.writeDeadline := None;
     websocket.enableWriteCompression := true;
     websocket.compressionLevel := 1; websocket.pongHandler := None;
     websocket.wire := []; websocket.conn_closed := false |}.

Definition options (minSize : Z) : websocketTransportOptions :=
  {| enc := proto.EncodingJSON; pingInterval := 25 * Second;
     writeTimeout := 0; compressionMinSize := minSize |}.

Definition transport (minSize : Z) : websocketTransport :=
  newWebsocketTransport fresh_conn (options minSize).

Definition ws : Transport websocketTransport :=
  @websocketTransport_Transport externals reliable.

Definition a_writer (maxQueueSize : Z) : writer :=
  newWriter {| MaxQueueSize := maxQueueSize |}.

(** [handleClientData] on a fresh websocket connection of the echo client. *)
Definition handle (data : bytes) : bool * World :=
  @handleClientData externals codec nat websocketTransport (@client _ ws) ws
    0 (world 0%nat (transport 0) (a_writer 1024)) data.

(** A codec for admin tokens that hides nothing: the token spells out key,
    name and value. *)
Definition plain_cookie : SecureCookie :=
  {| securecookie_Encode := fun key name value =>
       if String.eqb key "" then Err "hash key is not set"
       else Ok (key ++ "|" ++ name ++ "|" ++ value)%string;
     securecookie_Decode := fun key name token =>
       let prefix := (key ++ "|" ++ name ++ "|")%string in
       if String.eqb key "" then Err "hash key is not set"
       else if String.prefix prefix token
            then Ok (String.substring (String.length prefix)
                       (String.length token - String.length prefix) token)
            else Err "the value is not valid" |}.

Definition text (s : string) : bytes := list_byte_of_string s.

(** Six frames waiting in an open queue. *)
Definition six_waiting : writer :=
  {| config := {| MaxQueueSize := 1024 |};
     messages := {| queue.items := [text "1"; text "2"; text "3";
                                    text "4"; text "5"; text "6"];
                    queue.closed := false |};
     w_closed := false |}.

(** Producers that write a seventh frame, then close the writer. *)
Definition producers : list (list EnvAction) :=
  [[EnvWrite (text "7")]; []; []; [EnvClose]].

(** A write function that counts its calls and fails at the second. *)
Definition second_fails (calls : nat) (msgs : list bytes) : nat * option error :=
  (S calls, if Nat.eqb calls 1 then Some "broken pipe"%string else None).

Definition ws_config : WebsocketConfig :=
  {| WebsocketCompression := false; WebsocketCompressionLevel := 1;
     WebsocketCompressionMinSize := 0; WebsocketReadBufferSize := 0;
     WebsocketWriteBufferSize := 0 |}.

Definition node_config (ping : Duration) : Config :=
  {| ClientPingInterval := ping; ClientMessageWriteTimeout := 0;
     ClientRequestMaxSize := 65536; ClientQueueMaxSize := 10485760 |}.

Definition info (clientID userID : string) : presence.ClientInfo :=
  {| presence.ClientID := clientID; presence.UserID := userID;
     presence.ConnInfo := []; presence.ChanInfo := [] |}.

(** The calls of [TestRedisPresenceManagerWithUserMapping], up to the
    first removal. *)
Definition test_calls : list presence.Call :=
  [presence.Add "channel" "uid" (info "uid" "1");
   presence.Add "channel" "uid" (info "uid" "1");
   presence.Add "channel" "uid-2" (info "uid-2" "1");
   presence.Add "channel" "uid-3" (info "uid-3" "2");
   presence.Remove "channel" "uid" "1"].

End Demo.

(** *** What is left of a call in its events *)

(** The codecs given back to the pools of package [proto], in order. *)
Definition puts (evs : list Event) : list Event :=
  List.filter (fun ev => match ev with
                         | EvPutCommandDecoder | EvPutReplyEncoder => true
                         | _ => false
                         end) evs.

(** *** The goroutine that reads a connection *)

Section Connection.

Context {HE : Externals} {HK : Codec}.
Context {C T : Type} {HC : Client C T} {HT : Transport T}.

(** The loop of [WebsocketHandler.ServeHTTP] and of
    [SockjsHandler.sockJSHandler]: read a frame, hand it to
    [handleClientData], return when that gives [false].  [incoming] holds
    the frames read before the read fails. *)
Fixpoint read_frames (now : Time) (W : @World C T) (incoming : list bytes) : @World C T :=
  match incoming with
  | [] => W
  | data :: rest =>
      let '(ok, W') := handleClientData now W data in
      if ok then read_frames now W' rest else W'
  end.

(** The goroutine of a connection once the writer, the transport and the
    client are made; [name] is ["websocket"] or ["SockJS"].  On return the
    deferred calls run, the last deferred first: the log entry,
    [c.Close(nil)], [writer.close()]. *)
Definition connection (name : string) (now : Time) (W : @World C T)
    (incoming : list bytes) : @World C T :=
  let W := emit W [EvLog LogLevelDebug (name ++ " connection established")] in
  let W := read_frames now W incoming in
  let W := emit W [EvLog LogLevelDebug (name ++ " connection completed")] in
  let W := client_Close now W None in
  {| w_client := w_client W; w_transport := w_transport W;
     w_writer := fst (writer_close (w_writer W)); w_events := w_events W |}.

(** The reply frames of the client frames [incoming], the client going from
    one frame to the next. *)
Fixpoint reply_frames (enc : proto.Encoding) (c : C) (incoming : list bytes)
  : list bytes :=
  match incoming with
  | [] => []
  | data :: rest =>
      let cmds := pending (GetCommandDecoder enc data) in
      frame_of enc (exchange c cmds) :: reply_frames enc (client_after c cmds) rest
  end.

(** The reply frames the loop hands to the writer [w], frame after frame: a
    client frame that passes is answered with its reply frame, and the loop
    goes on to the next while [writer.write] answers with no disconnect. *)
Fixpoint answered (enc : proto.Encoding) (c : C) (w : writer) (incoming : list bytes)
  : list bytes :=
  match incoming with
  | [] => []
  | data :: rest =>
      if passes enc c data then
        let cmds := pending (GetCommandDecoder enc data) in
        let frame := frame_of enc (exchange c cmds) in
        frame :: match writer_write w frame with
                 | (w', None) => answered enc (client_after c cmds) w' rest
                 | (_, Some _) => []
                 end
      else []
  end.

End Connection.

(** *** What a connection has been given to send *)

(** The data frames among the frames on the wire. *)
Definition data_frames (fs : list websocket.Frame) : list websocket.Frame :=
  List.filter (fun f => match f with websocket.Data _ _ _ => true | _ => false end) fs.

(** The pings among the frames on the wire. *)
Definition ping_frames (fs : list websocket.Frame) : list websocket.Frame :=
  List.filter (fun f => match f with
                        | websocket.Control websocket.PingMessage _ _ => true
                        | _ => false
                        end) fs.

Section PingTimer.

Context `{Externals}.
Variable fault : websocket.Conn -> websocket.Op -> option error.

(** The frame [ping] writes at instant [now]. *)
Definition ping_frame (t : websocketTransport) (now : Time) : websocket.Frame :=
  websocket.Control websocket.PingMessage (list_byte_of_string "ping")
    (now + Z.quot (pingInterval (opts t)) 2).

(** The connection once the frames [fs] were written to it, one after the
    other. *)
Definition with_frames (c : websocket.Conn) (fs : list websocket.Frame)
  : websocket.Conn :=
  fold_left websocket.put fs c.

(** The ping timer goes off at the instants given, one after the other, and
    runs [ping] each time. *)
Fixpoint pings (t : websocketTransport) (instants : list Time) : websocketTransport :=
  match instants with
  | [] => t
  | now :: later => pings (websocketTransport_ping fault now t) later
  end.

End PingTimer.

(** *** The writer wired to its transport *)

(** The payloads of the data frames on the wire, in order. *)
Definition payload (f : websocket.Frame) : bytes :=
  match f with
  | websocket.Data _ p _ => p
  | websocket.Control _ p _ => p
  | websocket.Close_ _ _ _ => []
  end.

Definition payloads (fs : list websocket.Frame) : list bytes :=
  map payload (data_frames fs).

Section OnWrite.

Context `{Externals}.
Variable fault : websocket.Conn -> websocket.Op -> option error.

(** The text of the run-time error of a nil dereference. *)
Definition nil_dereference : error :=
  "invalid memory address or nil pointer dereference".

(** [writer.onWrite(transport.write)] in [newWebsocketTransport]: the write
    function of the routine is [write] of the transport.  The state of the
    routine's transport is the transport and the number of calls so far;
    [clock n] is the instant of call [n].  A panic in [write] ends the
    routine, as an error returned does. *)
Definition websocket_writeFn (clock : nat -> Time)
    (st : websocketTransport * nat) (data : list bytes)
  : (websocketTransport * nat) * option error :=
  match websocketTransport_write fault (clock (snd st)) (fst st) data with
  | (t, Wrote err) => ((t, S (snd st)), err)
  | (t, Panics) => ((t, S (snd st)), Some nil_dereference)
  end.

End OnWrite.

(** *** Package [net/http], as far as the handlers use it *)

Module http.

Definition StatusOK : Z := 200.
Definition StatusBadRequest : Z := 400.
Definition StatusUnauthorized : Z := 401.
Definition StatusInternalServerError : Z := 500.

(** What the handlers read of a [*http.Request]. *)
Record Request := {
  Authorization : string;   (* r.Header.Get("Authorization") *)
  ContentType : string;     (* r.Header.Get("Content-Type") *)
  FormPassword : string;    (* r.FormValue("password") *)
  Body : result bytes       (* ioutil.ReadAll(r.Body) *)
}.

(** What has been done to a [http.ResponseWriter]: the status sent ([None]
    while no header is written), the [Content-Type] header, the body. *)
Record ResponseWriter := {
  status : option Z;
  contentType : option string;
  body : bytes
}.

Definition fresh : ResponseWriter :=
  {| status := None; contentType := None; body := [] |}.

(** [w.Header().Set("Content-Type", value)] *)
Definition SetContentType (w : ResponseWriter) (value : string) : ResponseWriter :=
  {| status := status w; contentType := Some value; body := body w |}.

(** [w.WriteHeader(code)]; a second call is ignored. *)
Definition WriteHeader (w : ResponseWriter) (code : Z) : ResponseWriter :=
  {| status := match status w with None => Some code | sent => sent end;
     contentType := contentType w; body := body w |}.

(** [w.Write(data)]; the first write sends the status 200 if none is sent. *)
Definition Write (w : ResponseWriter) (data : bytes) : ResponseWriter :=
  let w := WriteHeader w StatusOK in
  {| status := status w; contentType := contentType w; body := body w ++ data |}.

(** [http.Error(w, message, code)] *)
Definition Error (w : ResponseWriter) (message : string) (code : Z) : ResponseWriter :=
  let w := SetContentType w "text/plain; charset=utf-8" in
  let w := WriteHeader w code in
  Write w (list_byte_of_string message ++ ["010"%byte]).

End http.

(** A log entry: its level and its message. *)
Definition LogEntry : Type := LogLevel * string.

(** A [http.Handler] over a state [S]: what it does to the state, what it
    logs, what it does to the response. *)
Definition Handler (S : Type) : Type :=
  S -> http.Request -> http.ResponseWriter -> S * list LogEntry * http.ResponseWriter.

(** What the handlers take from the packages [strings] and
    [encoding/json]. *)
Class Library := {
  strings_Fields : string -> list string;
  strings_ToLower : string -> string;
  (** what [json.NewEncoder(w).Encode] writes for an object with the one
      member ["token"] *)
  json_Encode_token : string -> bytes
}.

(** [strings.HasPrefix(s, prefix)] *)
Definition strings_HasPrefix (s prefix : string) : bool := String.prefix prefix s.

(** *** The admin handler *)

Record AdminConfig := {
  Password : string;
  Secret : string;
  admin_Insecure : bool
}.

Section AdminHandler.

Context `{Library} `{SecureCookie}.

Definition AdminHandler_adminSecureTokenAuth {S : Type} (config : AdminConfig)
    (h : Handler S) : Handler S :=
  let secret := Secret config in
  let insecure := admin_Insecure config in
  fun s r w =>
    if insecure then h s r w
    else if String.eqb secret "" then
      (s, [(LogLevelError, "no admin secret key found in configuration")],
       http.WriteHeader w http.StatusUnauthorized)
    else
      let authorization := http.Authorization r in
      let parts := strings_Fields authorization in
      match parts with
      | [part0; part1] =>
          let authMethod := strings_ToLower part0 in
          if negb (String.eqb authMethod "token")
             || negb (checkSecureAdminToken secret part1)
          then (s, [], http.WriteHeader w http.StatusUnauthorized)
          else h s r w
      | _ => (s, [], http.WriteHeader w http.StatusUnauthorized)
      end.

Definition AdminHandler_authHandler {S : Type} (config : AdminConfig) : Handler S :=
  fun s r w =>
    let formPassword := http.FormPassword r in
    let insecure := admin_Insecure config in
    let password := Password config in
    let secret := Secret config in
    if insecure then
      let w := http.SetContentType w "application/json" in
      (s, [], http.Write w (json_Encode_token "insecure"))
    else if String.eqb password "" || String.eqb secret "" then
      (s, [(LogLevelError,
            "admin_password and admin_secret must be set in configuration")],
       http.Error w "Bad Request" http.StatusBadRequest)
    else if String.eqb formPassword password then
      let w := http.SetContentType w "application/json" in
      match generateSecureAdminToken secret with
      | Err _ =>
          (s, [(LogLevelError, "error generating admin token")],
           http.Error w "Internal Server Error" http.StatusInternalServerError)
      | Ok token => (s, [], http.Write w (json_Encode_token token))
      end
    else (s, [], http.Error w "Bad Request" http.StatusBadRequest).

End AdminHandler.

(** *** Package [apiproto], as far as the handlers use it *)

Module apiproto.

Inductive Encoding := EncodingJSON | EncodingProtobuf.

(** [MethodType]: the nine constants of the package, or another number. *)
Inductive MethodType :=
| MethodTypePublish | MethodTypeBroadcast | MethodTypeUnsubscribe
| MethodTypeDisconnect | MethodTypePresence | MethodTypePresenceStats
| MethodTypeHistory | MethodTypeChannels | MethodTypeInfo
| MethodTypeOther (number : Z).

Record Error := { Code : Z; Message : string }.

(** [proto.Raw], a slice of bytes: [None] is the [nil] slice. *)
Definition Raw : Type := option bytes.

Record Command := { ID : Z; Method : MethodType; Params : Raw }.

Record Reply := { rID : Z; rError : option Error; rResult : Raw }.

Record CommandDecoder := { pending : list Command; final : DecodeEnd }.

Record ReplyEncoder := { e_enc : Encoding; buffer : bytes }.

(** The codecs of the package and the API of the node, which are outside
    [handlers.go].  The requests and results of the nine methods are of one
    type each here; [DecodeParams m] stands for [decoder.DecodePublish] and
    its like, [Execute m] for [s.api.Publish] and its like, which act on
    the node, [EncodeResult m] for [encoder.EncodePublish] and its like. *)
Class API (N : Type) := {
  Request : Type;
  Result : Type;
  ErrBadRequest : Error;
  ErrMethodNotFound : Error;
  GetCommandDecoder : Encoding -> bytes -> CommandDecoder;
  marshalReply : Encoding -> Reply -> result bytes;
  DecodeParams : Encoding -> MethodType -> Raw -> result Request;
  (** [&apiproto.ChannelsRequest{}], [&apiproto.InfoRequest{}] *)
  emptyRequest : MethodType -> Request;
  Execute : MethodType -> N -> Request -> N * (option Error * option Result);
  EncodeResult : Encoding -> MethodType -> Result -> result Raw
}.

Definition GetReplyEncoder (enc : Encoding) : ReplyEncoder :=
  {| e_enc := enc; buffer := [] |}.

Definition Encode {N} `{API N} (e : ReplyEncoder) (rep : Reply) : result ReplyEncoder :=
  match marshalReply (e_enc e) rep with
  | Ok chunk => Ok {| e_enc := e_enc e; buffer := buffer e ++ chunk |}
  | Err err => Err err
  end.

Definition Finish (e : ReplyEncoder) : bytes := buffer e.

End apiproto.

(** *** The API handler *)

Record APIConfig := {
  Key : string;
  Insecure : bool
}.

Section APIHandler.

Context `{Library} {N : Type} `{apiproto.API N}.

(** The word for the method in the log entry of a failed [Decode...]. *)
Definition params_of (m : apiproto.MethodType) : string :=
  match m with
  | apiproto.MethodTypePublish => "publish"
  | apiproto.MethodTypeBroadcast => "broadcast"
  | apiproto.MethodTypeUnsubscribe => "unsubscribe"
  | apiproto.MethodTypeDisconnect => "disconnect"
  | apiproto.MethodTypePresence => "presence"
  | apiproto.MethodTypePresenceStats => "presence stats"
  | apiproto.MethodTypeHistory => "history"
  | _ => ""
  end.

(** What the cases of the [switch] share once the request is there: the
    call of the API, then the error or the encoded result. *)
Definition respond (n : N) (enc : apiproto.Encoding) (cmd : apiproto.Command)
    (request : apiproto.Request) : N * list LogEntry * result apiproto.Reply :=
  let '(n, (resp_Error, resp_Result)) := apiproto.Execute (apiproto.Method cmd) n request in
  match resp_Error with
  | Some e =>
      (n, [], Ok {| apiproto.rID := apiproto.ID cmd; apiproto.rError := Some e;
                    apiproto.rResult := None |})
  | None =>
      match resp_Result with
      | Some res =>
          match apiproto.EncodeResult enc (apiproto.Method cmd) res with
          | Err err => (n, [], Err err)
          | Ok replyRes =>
              (n, [], Ok {| apiproto.rID := apiproto.ID cmd; apiproto.rError := None;
                            apiproto.rResult := replyRes |})
          end
      | None =>
          (n, [], Ok {| apiproto.rID := apiproto.ID cmd; apiproto.rError := None;
                        apiproto.rResult := None |})
      end
  end.

Definition APIHandler_handleAPICommand (n : N) (enc : apiproto.Encoding)
    (cmd : apiproto.Command) : N * list LogEntry * result apiproto.Reply :=
  let method := apiproto.Method cmd in
  let params := apiproto.Params cmd in
  match method with
  | apiproto.MethodTypeChannels | apiproto.MethodTypeInfo =>
      respond n enc cmd (apiproto.emptyRequest method)
  | apiproto.MethodTypeOther _ =>
      (n, [], Ok {| apiproto.rID := apiproto.ID cmd;
                    apiproto.rError := Some apiproto.ErrMethodNotFound;
                    apiproto.rResult := None |})
  | _ =>
      match apiproto.DecodeParams enc method params with
      | Err _ =>
          (n, [(LogLevelError, "error decoding " +:+ params_of method +:+ " params")],
           Ok {| apiproto.rID := apiproto.ID cmd;
                 apiproto.rError := Some apiproto.ErrBadRequest;
                 apiproto.rResult := None |})
      | Ok request => respond n enc cmd request
      end
  end.

Definition APIHandler_checkAuth (config : APIConfig) (r : http.Request)
  : bool * list LogEntry :=
  let apiKey := Key config in
  if String.eqb apiKey "" && negb (Insecure config) then
    (false, [(LogLevelError, "API key is not configured")])
  else if negb (Insecure config) then
    let authorization := http.Authorization r in
    let parts := strings_Fields authorization in
    match parts with
    | [part0; part1] =>
        let authMethod := strings_ToLower part0 in
        if negb (String.eqb authMethod "apikey") || negb (String.eqb part1 apiKey)
        then (false, [])
        else (true, [])
    | _ => (false, [])
    end
  else (true, []).

(** The loop [for { command, err := decoder.Decode() ... }] of [ServeHTTP],
    by recursion on what the decoder has to give: the encoder when it is
    left by [break], or the message and the status of the [http.Error] it
    returns with. *)
Fixpoint serveLoop (n : N) (enc : apiproto.Encoding) (cmds : list apiproto.Command)
    (final : DecodeEnd) (encoder : apiproto.ReplyEncoder)
  : N * list LogEntry * (apiproto.ReplyEncoder + string * Z) :=
  match cmds with
  | [] =>
      match final with
      | EOF => (n, [], inl encoder)
      | Malformed _ =>
          (n, [(LogLevelError, "error decoding API data")],
           inr ("Bad Request", http.StatusBadRequest))
      end
  | command :: rest =>
      let '(n, log, r) := APIHandler_handleAPICommand n enc command in
      match r with
      | Err _ =>
          (n, log ++ [(LogLevelError, "error handling API command")],
           inr ("Internal Server Error", http.StatusInternalServerError))
      | Ok rep =>
          match apiproto.Encode encoder rep with
          | Err _ =>
              (n, log ++ [(LogLevelError, "error encoding API reply")],
               inr ("Internal Server Error", http.StatusInternalServerError))
          | Ok encoder =>
              let '(n, log', e) := serveLoop n enc rest final encoder in
              (n, log ++ log', e)
          end
      end
  end.

Definition APIHandler_ServeHTTP (config : APIConfig) : Handler N :=
  fun n r w =>
    let '(ok, log) := APIHandler_checkAuth config r in
    if negb ok then (n, log, http.WriteHeader w http.StatusUnauthorized)
    else
      match http.Body r with
      | Err _ =>
          (n, log ++ [(LogLevelError, "error reading API request body")],
           http.Error w "Internal Server Error" http.StatusInternalServerError)
      | Ok data =>
          if len data =? 0 then
            (n, log ++ [(LogLevelError, "no data in API request")],
             http.Error w "Bad Request" http.StatusBadRequest)
          else
            let contentType := http.ContentType r in
            let enc :=
              if strings_HasPrefix (strings_ToLower contentType)
                   "application/octet-stream"
              then apiproto.EncodingProtobuf else apiproto.EncodingJSON in
            let encoder := apiproto.GetReplyEncoder enc in
            let decoder := apiproto.GetCommandDecoder enc data in
            match serveLoop n enc (apiproto.pending decoder) (apiproto.final decoder)
                    encoder with
            | (n, log', inr (message, code)) =>
                (n, log ++ log', http.Error w message code)
            | (n, log', inl encoder) =>
                let resp := apiproto.Finish encoder in
                let w := http.SetContentType w contentType in
                (n, log ++ log', http.Write w resp)
            end
      end.

(** The node after the API commands [cmds] were handled in turn. *)
Fixpoint node_after (n : N) (enc : apiproto.Encoding) (cmds : list apiproto.Command) : N :=
  match cmds with
  | [] => n
  | cmd :: rest => node_after (fst (fst (APIHandler_handleAPICommand n enc cmd))) enc rest
  end.




End APIHandler.

(** [NewAdminHandler] mounts the API at [/admin/api] behind the token
    check, with the API's own check switched off. *)
Definition admin_api `{Library} `{SecureCookie} {N : Type} `{apiproto.API N}
    (config : AdminConfig) : Handler N :=
  AdminHandler_adminSecureTokenAuth config
    (APIHandler_ServeHTTP {| Key := ""; Insecure := true |}).

(** *** Package [controlproto]: the wire format of the control messages *)

Module controlproto.

Definition ErrInvalidLengthControl : error :=
  "proto: negative length found during unmarshaling".
Definition ErrIntOverflowControl : error := "proto: integer overflow".
(** [io.ErrUnexpectedEOF] *)
Definition ErrUnexpectedEOF : error := "unexpected EOF".

(** What a call comes to: it returns a value, it returns an error, or it
    panics.  [OutOfFuel] says that the bound the model puts on a loop was
    too small. *)
Inductive Run (A : Type) :=
| Return (a : A)
| Fail (err : error)
| Panic (reason : string)
| OutOfFuel.
Arguments Return {A} a.
Arguments Fail {A} err.
Arguments Panic {A} reason.
Arguments OutOfFuel {A}.

Definition bind {A B : Type} (r : Run A) (k : A -> Run B) : Run B :=
  match r with
  | Return a => k a
  | Fail err => Fail err
  | Panic reason => Panic reason
  | OutOfFuel => OutOfFuel
  end.

Notation "'do' p <~ r ; k" := (bind r (fun p => k))
  (at level 10, p pattern, r at level 100, k at level 200).

(** **** Go's integers and slices *)

(** Conversion to [uint64], to [int32] and to [uint8]; conversion to [int]
    is [wrap64]. *)
Definition uint64 (z : Z) : Z := z mod 2 ^ 64.
Definition int32 (z : Z) : Z := (z + 2 ^ 31) mod 2 ^ 32 - 2 ^ 31.
Definition uint8 (z : Z) : byte :=
  match Byte.of_N (Z.to_N (z mod 256)) with
  | Some b => b
  | None => "000"%byte
  end.

(** The number a byte stands for. *)
Definition byte_val (b : byte) : Z := Z.of_N (Byte.to_N b).

(** [len(s)] of a string. *)
Definition strlen (s : string) : Z := Z.of_nat (String.length s).

(** [dAtA[i]] *)
Definition index (dAtA : bytes) (i : Z) : Run byte :=
  if (0 <=? i) && (i <? len dAtA) then
    match dAtA !! Z.to_nat i with
    | Some b => Return b
    | None => Panic "index out of range"
    end
  else Panic "index out of range".

(** [dAtA[i] = b] *)
Definition assign (dAtA : bytes) (i : Z) (b : byte) : Run bytes :=
  if (0 <=? i) && (i <? len dAtA) then Return (<[Z.to_nat i := b]> dAtA)
  else Panic "index out of range".

(** [dAtA[low:high]], of a slice whose capacity is its length. *)
Definition slice (dAtA : bytes) (low high : Z) : Run bytes :=
  if (0 <=? low) && (low <=? high) && (high <=? len dAtA) then
    Return (take (Z.to_nat (high - low)) (drop (Z.to_nat low) dAtA))
  else Panic "slice bounds out of range".

(** [copy(dAtA[i:], src)]: the slice after the copy, and the number of
    bytes copied. *)
Definition copy (dAtA : bytes) (i : Z) (src : bytes) : Run (bytes * Z) :=
  if (0 <=? i) && (i <=? len dAtA) then
    let n := Z.min (len dAtA - i) (len src) in
    Return (take (Z.to_nat i) dAtA ++ take (Z.to_nat n) src
              ++ drop (Z.to_nat (i + n)) dAtA, n)
  else Panic "slice bounds out of range".

(** **** Varints *)

(** The loop [for v >= 1<<7] of [encodeVarintControl].  [v] is a [uint64],
    which is below [1<<7] after nine shifts by seven: the body runs nine
    times at most. *)
Fixpoint encodeVarint_loop (rounds : nat) (dAtA : bytes) (offset v : Z)
  : Run (bytes * Z) :=
  match rounds with
  | S rounds =>
      if 128 <=? v then
        do dAtA <~ assign dAtA offset (uint8 (Z.lor (Z.land v 127) 128));
        encodeVarint_loop rounds dAtA (offset + 1) (Z.shiftr v 7)
      else
        do dAtA <~ assign dAtA offset (uint8 v);
        Return (dAtA, offset + 1)
  | O =>
      do dAtA <~ assign dAtA offset (uint8 v);
      Return (dAtA, offset + 1)
  end.

(** [encodeVarintControl]: the slice as the call leaves it, and the offset
    it returns. *)
Definition encodeVarintControl (dAtA : bytes) (offset v : Z) : Run (bytes * Z) :=
  encodeVarint_loop 9 dAtA offset v.

Fixpoint encodeVarintPopulate_loop (rounds : nat) (dAtA : bytes) (v : Z) : bytes :=
  match rounds with
  | S rounds =>
      if 128 <=? v then
        encodeVarintPopulate_loop rounds
          (dAtA ++ [uint8 (Z.lor (Z.land (uint64 v) 127) 128)]) (Z.shiftr v 7)
      else dAtA ++ [uint8 v]
  | O => dAtA ++ [uint8 v]
  end.

Definition encodeVarintPopulateControl (dAtA : bytes) (v : Z) : bytes :=
  encodeVarintPopulate_loop 9 dAtA v.

(** The loop of [sovControl]; a [uint64] is zero after ten shifts by
    seven. *)
Fixpoint sovControl_loop (rounds : nat) (n x : Z) : Z :=
  let n := n + 1 in
  let x := Z.shiftr x 7 in
  match rounds with
  | S rounds => if x =? 0 then n else sovControl_loop rounds n x
  | O => n
  end.

Definition sovControl (x : Z) : Z := sovControl_loop 9 0 x.

(** The loop [for shift := uint(0); ; shift += 7] that reads a varint; the
    generated code has it at every place where one is read.  [conv] is the
    type of the variable it fills: [uint64], or [wrap64] for an [int].
    On the eleventh round [shift] is 70. *)
Fixpoint varint_loop (conv : Z -> Z) (rounds : nat) (dAtA : bytes)
    (iNdEx shift acc : Z) : Run (Z * Z) :=
  if 64 <=? shift then Fail ErrIntOverflowControl
  else if len dAtA <=? iNdEx then Fail ErrUnexpectedEOF
  else
    do b <~ index dAtA iNdEx;
    let iNdEx := iNdEx + 1 in
    let acc := Z.lor acc (conv (Z.shiftl (Z.land (byte_val b) 127) shift)) in
    if byte_val b <? 128 then Return (acc, iNdEx)
    else
      match rounds with
      | S rounds => varint_loop conv rounds dAtA iNdEx (shift + 7) acc
      | O => OutOfFuel
      end.

(** The value read, and the index after it. *)
Definition varint (conv : Z -> Z) (dAtA : bytes) (iNdEx : Z) : Run (Z * Z) :=
  varint_loop conv 10 dAtA iNdEx 0 0.

(** The like loop of [skipControl] for wire type 0, which keeps no value. *)
Fixpoint skip_varint_loop (rounds : nat) (dAtA : bytes) (iNdEx shift : Z) : Run Z :=
  if 64 <=? shift then Fail ErrIntOverflowControl
  else if len dAtA <=? iNdEx then Fail ErrUnexpectedEOF
  else
    let iNdEx := iNdEx + 1 in
    do b <~ index dAtA (iNdEx - 1);
    if byte_val b <? 128 then Return iNdEx
    else
      match rounds with
      | S rounds => skip_varint_loop rounds dAtA iNdEx (shift + 7)
      | O => OutOfFuel
      end.

(** [skipControl]: the number of bytes of the field at the head of [dAtA].
    [skipGroup] is its loop for wire type 3, which calls [skipControl] on
    the fields of the group.  [fuel] bounds the calls and rounds that follow
    one another; a call reads a tag anew and a round reads a byte at least,
    so twice the length of [dAtA] is enough. *)
Fixpoint skipControl_from (fuel : nat) (dAtA : bytes) : Run Z :=
  match fuel with
  | O => OutOfFuel
  | S fuel =>
      let l := len dAtA in
      let iNdEx := 0 in
      if iNdEx <? l then
        do (wire, iNdEx) <~ varint uint64 dAtA iNdEx;
        let wireType := Z.land wire 7 in
        if wireType =? 0 then skip_varint_loop 10 dAtA iNdEx 0
        else if wireType =? 1 then Return (iNdEx + 8)
        else if wireType =? 2 then
          do (length, iNdEx) <~ varint wrap64 dAtA iNdEx;
          let iNdEx := wrap64 (iNdEx + length) in
          if length <? 0 then Fail ErrInvalidLengthControl else Return iNdEx
        else if wireType =? 3 then skipGroup fuel dAtA iNdEx
        else if wireType =? 4 then Return iNdEx
        else if wireType =? 5 then Return (iNdEx + 4)
        else Fail "proto: illegal wireType"
      else Panic "unreachable"
  end
with skipGroup (fuel : nat) (dAtA : bytes) (iNdEx : Z) : Run Z :=
  match fuel with
  | O => OutOfFuel
  | S fuel =>
      let start := iNdEx in
      do (innerWire, iNdEx) <~ varint uint64 dAtA iNdEx;
      let innerWireType := Z.land innerWire 7 in
      if innerWireType =? 4 then Return iNdEx
      else
        do rest <~ slice dAtA start (len dAtA);
        do next <~ skipControl_from fuel rest;
        skipGroup fuel dAtA (wrap64 (start + next))
  end.

Definition skipControl (dAtA : bytes) : Run Z :=
  skipControl_from (2 * length dAtA + 1) dAtA.

(** **** The messages *)

Record Unsubscribe := { Unsubscribe_Channel : string; Unsubscribe_User : string }.

Record Disconnect := { Disconnect_User : string }.

(** What [Size] adds for a string field: [l = len(s); if l > 0 { n += 1 + l
    + sovControl(uint64(l)) }]. *)
Definition size_string (n : Z) (s : string) : Z :=
  let l := strlen s in
  if 0 <? l then n + (1 + l + sovControl (uint64 l)) else n.

Definition Unsubscribe_Size (m : Unsubscribe) : Z :=
  let n := 0 in
  let n := size_string n (Unsubscribe_Channel m) in
  let n := size_string n (Unsubscribe_User m) in
  n.

Definition Disconnect_Size (m : Disconnect) : Z :=
  let n := 0 in
  let n := size_string n (Disconnect_User m) in
  n.

(** What [MarshalTo] does for a string field: [if len(s) > 0 { dAtA[i] =
    tag; i++; i = encodeVarintControl(dAtA, i, uint64(len(s))); i +=
    copy(dAtA[i:], s) }]. *)
Definition marshal_string (tag : byte) (s : string) (dAtA : bytes) (i : Z)
  : Run (bytes * Z) :=
  if 0 <? strlen s then
    do dAtA <~ assign dAtA i tag;
    let i := i + 1 in
    do (dAtA, i) <~ encodeVarintControl dAtA i (uint64 (strlen s));
    do (dAtA, n) <~ copy dAtA i (list_byte_of_string s);
    Return (dAtA, i + n)
  else Return (dAtA, i).

(** [MarshalTo]: the slice as the call leaves it, and the number of bytes
    written; the error it returns is always [nil]. *)
Definition Unsubscribe_MarshalTo (m : Unsubscribe) (dAtA : bytes) : Run (bytes * Z) :=
  let i := 0 in
  do (dAtA, i) <~ marshal_string "010"%byte (Unsubscribe_Channel m) dAtA i;
  do (dAtA, i) <~ marshal_string "018"%byte (Unsubscribe_User m) dAtA i;
  Return (dAtA, i).

Definition Disconnect_MarshalTo (m : Disconnect) (dAtA : bytes) : Run (bytes * Z) :=
  let i := 0 in
  do (dAtA, i) <~ marshal_string "010"%byte (Disconnect_User m) dAtA i;
  Return (dAtA, i).

(** [make([]byte, size)] *)
Definition make (size : Z) : Run bytes :=
  if size <? 0 then Panic "makeslice: len out of range"
  else Return (repeat "000"%byte (Z.to_nat size)).

Definition Unsubscribe_Marshal (m : Unsubscribe) : Run bytes :=
  let size := Unsubscribe_Size m in
  do dAtA <~ make size;
  do (dAtA, n) <~ Unsubscribe_MarshalTo m dAtA;
  slice dAtA 0 n.

Definition Disconnect_Marshal (m : Disconnect) : Run bytes :=
  let size := Disconnect_Size m in
  do dAtA <~ make size;
  do (dAtA, n) <~ Disconnect_MarshalTo m dAtA;
  slice dAtA 0 n.

(** What [Unmarshal] does for a string field once the tag is read: the
    string, and the index after it. *)
Definition unmarshal_string (dAtA : bytes) (iNdEx : Z) : Run (string * Z) :=
  let l := len dAtA in
  do (stringLen, iNdEx) <~ varint uint64 dAtA iNdEx;
  let intStringLen := wrap64 stringLen in
  if intStringLen <? 0 then Fail ErrInvalidLengthControl
  else
    let postIndex := wrap64 (iNdEx + intStringLen) in
    if l <? postIndex then Fail ErrUnexpectedEOF
    else
      do s <~ slice dAtA iNdEx postIndex;
      Return (string_of_list_byte s, postIndex).

(** The [default] case of the [switch] on the field number: the index
    after the field that is skipped. *)
Definition unmarshal_skip (dAtA : bytes) (preIndex : Z) : Run Z :=
  let l := len dAtA in
  let iNdEx := preIndex in
  do rest <~ slice dAtA iNdEx l;
  do skippy <~ skipControl rest;
  if skippy <? 0 then Fail ErrInvalidLengthControl
  else if l <? wrap64 (iNdEx + skippy) then Fail ErrUnexpectedEOF
  else Return (wrap64 (iNdEx + skippy)).

(** The loop [for iNdEx < l] of [Unmarshal].  A round that does not return
    reads a byte at least; [fuel] bounds the rounds, and one more than the
    length of [dAtA] is enough.  The texts of the errors made by
    [fmt.Errorf] are without their numbers, and the message a failed call
    leaves behind is not kept. *)
Fixpoint Unsubscribe_Unmarshal_loop (fuel : nat) (m : Unsubscribe) (dAtA : bytes)
    (iNdEx : Z) : Run Unsubscribe :=
  let l := len dAtA in
  if iNdEx <? l then
    match fuel with
    | O => OutOfFuel
    | S fuel =>
        let preIndex := iNdEx in
        do (wire, iNdEx) <~ varint uint64 dAtA iNdEx;
        let fieldNum := int32 (Z.shiftr wire 3) in
        let wireType := Z.land wire 7 in
        if wireType =? 4 then
          Fail "proto: Unsubscribe: wiretype end group for non-group"
        else if fieldNum <=? 0 then Fail "proto: Unsubscribe: illegal tag"
        else if fieldNum =? 1 then
          if negb (wireType =? 2) then Fail "proto: wrong wireType for field Channel"
          else
            do (s, iNdEx) <~ unmarshal_string dAtA iNdEx;
            Unsubscribe_Unmarshal_loop fuel
              {| Unsubscribe_Channel := s; Unsubscribe_User := Unsubscribe_User m |}
              dAtA iNdEx
        else if fieldNum =? 2 then
          if negb (wireType =? 2) then Fail "proto: wrong wireType for field User"
          else
            do (s, iNdEx) <~ unmarshal_string dAtA iNdEx;
            Unsubscribe_Unmarshal_loop fuel
              {| Unsubscribe_Channel := Unsubscribe_Channel m; Unsubscribe_User := s |}
              dAtA iNdEx
        else
          do iNdEx <~ unmarshal_skip dAtA preIndex;
          Unsubscribe_Unmarshal_loop fuel m dAtA iNdEx
    end
  else if l <? iNdEx then Fail ErrUnexpectedEOF
  else Return m.

Definition Unsubscribe_Unmarshal (m : Unsubscribe) (dAtA : bytes) : Run Unsubscribe :=
  Unsubscribe_Unmarshal_loop (S (length dAtA)) m dAtA 0.

Fixpoint Disconnect_Unmarshal_loop (fuel : nat) (m : Disconnect) (dAtA : bytes)
    (iNdEx : Z) : Run Disconnect :=
  let l := len dAtA in
  if iNdEx <? l then
    match fuel with
    | O => OutOfFuel
    | S fuel =>
        let preIndex := iNdEx in
        do (wire, iNdEx) <~ varint uint64 dAtA iNdEx;
        let fieldNum := int32 (Z.shiftr wire 3) in
        let wireType := Z.land wire 7 in
        if wireType =? 4 then
          Fail "proto: Disconnect: wiretype end group for non-group"
        else if fieldNum <=? 0 then Fail "proto: Disconnect: illegal tag"
        else if fieldNum =? 1 then
          if negb (wireType =? 2) then Fail "proto: wrong wireType for field User"
          else
            do (s, iNdEx) <~ unmarshal_string dAtA iNdEx;
            Disconnect_Unmarshal_loop fuel {| Disconnect_User := s |} dAtA iNdEx
        else
          do iNdEx <~ unmarshal_skip dAtA preIndex;
          Disconnect_Unmarshal_loop fuel m dAtA iNdEx
    end
  else if l <? iNdEx then Fail ErrUnexpectedEOF
  else Return m.

Definition Disconnect_Unmarshal (m : Disconnect) (dAtA : bytes) : Run Disconnect :=
  Disconnect_Unmarshal_loop (S (length dAtA)) m dAtA 0.

(** [Reset]: the zero message. *)
Definition Unsubscribe_Reset : Unsubscribe :=
  {| Unsubscribe_Channel := ""; Unsubscribe_User := "" |}.
Definition Disconnect_Reset : Disconnect := {| Disconnect_User := "" |}.

(** What [skipControl] may return: a count that is one at least, or a
    negative number, the sum of index and length having wrapped round. *)
Definition skipped (n : Z) : Prop :=
  1 <= n < 2 ^ 63 \/ - 2 ^ 63 <= n < - 2 ^ 62.

(** The bytes of a string field on the wire. *)
Definition field_bytes (tag : byte) (s : string) : bytes :=
  if 0 <? strlen s
  then tag :: encodeVarintPopulateControl [] (strlen s) ++ list_byte_of_string s
  else [].

End controlproto.

(** *** Further instances to run the definitions on *)

Module Fixtures.

Definition echo (cmd : proto.Command) : proto.Reply :=
  {| proto.rID := proto.ID cmd; proto.rError := None;
     proto.rResult := proto.Params cmd |}.

(** A client like [Demo.client] that asks to be disconnected at ["q"]. *)
Definition leaving {T} `{Transport T} : Client nat T :=
  {| Client_ID := fun _ => "client";
     Client_UserID := fun _ => "user";
     Client_Handle := fun n cmd =>
       if proto.ID cmd =? 113
       then (S n, None, Some {| proto.Reason := "bye"; proto.Reconnect := false |})
       else (S n, Some (echo cmd), None);
     Client_Close := fun now n t d => (n, fst (Transport_Close now t d)) |}.

(** A codec like [Demo.codec] that cannot encode the reply to ["?"]. *)
Definition picky : Codec :=
  {| GetCommandDecoder := fun _ data => Demo.decoder data;
     marshalReply := fun _ rep =>
       if proto.rID rep =? 63 then Err "cannot be encoded"
       else Ok (proto.rResult rep ++ ["010"%byte]) |}.

Definition command (b : byte) : proto.Command :=
  {| proto.ID := Z.of_N (Byte.to_N b); proto.Method := 0; proto.Params := [b] |}.

(** The packages [strings] and [encoding/json] on ASCII text: fields are
    set apart by blanks, and JSON strings need no escapes. *)
Fixpoint fields_from (word s : string) : list string :=
  match s with
  | EmptyString => if String.eqb word "" then [] else [word]
  | String a rest =>
      if Ascii.eqb a (Ascii.ascii_of_nat 32)
      then (if String.eqb word "" then fields_from "" rest
            else word :: fields_from "" rest)
      else fields_from (word +:+ String a "") rest
  end.

Definition lower_ascii (a : Ascii.ascii) : Ascii.ascii :=
  let n := Ascii.nat_of_ascii a in
  if ((65 <=? n) && (n <=? 90))%nat then Ascii.ascii_of_nat (n + 32) else a.

Fixpoint lower (s : string) : string :=
  match s with
  | EmptyString => EmptyString
  | String a rest => String (lower_ascii a) (lower rest)
  end.

Definition quoted (s : string) : bytes :=
  ["034"%byte] ++ list_byte_of_string s ++ ["034"%byte].

Definition library : Library :=
  {| strings_Fields := fields_from "";
     strings_ToLower := lower;
     json_Encode_token := fun token =>
       list_byte_of_string "{" ++ quoted "token" ++ list_byte_of_string ":"
         ++ quoted token ++ list_byte_of_string "}" ++ ["010"%byte] |}.

(** A wire format of one byte per API command: ["i"] asks for the info,
    ["u"] is a method the node does not know, any other byte publishes
    itself; ["!"] cannot be decoded. *)
Fixpoint api_decoder (data : bytes) : apiproto.CommandDecoder :=
  match data with
  | [] => {| apiproto.pending := []; apiproto.final := EOF |}
  | b :: rest =>
      if Byte.eqb b "!"%byte
      then {| apiproto.pending := [];
              apiproto.final := Malformed "unexpected character" |}
      else
        let d := api_decoder rest in
        {| apiproto.pending :=
             {| apiproto.ID := Z.of_N (Byte.to_N b);
                apiproto.Method :=
                  if Byte.eqb b "i"%byte then apiproto.MethodTypeInfo
                  else if Byte.eqb b "u"%byte then apiproto.MethodTypeOther 99
                  else apiproto.MethodTypePublish;
                apiproto.Params := Some [b] |} :: apiproto.pending d;
           apiproto.final := apiproto.final d |}
  end.

(** A node that keeps what was published; it cannot decode the params
    ["x"], and the reply to ["?"] cannot be encoded. *)
Definition api : apiproto.API (list bytes) :=
  {| apiproto.Request := bytes;
     apiproto.Result := bytes;
     apiproto.ErrBadRequest :=
       {| apiproto.Code := 107; apiproto.Message := "bad request" |};
     apiproto.ErrMethodNotFound :=
       {| apiproto.Code := 104; apiproto.Message := "method not found" |};
     apiproto.GetCommandDecoder := fun _ data => api_decoder data;
     apiproto.marshalReply := fun _ rep =>
       if apiproto.rID rep =? 63 then Err "cannot be encoded"
       else Ok (match apiproto.rError rep, apiproto.rResult rep with
                | Some _, _ => list_byte_of_string "error"
                | None, Some res => res
                | None, None => []
                end ++ ["010"%byte]);
     apiproto.DecodeParams := fun _ _ params =>
       match params with
       | Some (b :: more) =>
           if Byte.eqb b "x"%byte then Err "unexpected params" else Ok (b :: more)
       | _ => Err "no params"
       end;
     apiproto.emptyRequest := fun _ => [];
     apiproto.Execute := fun _ n request =>
       (n ++ [request], (None, Some (list_byte_of_string "ok")));
     apiproto.EncodeResult := fun _ _ res => Ok (Some res) |}.

Definition api_request (authorization body : string) : http.Request :=
  {| http.Authorization := authorization;
     http.ContentType := "application/json";
     http.FormPassword := "";
     http.Body := Ok (list_byte_of_string body) |}.

Definition admin : AdminConfig :=
  {| Password := "password"; Secret := "secret"; admin_Insecure := false |}.

Definition login (password : string) : http.Request :=
  {| http.Authorization := ""; http.ContentType := "";
     http.FormPassword := password; http.Body := Ok [] |}.

Definition a_session : sockjs.Session :=
  {| sockjs.sent := []; sockjs.closing := None |}.

(** A SockJS network on which the payload ["b"] cannot be sent. *)
Definition no_b (s : sockjs.Session) (op : sockjs.Op) : option error :=
  match op with
  | sockjs.OpSend ["b"%byte] => Some "broken pipe"%string
  | _ => None
  end.

(** A websocket network on which the third control frame cannot be written. *)
Definition two_pings (c : websocket.Conn) (op : websocket.Op) : option error :=
  match op with
  | websocket.OpWriteControl =>
      if (2 <=? length (websocket.wire c))%nat then Some "broken pipe"%string else None
  | _ => None
  end.

(** Three frames waiting in an open queue. *)
Definition abc_waiting : writer :=
  {| config := {| MaxQueueSize := 1024 |};
     messages := {| queue.items := [Demo.text "a"; Demo.text "b"; Demo.text "c"];
                    queue.closed := false |};
     w_closed := false |}.

(** A clock that ticks once for each call. *)
Definition ticks (n : nat) : Time := Z.of_nat n.

End Fixtures.

(** ** Part II: properties *)

(** C2.  [writer.write] answers with the disconnect [{Reason: "slow",
    Reconnect: true}] exactly when the queue accepted the frame and the byte
    size of the queue after the [Add] is strictly above [MaxQueueSize]; in
    every other case, a closed queue that refuses the frame included, it
    answers [nil]. *)
Theorem writer_write_slow_iff (w : writer) (data : bytes) :
  let added := queue.Add (messages w) data in
  let verdict := snd (writer_write w data) in
  messages (fst (writer_write w data)) = fst added /\
  (verdict = Some {| proto.Reason := "slow"; proto.Reconnect := true |} \/
   verdict = None) /\
  (verdict = Some {| proto.Reason := "slow"; proto.Reconnect := true |} <->
   snd added = true /\ MaxQueueSize (config w) < queue.Size (fst added)) /\
  (queue.closed (messages w) = true -> verdict = None).
Proof.
  unfold writer_write.
  destruct (queue.Add (messages w) data) as [q ok] eqn:Ha; cbn [fst snd].
  destruct ok; cbn [negb config messages].
  - assert (Hopen : queue.closed (messages w) = false).
    { unfold queue.Add in Ha. destruct (queue.closed (messages w)); congruence. }
    destruct (Z.ltb_spec (MaxQueueSize (config w)) (queue.Size q)); cbn [fst snd messages].
    + split; [reflexivity|]. split; [now left|]. split; [|congruence].
      split; [now intros _ | reflexivity].
    + split; [reflexivity|]. split; [now right|]. split; [|reflexivity].
      split; [discriminate | intros [_ ?]; lia].
  - cbn [fst snd messages].
    split; [reflexivity|]. split; [now right|]. split; [|reflexivity].
    split; [discriminate | intros [? _]; discriminate].
Qed.

(** *** The write routine *)

Section WriteRoutineFacts.

Context {T : Type}.
Variable writeFn : T -> list bytes -> T * option error.

Abbreviation routine := (@routine T).

Lemma env_acts_app w t1 t2 :
  env_acts w (t1 ++ t2) = env_acts (env_acts w t1) t2.
Proof. apply fold_left_app. Qed.

Lemma popped_env_act x w w' a :
  popped x w w' -> popped x (env_act w a) (env_act w' a).
Proof.
  intros (Hi & Hc & Hg & Hw). destruct a as [data|]; cbn.
  - unfold writer_write, queue.Add. rewrite <- Hc.
    destruct (queue.closed (messages w)) eqn:E; cbn.
    + repeat split; cbn; auto; congruence.
    + destruct (_ <? _), (_ <? _); cbn; repeat split; cbn; auto;
        rewrite Hi; reflexivity.
  - unfold writer_close. rewrite <- Hw.
    destruct (w_closed w) eqn:E; cbn; repeat split; cbn; auto; congruence.
Qed.

Lemma popped_env_acts x turn : forall w w',
  popped x w w' -> popped x (env_acts w turn) (env_acts w' turn).
Proof.
  induction turn as [|a turn IH]; intros w w' H; cbn; [exact H|].
  apply IH, popped_env_act, H.
Qed.

Lemma Remove_popped w q x :
  queue.Remove (messages w) = (q, Some x) ->
  popped x w {| config := config w; messages := q; w_closed := w_closed w |}.
Proof.
  unfold queue.Remove. destruct (queue.items (messages w)) eqn:E; [discriminate|].
  intros [= <- <-]. repeat split; cbn; auto.
Qed.

Lemma Remove_none w q :
  queue.Remove (messages w) = (q, None) ->
  {| config := config w; messages := q; w_closed := w_closed w |} = w.
Proof.
  unfold queue.Remove. destruct (queue.items (messages w)); [|discriminate].
  intros [= <-]. now destruct w.
Qed.

Lemma arrivals_env_turn (s : routine) : arrivals (env_turn s) = arrivals s.
Proof.
  destruct s as [w [|turn rest] t log]; [reflexivity|].
  unfold arrivals, env_turn. cbn [r_writer r_env concat]. now rewrite env_acts_app.
Qed.

Lemma written_env_turn (s : routine) : r_written (env_turn s) = r_written s.
Proof. unfold env_turn. now destruct (r_env s). Qed.

(** The frames still to come after a call of [Wait]. *)
Lemma await_arrivals env : forall w w' env' r,
  await w env = (w', env', r) ->
  match r with
  | queue.WaitItem msg =>
      queue.items (messages (env_acts w (concat env))) =
      msg :: queue.items (messages (env_acts w' (concat env')))
  | _ =>
      queue.items (messages (env_acts w (concat env))) =
      queue.items (messages (env_acts w' (concat env')))
  end.
Proof.
  induction env as [|turn rest IH]; intros w w' env' r; cbn [await];
    unfold queue.Wait;
    destruct (queue.Remove (messages w)) as [q [x|]] eqn:ER.
  - intros [= <- <- <-]. cbn. apply (Remove_popped _ _ _ ER).
  - destruct (queue.closed (messages w)).
    + intros [= <- <- <-]. now rewrite (Remove_none _ _ ER).
    + intros [= <- <- <-]. reflexivity.
  - intros [= <- <- <-].
    apply (popped_env_acts x (concat (turn :: rest)) _ _ (Remove_popped _ _ _ ER)).
  - destruct (queue.closed (messages w)).
    + intros [= <- <- <-]. now rewrite (Remove_none _ _ ER).
    + intros H. apply IH in H. cbn [concat]. now rewrite env_acts_app.
Qed.

Lemma arrivals_set_messages_popped (s : routine) q x :
  queue.Remove (messages (r_writer s)) = (q, Some x) ->
  arrivals s = x :: arrivals (set_messages s q).
Proof.
  intros ER. unfold arrivals, set_messages, set_writer. cbn [r_writer r_env].
  apply (popped_env_acts x _ _ _ (Remove_popped _ _ _ ER)).
Qed.

Lemma set_messages_none (s : routine) q :
  queue.Remove (messages (r_writer s)) = (q, None) -> set_messages s q = s.
Proof.
  intros ER. unfold set_messages, set_writer. rewrite (Remove_none _ _ ER).
  now destruct s.
Qed.

Lemma len_app {A} (l1 l2 : list A) : len (l1 ++ l2) = len l1 + len l2.
Proof. unfold len. rewrite length_app. lia. Qed.

(** The inner loop moves frames from the head of the queue to the end of
    the batch, never beyond [maxMessagesInFrame], and calls no [writeFn]. *)
Lemma drain_spec n : forall msgs (s : routine),
  match drain n msgs s with
  | DrainBreak msgs' s' =>
      msgs ++ arrivals s = msgs' ++ arrivals s' /\
      r_written s' = r_written s /\
      len msgs <= len msgs' /\
      (len msgs <= maxMessagesInFrame -> len msgs' <= maxMessagesInFrame)
  | DrainReturn s' => r_written s' = r_written s
  end.
Proof.
  induction n as [|n IH]; intros msgs s; cbn [drain].
  - repeat split; auto; lia.
  - destruct (Z.leb_spec maxMessagesInFrame (len msgs)) as [Hfull|Hroom].
    + repeat split; auto; lia.
    + destruct (queue.Remove (messages (r_writer (env_turn s)))) as [q [x|]] eqn:ER.
      * specialize (IH (msgs ++ [x]) (set_messages (env_turn s) q)).
        destruct (drain n (msgs ++ [x]) (set_messages (env_turn s) q)) as [msgs' s'|s'].
        -- destruct IH as (Ha & Hw & Hl & Hb).
           rewrite len_app in Hl, Hb. change (len [x]) with 1 in Hl, Hb.
           repeat split.
           ++ rewrite <- Ha, <- (arrivals_env_turn s),
                (arrivals_set_messages_popped _ _ _ ER), <- app_assoc.
              reflexivity.
           ++ now rewrite Hw, <- (written_env_turn s).
           ++ lia.
           ++ intros _. apply Hb. lia.
        -- now rewrite IH, <- (written_env_turn s).
      * rewrite (set_messages_none _ _ ER).
        destruct (queue.Closed _).
        -- now rewrite !written_env_turn.
        -- rewrite !arrivals_env_turn, !written_env_turn.
           repeat split; auto; lia.
Qed.

Lemma Inv_Post total (s : routine) : Inv total s -> Post total s.
Proof.
  intros (Hb & Ht & Hs). repeat split; auto.
  - now exists (arrivals s).
  - exists (r_written s), []. rewrite app_nil_r. auto.
Qed.

Lemma Inv_env_turn total (s : routine) : Inv total s -> Inv total (env_turn s).
Proof.
  unfold Inv. now rewrite written_env_turn, arrivals_env_turn.
Qed.

Lemma after_write_spec total (s : routine) msgs rest :
  Forall batch_ok (r_written s) -> Forall succeeded (r_written s) ->
  total = concat (map fst (r_written s)) ++ msgs ++ rest ->
  arrivals s = rest ->
  1 <= len msgs <= maxMessagesInFrame ->
  match after_write (call_writeFn writeFn s msgs) with
  | Continue s' => Inv total s'
  | Return s' | Sleep s' => Post total s'
  end.
Proof.
  intros Hb Hs Ht Ha Hl. unfold call_writeFn.
  destruct (writeFn (r_transport s) msgs) as [t [e|]]; cbn [after_write].
  - repeat split; cbn [r_written].
    + apply Forall_app. split; [exact Hb|]. now repeat constructor.
    + exists rest. rewrite map_app, concat_app, <- app_assoc. cbn.
      now rewrite app_nil_r.
    + exists (r_written s), [(msgs, Some e)]. auto.
  - repeat split; cbn [r_written].
    + apply Forall_app. split; [exact Hb|]. now repeat constructor.
    + rewrite map_app, concat_app, <- app_assoc. cbn. rewrite app_nil_r.
      unfold arrivals in *. cbn [r_writer r_env]. now rewrite Ha.
    + apply Forall_app. split; [exact Hs|]. now repeat constructor.
Qed.

Lemma iteration_spec total (s : routine) :
  Inv total s ->
  match iteration writeFn s with
  | Continue s' => Inv total s'
  | Return s' | Sleep s' => Post total s'
  end.
Proof.
  intros HI. apply Inv_env_turn in HI. unfold iteration.
  set (s0 := env_turn s) in *.
  destruct (await (r_writer s0) (r_env s0)) as [[w env] r] eqn:EA.
  pose proof (await_arrivals _ _ _ _ _ EA) as HA.
  set (s1 := {| r_writer := w; r_env := env; r_transport := r_transport s0;
                r_written := r_written s0 |}).
  destruct HI as (Hb & Ht & Hs).
  destruct r as [msg| |].
  - (* a frame *)
    assert (Ha : arrivals s0 = msg :: arrivals (env_turn s1))
      by (rewrite arrivals_env_turn; exact HA).
    assert (Hw : r_written (env_turn s1) = r_written s0)
      by (now rewrite written_env_turn).
    destruct (mergeQueueMessages && (0 <? queue.Len (messages (r_writer (env_turn s1))))).
    + pose proof (drain_spec (Z.to_nat (queue.Len (messages (r_writer (env_turn s1)))))
                    [msg] (env_turn s1)) as HD.
      destruct (drain _ [msg] (env_turn s1)) as [msgs s3|s3].
      * destruct HD as (Hd & Hw3 & Hl & Hm). change (len [msg]) with 1 in Hl, Hm.
        destruct (Z.ltb_spec 0 (len msgs)); [|lia].
        apply after_write_spec with (rest := arrivals s3).
        -- now rewrite Hw3, Hw.
        -- now rewrite Hw3, Hw.
        -- rewrite Hw3, Hw, <- Hd, Ht, Ha. reflexivity.
        -- reflexivity.
        -- unfold maxMessagesInFrame in *. lia.
      * repeat split.
        -- now rewrite HD, Hw.
        -- exists (arrivals s0). now rewrite HD, Hw.
        -- exists (r_written s3), []. rewrite app_nil_r, HD, Hw. auto.
    + apply after_write_spec with (rest := arrivals (env_turn s1)).
      * now rewrite Hw.
      * now rewrite Hw.
      * rewrite Hw, Ht, Ha. reflexivity.
      * reflexivity.
      * change (len [msg]) with 1. unfold maxMessagesInFrame. lia.
  - (* closed and drained *)
    assert (HI1 : Inv total (env_turn s1)).
    { apply Inv_env_turn. repeat split; auto.
      rewrite Ht. unfold arrivals at 2. cbn [s1 r_writer r_env r_written].
      now rewrite <- HA. }
    destruct (queue.Closed _); [apply Inv_Post|]; exact HI1.
  - (* asleep for ever *)
    apply Inv_Post. repeat split; auto.
    rewrite Ht. unfold arrivals at 2. cbn [s1 r_writer r_env r_written].
    now rewrite <- HA.
Qed.

Lemma runWriteRoutine_spec total fuel : forall s : routine,
  Inv total s -> Post total (snd (writer_runWriteRoutine writeFn fuel s)).
Proof.
  induction fuel as [|fuel IH]; intros s HI; cbn [writer_runWriteRoutine].
  - now apply Inv_Post.
  - pose proof (iteration_spec total s HI) as HS.
    destruct (iteration writeFn s); cbn [snd]; auto.
Qed.

(** **** Enough fuel *)

Lemma closed_env_act w a :
  queue.closed (messages w) = true -> queue.closed (messages (env_act w a)) = true.
Proof.
  intros Hc. destruct a as [data|]; cbn.
  - unfold writer_write, queue.Add. rewrite Hc. exact Hc.
  - unfold writer_close. now destruct (w_closed w).
Qed.

Lemma closed_env_acts turn : forall w,
  queue.closed (messages w) = true ->
  queue.closed (messages (env_acts w turn)) = true.
Proof.
  induction turn as [|a turn IH]; intros w Hc; [exact Hc|].
  apply IH, closed_env_act, Hc.
Qed.

Lemma closed_env_turn (s : routine) :
  queue.closed (messages (r_writer s)) = true ->
  queue.closed (messages (r_writer (env_turn s))) = true.
Proof.
  unfold env_turn. destruct (r_env s); [auto|]. apply closed_env_acts.
Qed.

(** [Wait] reports a closed queue only when the queue is closed. *)
Lemma await_closed env : forall w w' env',
  await w env = (w', env', queue.WaitClosed) ->
  queue.closed (messages w') = true.
Proof.
  induction env as [|turn rest IH]; intros w w' env'; cbn [await];
    unfold queue.Wait, queue.Remove;
    destruct (queue.items (messages w)); try discriminate;
    destruct (queue.closed (messages w)) eqn:Hc; try discriminate.
  - intros [= <- _]. exact Hc.
  - intros [= <- _]. exact Hc.
  - apply IH.
Qed.

Lemma arrivals_call_writeFn (s : routine) msgs :
  arrivals (fst (call_writeFn writeFn s msgs)) = arrivals s.
Proof. unfold call_writeFn. now destruct (writeFn (r_transport s) msgs). Qed.

(** An iteration that is followed by another took a frame out of the queue. *)
Lemma iteration_progress (s : routine) :
  match iteration writeFn s with
  | Continue s' => (length (arrivals s') < length (arrivals s))%nat
  | _ => True
  end.
Proof.
  unfold iteration. rewrite <- (arrivals_env_turn s).
  set (s0 := env_turn s).
  destruct (await (r_writer s0) (r_env s0)) as [[w env] r] eqn:EA.
  pose proof (await_arrivals _ _ _ _ _ EA) as HA.
  set (s1 := {| r_writer := w; r_env := env; r_transport := r_transport s0;
                r_written := r_written s0 |}).
  destruct r as [msg| |]; [| |exact I].
  - assert (Ha : arrivals s0 = msg :: arrivals (env_turn s1))
      by (rewrite arrivals_env_turn; exact HA).
    assert (Hcall : forall s3 msgs,
               (length (arrivals s3) <= length (arrivals (env_turn s1)))%nat ->
               match after_write (call_writeFn writeFn s3 msgs) with
               | Continue s' => (length (arrivals s') < length (arrivals s0))%nat
               | _ => True
               end).
    { intros s3 msgs Hle. pose proof (arrivals_call_writeFn s3 msgs) as Hc.
      destruct (call_writeFn writeFn s3 msgs) as [s4 [e|]]; cbn in *; [exact I|].
      rewrite Hc, Ha. cbn. lia. }
    destruct (mergeQueueMessages && (0 <? queue.Len (messages (r_writer (env_turn s1))))).
    + pose proof (drain_spec (Z.to_nat (queue.Len (messages (r_writer (env_turn s1)))))
                    [msg] (env_turn s1)) as HD.
      destruct (drain _ [msg] (env_turn s1)) as [msgs s3|s3]; [|exact I].
      destruct HD as (Hd & _ & Hl & _).
      assert (Hle : (length (arrivals s3) <= length (arrivals (env_turn s1)))%nat).
      { apply (f_equal (@length bytes)) in Hd. rewrite !length_app in Hd.
        unfold len in Hl. lia. }
      destruct (0 <? len msgs); [now apply Hcall|].
      rewrite Ha. cbn. lia.
    + now apply Hcall.
  - apply await_closed in EA.
    assert (Hc : queue.Closed (messages (r_writer (env_turn s1))) = true)
      by (apply closed_env_turn; exact EA).
    now rewrite Hc.
Qed.

(** With more fuel than frames to come, the routine does not run out of
    fuel: it returns, or sleeps for want of producers. *)
Lemma runWriteRoutine_stops fuel : forall s : routine,
  (length (arrivals s) < fuel)%nat ->
  fst (writer_runWriteRoutine writeFn fuel s) <> OutOfFuel.
Proof.
  induction fuel as [|fuel IH]; intros s Hlt; [lia|].
  cbn [writer_runWriteRoutine]. pose proof (iteration_progress s) as HP.
  destruct (iteration writeFn s) as [s'|s'|s']; cbn; try discriminate.
  apply IH. lia.
Qed.

(** C4.  Every batch the write routine hands to the transport's write
    function holds at least one and at most [maxMessagesInFrame] = 4
    frames; the batches, one after the other, are the frames in the order
    in which they entered the queue; and a call of the write function
    that fails is the last one.  This holds after any number of
    iterations, and the iterations are at most as many as the frames that
    enter the queue. *)
Theorem runWriteRoutine_batches
    (fuel : nat) (w : writer) (env : list (list EnvAction)) (t : T) :
  let s' := snd (writer_runWriteRoutine writeFn fuel (start w env t)) in
  Forall (fun call => 1 <= len (fst call) <= 4) (r_written s') /\
  maxMessagesInFrame = 4 /\
  (exists rest,
      arrivals (start w env t) = concat (map fst (r_written s')) ++ rest) /\
  (forall before msgs e after,
      r_written s' = before ++ (msgs, Some e) :: after -> after = []) /\
  ((length (arrivals (start w env t)) < fuel)%nat ->
   fst (writer_runWriteRoutine writeFn fuel (start w env t)) <> OutOfFuel).
Proof.
  assert (HI : Inv (arrivals (start w env t)) (start w env t)).
  { repeat split; cbn; auto. }
  destruct (runWriteRoutine_spec _ fuel _ HI) as (Hb & Hp & log & last & Hw & Hs & Hl).
  cbn zeta. split_and!; auto.
  - intros before msgs e after Hsplit. rewrite Hw in Hsplit.
    destruct last as [|c [|c' last]]; cbn in Hl; [| |lia].
    + rewrite app_nil_r in Hsplit. subst log.
      apply Forall_app in Hs as [_ Hs]. inversion Hs as [|? ? Hc _]. discriminate Hc.
    + destruct after as [|a after] using rev_ind; [reflexivity|]. exfalso.
      rewrite app_comm_cons, app_assoc in Hsplit.
      apply app_inj_tail in Hsplit as [-> _].
      apply Forall_app in Hs as [_ Hs]. inversion Hs as [|? ? Hc _]. discriminate Hc.
  - apply runWriteRoutine_stops.
Qed.

End WriteRoutineFacts.

(** *** The websocket transport *)

Section WebsocketFacts.

Context `{Externals}.
Variable fault : websocket.Conn -> websocket.Op -> option error.

Lemma ws_Close_closed now t d :
  ws_closed (fst (websocketTransport_Close fault now t d)) = true.
Proof.
  unfold websocketTransport_Close. destruct (ws_closed t) eqn:E; [exact E|].
  destruct d as [d|].
  - destruct (json_Marshal d); [|reflexivity].
    destruct (websocket.WriteControl _ _ _) as [c e].
    now destruct (websocket.Close fault c).
  - now destruct (websocket.Close fault _).
Qed.

Lemma ws_Close_again now t d :
  ws_closed t = true -> websocketTransport_Close fault now t d = (t, None).
Proof. unfold websocketTransport_Close. now intros ->. Qed.

(** [Close] leaves the write-compression switch of the connection alone. *)
Lemma ws_Close_compression now t d :
  websocket.enableWriteCompression (conn (fst (websocketTransport_Close fault now t d)))
  = websocket.enableWriteCompression (conn t).
Proof.
  unfold websocketTransport_Close. destruct (ws_closed t); [reflexivity|].
  destruct d as [d|]; cbn.
  - destruct (json_Marshal d); [|reflexivity].
    unfold websocket.WriteControl.
    now destruct (fault (conn t) websocket.OpWriteControl).
  - reflexivity.
Qed.

Lemma write_payloads_compression now all data : forall t buffered bytesOut,
  websocket.enableWriteCompression
    (conn (fst (fst (fst (write_payloads fault now t all buffered bytesOut data)))))
  = websocket.enableWriteCompression (conn t).
Proof.
  induction data as [|payload rest IH]; intros t buffered bytesOut; [reflexivity|].
  cbn [write_payloads]. unfold websocket.Write.
  destruct (fault (conn t) (websocket.OpWrite payload)); cbv beta iota.
  - rewrite orb_true_r. cbn [fst]. apply ws_Close_compression.
  - rewrite Z.eqb_refl. cbn [negb orb]. apply IH.
Qed.

(** What [write] makes of the compression switch on an open transport:
    the comparison is with the number of payloads. *)
Lemma ws_write_compression now t data :
  ws_closeCh t = false -> 0 < compressionMinSize (opts t) ->
  websocket.enableWriteCompression
    (conn (fst (websocketTransport_write fault now t data)))
  = (compressionMinSize (opts t) <? len data).
Proof.
  intros Hopen Hmin. unfold websocketTransport_write. rewrite Hopen.
  destruct (Z.ltb_spec 0 (compressionMinSize (opts t))); [|lia].
  set (c1 := websocket.EnableWriteCompression (conn t) _).
  set (c2 := if 0 <? writeTimeout (opts t) then _ else c1).
  assert (Hc2 : websocket.enableWriteCompression c2
                = (compressionMinSize (opts t) <? len data)).
  { subst c2. now destruct (0 <? writeTimeout (opts t)). }
  set (t2 := ws_set_conn t c2).
  unfold websocket.NextWriter.
  destruct (fault (conn t2) websocket.OpNextWriter).
  - cbn [fst]. now rewrite ws_Close_compression.
  - pose proof (write_payloads_compression now data data t2 [] 0) as HW.
    destruct (write_payloads fault now t2 data [] 0 data) as [[[t3 buffered] bytesOut] [err|]];
      cbn [fst] in HW.
    + cbn [fst]. now rewrite HW.
    + unfold websocket.CloseWriter.
      destruct (fault (conn t3) websocket.OpCloseWriter); cbn [fst].
      * rewrite ws_Close_compression. cbn. now rewrite HW.
      * cbn. destruct (0 <? writeTimeout (opts t3)); cbn; now rewrite HW.
Qed.

End WebsocketFacts.

(** C5.  With [WebsocketCompressionMinSize] = 2, writing one message of ten
    bytes leaves write compression switched off, and the frame goes out
    uncompressed: [write] compares the threshold with [len(data)], the
    number of payloads of the batch, where the configuration documents a
    limit in bytes. *)
Theorem websocketTransport_write_compression_counts_payloads :
  let t := Demo.transport 2 in
  let message := list_byte_of_string "0123456789" in
  let t' := fst (websocketTransport_write (H := Demo.externals) Demo.reliable 0 t [message]) in
  compressionMinSize (opts t) = 2 /\
  len message = 10 /\
  websocket.enableWriteCompression (conn t) = true /\
  websocket.enableWriteCompression (conn t') = false /\
  websocket.wire (conn t') = [websocket.Data websocket.TextMessage message false].
Proof. vm_compute. repeat split; reflexivity. Qed.

(** *** [WebsocketHandler.ServeHTTP] *)

Lemma pongWait_of_exact (pingInterval : Duration) :
  0 <= pingInterval <= maxInt64 / 10 ->
  pongWait_of pingInterval = pingInterval * 10 / 9.
Proof.
  intros Hp. unfold pongWait_of, wrap64.
  assert (Hmax : maxInt64 / 10 = 922337203685477580) by reflexivity.
  rewrite Hmax in Hp.
  rewrite Z.mod_small by lia.
  rewrite Z.quot_div_nonneg by lia. f_equal. lia.
Qed.

(** C6.  With a positive [ClientPingInterval] the handler sets the read
    deadline of the connection to the current instant plus [pongWait], where
    [pongWait] is [ClientPingInterval * 10 / 9], and installs a pong handler
    that sets the read deadline to the instant of each pong plus [pongWait];
    with [ClientPingInterval] zero it touches neither the read deadline nor
    the pong handler. *)
Theorem ServeHTTP_pong_wait
    (fault : websocket.Conn -> websocket.Op -> option error)
    (s_config : WebsocketConfig) (config : Config)
    (c : websocket.Conn) (format : string) (now : Time) :
  exists served,
    WebsocketHandler_ServeHTTP fault s_config config (Ok c) format now = Some served /\
    let c' := conn (served_transport served) in
    let pongWait := pongWait_of (ClientPingInterval config) in
    (0 < ClientPingInterval config ->
       websocket.readDeadline c' = Some (now + pongWait) /\
       websocket.pongHandler c' = Some (websocket.ResetReadDeadline pongWait) /\
       (forall later,
           websocket.readDeadline (websocket.pong c' later) = Some (later + pongWait) /\
           websocket.pongHandler (websocket.pong c' later) = websocket.pongHandler c') /\
       (ClientPingInterval config <= maxInt64 / 10 ->
          pongWait = ClientPingInterval config * 10 / 9)) /\
    (ClientPingInterval config = 0 ->
       websocket.readDeadline c' = websocket.readDeadline c /\
       websocket.pongHandler c' = websocket.pongHandler c).
Proof.
  unfold WebsocketHandler_ServeHTTP.
  set (setup := if WebsocketCompression s_config then _ else _).
  assert (Hs : websocket.readDeadline (fst setup) = websocket.readDeadline c /\
               websocket.pongHandler (fst setup) = websocket.pongHandler c).
  { subst setup. destruct (WebsocketCompression s_config); [|now split].
    unfold websocket.SetCompressionLevel.
    destruct (fault c _); now split. }
  destruct setup as [c0 log]. cbn [fst] in Hs. destruct Hs as [Hd Hp].
  eexists. split; [reflexivity|]. cbn zeta.
  unfold newWebsocketTransport, addPing. cbn [pingInterval].
  set (c1 := if 0 <? ClientRequestMaxSize config then _ else c0).
  assert (H1 : websocket.readDeadline c1 = websocket.readDeadline c /\
               websocket.pongHandler c1 = websocket.pongHandler c).
  { subst c1. now destruct (0 <? ClientRequestMaxSize config). }
  destruct H1 as [H1d H1p]. split.
  - intros Hpos. destruct (Z.ltb_spec 0 (ClientPingInterval config)); [|lia].
    cbn. split_and!; try reflexivity; [now split|].
    intros Hle. apply pongWait_of_exact. lia.
  - intros Hzero. rewrite Hzero. cbn. now split.
Qed.

(** *** Closing twice *)

Lemma sockjs_Close_closed `{Externals} fault t d :
  sj_closed (fst (sockjsTransport_Close fault t d)) = true.
Proof.
  unfold sockjsTransport_Close. destruct (sj_closed t) eqn:E; [exact E|].
  destruct (json_Marshal _); [|reflexivity].
  now destruct (sockjs.Close fault _ _ _).
Qed.

Lemma sockjs_Close_again `{Externals} fault t d :
  sj_closed t = true -> sockjsTransport_Close fault t d = (t, None).
Proof. unfold sockjsTransport_Close. now intros ->. Qed.

Lemma writer_close_closed w : w_closed (fst (writer_close w)) = true.
Proof. unfold writer_close. now destruct (w_closed w) eqn:E. Qed.

Lemma writer_close_again w : w_closed w = true -> writer_close w = (w, None).
Proof. unfold writer_close. now intros ->. Qed.

(** C10.  [websocketTransport.Close], [sockjsTransport.Close] and
    [writer.close] are idempotent.  The first call on an open object marks
    it closed and does the closing: the websocket transport closes its
    channel, stops its ping timer and, when the disconnect it is given can
    be marshalled, sends it in a close frame with status 3000 (if the
    network lets it) and closes the connection; the SockJS transport closes
    its channel and, when the disconnect can be marshalled and the network
    lets it, closes the session with status 3000 and the marshalled
    disconnect; the writer closes its queue.  Every later call returns
    [nil] and changes nothing. *)
Theorem Close_idempotent `{Externals} :
  (forall fault now t d,
      let t1 := fst (websocketTransport_Close fault now t d) in
      (ws_closed t = false ->
         ws_closed t1 = true /\ ws_closeCh t1 = true /\
         (pingTimer t <> None -> pingTimer t1 = Some TimerStopped) /\
         (d = None -> websocket.conn_closed (conn t1) = true) /\
         (forall d' reason, d = Some d' -> json_Marshal d' = Ok reason ->
            websocket.conn_closed (conn t1) = true /\
            (fault (conn t) websocket.OpWriteControl = None ->
             websocket.wire (conn t1) =
               websocket.wire (conn t)
                 ++ [websocket.Close_ websocketCloseStatus reason (now + Second)]))) /\
      (forall now' d', websocketTransport_Close fault now' t1 d' = (t1, None))) /\
  (forall fault t d,
      let t1 := fst (sockjsTransport_Close fault t d) in
      (sj_closed t = false ->
         sj_closed t1 = true /\ sj_closeCh t1 = true /\
         (forall reason,
            json_Marshal (match d with Some d' => d' | None => DisconnectNormal end)
              = Ok reason ->
            fault (session t) sockjs.OpClose = None ->
            sockjs.closing (session t1) = Some (sockjsCloseStatus, reason))) /\
      (forall d', sockjsTransport_Close fault t1 d' = (t1, None))) /\
  (forall w,
      let w1 := fst (writer_close w) in
      (w_closed w = false ->
         w_closed w1 = true /\ queue.Closed (messages w1) = true /\
         queue.items (messages w1) = queue.items (messages w) /\
         snd (writer_close w) = None) /\
      writer_close w1 = (w1, None)).
Proof.
  split_and!.
  - intros fault now t d t1. split.
    + intros Hopen. subst t1. unfold websocketTransport_Close. rewrite Hopen.
      assert (Htimer : pingTimer t <> None ->
                match pingTimer t with Some _ => Some TimerStopped | None => None end
                = Some TimerStopped)
        by (destruct (pingTimer t); [reflexivity|congruence]).
      destruct d as [d|].
      * destruct (json_Marshal d) as [reason|err] eqn:EM.
        -- unfold websocket.WriteControl. cbn [conn].
           destruct (fault (conn t) websocket.OpWriteControl) eqn:EF; cbn;
             split_and!; auto; try discriminate;
             intros d' reason' [= <-]; rewrite EM; intros [= <-];
             (split; [reflexivity|]); [discriminate|reflexivity].
        -- cbn. split_and!; auto; try discriminate.
           intros d' reason' [= <-]. rewrite EM. discriminate.
      * cbn. split_and!; auto. discriminate.
    + intros now' d'. apply ws_Close_again, ws_Close_closed.
  - intros fault t d t1. split.
    + intros Hopen. subst t1. unfold sockjsTransport_Close. rewrite Hopen.
      destruct (json_Marshal _) as [reason|err] eqn:EM.
      * unfold sockjs.Close. cbn [session].
        destruct (fault (session t) sockjs.OpClose) eqn:EF; cbn;
          split_and!; auto; intros reason' [= <-]; [discriminate|reflexivity].
      * cbn. split_and!; auto. discriminate.
    + intros d'. apply sockjs_Close_again, sockjs_Close_closed.
  - intros w w1. split.
    + intros Hopen. subst w1. unfold writer_close. rewrite Hopen. now split_and!.
    + apply writer_close_again, writer_close_closed.
Qed.

(** *** [handleClientData]: the empty frame *)

(** C9.  Given an empty frame, [handleClientData] closes the transport with
    a disconnect whose reason is the text of [proto.ErrBadRequest] and whose
    [Reconnect] is [false], and returns [false]; it logs the event and does
    nothing else: no command is decoded, none is handled, nothing is
    written.  The websocket and the SockJS transport are closed afterwards. *)
Theorem handleClientData_empty_frame `{Externals} `{Codec} :
  (forall (C T : Type) (HC : Client C T) (HT : Transport T)
          (now : Time) (c : C) (t : T) (w : writer),
      let bad := Some {| proto.Reason := ErrBadRequest_Error;
                         proto.Reconnect := false |} in
      let r := handleClientData now (world c t w) [] in
      fst r = false /\
      w_events (snd r) =
        [EvLog LogLevelError "empty client request received"; EvTransportClose bad] /\
      w_transport (snd r) = fst (Transport_Close now t bad) /\
      w_client (snd r) = c /\ w_writer (snd r) = w /\
      decoded (w_events (snd r)) = [] /\ handled (w_events (snd r)) = [] /\
      written (w_events (snd r)) = []) /\
  (forall (C : Type) fault (HC : Client C websocketTransport) now c t w,
      ws_closed (w_transport (snd (handleClientData (HT :=
        websocketTransport_Transport fault) now (world c t w) []))) = true) /\
  (forall (C : Type) fault (HC : Client C sockjsTransport) now c t w,
      sj_closed (w_transport (snd (handleClientData (HT :=
        sockjsTransport_Transport fault) now (world c t w) []))) = true).
Proof.
  split; [|split].
  - intros. now repeat split.
  - intros. cbn. apply ws_Close_closed.
  - intros. cbn. apply sockjs_Close_closed.
Qed.

(** *** Admin tokens *)

Lemma checkSecureAdminToken_spec `{SecureCookie} (secret token : string) :
  checkSecureAdminToken secret token = true <->
  securecookie_Decode secret secureAdminTokenKey token = Ok secureAdminTokenValue.
Proof.
  unfold checkSecureAdminToken.
  destruct (securecookie_Decode secret secureAdminTokenKey token) as [val|err].
  - destruct (String.eqb_spec val secureAdminTokenValue) as [->|Hne]; cbn.
    + tauto.
    + split; [discriminate|]. intros [= E]. contradiction.
  - split; discriminate.
Qed.

Lemma append_assoc (a b c : string) : ((a ++ b) ++ c = a ++ (b ++ c))%string.
Proof.
  induction a as [|x a IH]; [reflexivity|].
  change (String x ((a ++ b) ++ c) = String x (a ++ (b ++ c)))%string.
  now rewrite IH.
Qed.

Lemma substring_all (v : string) : String.substring 0 (String.length v) v = v.
Proof. induction v as [|a v IH]; cbn; [reflexivity|]. now rewrite IH. Qed.

Lemma prefix_append (p v : string) : String.prefix p (p ++ v)%string = true.
Proof.
  induction p as [|a p IH]; [now destruct v|].
  change (String.prefix (String a p) (String a (p ++ v)) = true).
  cbn [String.prefix]. destruct (Ascii.ascii_dec a a); [exact IH|contradiction].
Qed.

Lemma substring_append (p v : string) :
  String.substring (String.length p)
    (String.length (p ++ v)%string - String.length p) (p ++ v)%string = v.
Proof.
  induction p as [|a p IH].
  - change (String.substring 0 (String.length v - 0) v = v).
    rewrite Nat.sub_0_r. apply substring_all.
  - exact IH.
Qed.

Lemma plain_cookie_round_trip key name value token :
  @securecookie_Encode Demo.plain_cookie key name value = Ok token ->
  @securecookie_Decode Demo.plain_cookie key name token = Ok value.
Proof.
  assert (Hassoc : (key ++ "|" ++ name ++ "|" ++ value
                    = (key ++ "|" ++ name ++ "|") ++ value)%string)
    by now rewrite !append_assoc.
  unfold securecookie_Encode, securecookie_Decode, Demo.plain_cookie.
  destruct (String.eqb key ""); [discriminate|]. intros [= <-].
  rewrite Hassoc. now rewrite prefix_append, substring_append.
Qed.

(** *** [handleClientData]: the loop over the commands of a frame *)

Section HandleFacts.

Context {HE : Externals} {HK : Codec}.
Context {C T : Type} {HC : Client C T} {HT : Transport T}.

Abbreviation World := (@World C T).

Lemma handled_app (a b : list Event) : handled (a ++ b) = handled a ++ handled b.
Proof. apply omap_app. Qed.

Lemma written_app (a b : list Event) : written (a ++ b) = written a ++ written b.
Proof. apply omap_app. Qed.

Lemma closes_app (a b : list Event) : closes (a ++ b) = closes a ++ closes b.
Proof. apply omap_app. Qed.


Ltac events :=
  cbn [w_events w_writer w_transport w_client emit transport_Close put_codecs fst snd];
  rewrite <- ?app_assoc; cbn [app].

Ltac no_such_event :=
  let H := fresh in
  intros ? H; cbn in H; exfalso;
  repeat (destruct H as [H|H]; [discriminate H|]); exact H.

Ltac use_IH IH :=
  match goal with
  | |- context [handleLoop ?now ?rest ?final ?W1 ?e1] =>
      destruct (IH W1 e1) as (new & Hev & Hw & Hwr & [rest' Hh] & Hbad & Hgood);
      cbn [w_events w_writer w_transport w_client emit e_enc buffer]
        in Hev, Hw, Hbad, Hgood;
      rewrite <- ?app_assoc in Hev; cbn [app] in Hev
  end.

Lemma handleLoop_spec now final cmds : forall (W : World) encoder,
  exists new,
    loop_ok now cmds final W encoder
      (fst (handleLoop now cmds final W encoder))
      (snd (handleLoop now cmds final W encoder)) new.
Proof.
  induction cmds as [|cmd rest IH]; intros W encoder; cbn [handleLoop].
  - destruct final as [|err].
    + exists [EvDecode (inr EOF)]. unfold loop_ok. events. split_and!; auto.
      * now exists [].
      * no_such_event.
      * intros encoder' [= <-]. split_and!; auto.
        cbn. now rewrite app_nil_r.
    + eexists. unfold loop_ok. events. split_and!; [reflexivity|..]; auto.
      * now exists [].
      * intros err' _. split_and!; auto. cbn. auto.
      * discriminate.
  - destruct (Z.eqb_spec (proto.ID cmd) 0) as [Hzero|Hid].
    + unfold client_Close. events.
      destruct (Client_Close now (w_client W) (w_transport W) _) as [c t].
      eexists. unfold loop_ok. events. split_and!; [reflexivity|..]; auto.
      * now exists (cmd :: rest).
      * no_such_event.
      * discriminate.
    + events.
      destruct (Client_Handle (w_client W) cmd) as [[c rep] disconnect] eqn:EH.
      destruct disconnect as [d|].
      * eexists. unfold loop_ok. events. split_and!; [reflexivity|..]; auto.
        -- now exists rest.
        -- no_such_event.
        -- discriminate.
      * destruct rep as [rep|].
        -- unfold Encode.
           destruct (marshalReply (e_enc encoder) rep) as [b|err] eqn:EM.
           ++ use_IH IH.
              exists ([EvDecode (inl cmd); EvHandle cmd; EvEncode rep] ++ new).
              unfold loop_ok. split_and!.
              ** rewrite Hev. reflexivity.
              ** exact Hw.
              ** rewrite written_app, Hwr. reflexivity.
              ** exists rest'. rewrite handled_app, <- app_assoc, <- Hh. reflexivity.
              ** intros err Hin. apply in_app_or in Hin as [Hin|Hin];
                   [revert err Hin; no_such_event|].
                 destruct (Hbad err Hin) as (Hr & Hc & Hi & Ht).
                 rewrite closes_app, Hc. split_and!; auto.
                 apply in_or_app. now right.
              ** intros encoder' Hres.
                 destruct (Hgood encoder' Hres) as (Hh' & Hc & Ht & He & Hb & Hf).
                 cbn [exchange w_client]. rewrite EH.
                 rewrite closes_app, Hc, handled_app, Hh', Hb, <- app_assoc.
                 split_and!; auto.
                 --- f_equal. unfold frame_of. cbn [map concat].
                     unfold chunk at 2. cbn [snd]. now rewrite EM.
                 --- constructor; [|exact Hf]. intros rep' [= <-]. eauto.
           ++ eexists. unfold loop_ok. events. split_and!; [reflexivity|..]; auto.
              ** now exists rest.
              ** no_such_event.
              ** discriminate.
        -- use_IH IH.
           exists ([EvDecode (inl cmd); EvHandle cmd] ++ new).
           unfold loop_ok. split_and!.
           ** rewrite Hev. reflexivity.
           ** exact Hw.
           ** rewrite written_app, Hwr. reflexivity.
           ** exists rest'. rewrite handled_app, <- app_assoc, <- Hh. reflexivity.
           ** intros err Hin. apply in_app_or in Hin as [Hin|Hin];
                [revert err Hin; no_such_event|].
              destruct (Hbad err Hin) as (Hr & Hc & Hi & Ht).
              rewrite closes_app, Hc. split_and!; auto.
              apply in_or_app. now right.
           ** intros encoder' Hres.
              destruct (Hgood encoder' Hres) as (Hh' & Hc & Ht & He & Hb & Hf).
              cbn [exchange w_client]. rewrite EH.
              rewrite closes_app, Hc, handled_app, Hh', Hb.
              split_and!; auto.
              constructor; [|exact Hf]. intros rep' [=].
Qed.

Lemma written_write frame (evs : list Event) :
  written (EvWrite frame :: evs) = frame :: written evs.
Proof. reflexivity. Qed.


(** The outcome of [handleClientData] on a frame that is not empty. *)
Lemma handleClientData_cases now (c : C) (t : T) (w : writer) (data : bytes) :
  (len data =? 0) = false ->
  let enc := Transport_Encoding t in
  let cmds := pending (GetCommandDecoder enc data) in
  let r := handleClientData now (world c t w) data in
  exists new,
    written new = [] /\
    (exists rest, cmds = handled new ++ rest) /\
    ((fst r = false /\ w_events (snd r) = new /\ w_writer (snd r) = w /\
      fst (handleLoop now cmds (final (GetCommandDecoder enc data))
             (world c t w) (GetReplyEncoder enc)) = None /\
      forall err, In (EvDecode (inr (Malformed err))) new ->
        closes new = [Some DisconnectBadRequest] /\
        In (EvTransportClose (Some DisconnectBadRequest)) new /\
        w_transport (snd r) = fst (Transport_Close now t (Some DisconnectBadRequest)))
     \/
     (exists tail,
        w_events (snd r) = new ++ EvWrite (frame_of enc (exchange c cmds)) :: tail /\
        written tail = [] /\ handled tail = [] /\
        handled new = cmds /\
        (forall err, ~ In (EvDecode (inr (Malformed err))) (new ++ tail)) /\
        w_writer (snd r) = fst (writer_write w (frame_of enc (exchange c cmds))) /\
        Forall (fun x => forall rep, snd x = Some rep ->
                  exists b, marshalReply enc rep = Ok b)
               (exchange c cmds))).
Proof.
  intros Hlen enc cmds r. subst r. unfold handleClientData. rewrite Hlen.
  cbn [world w_transport w_writer].
  destruct (handleLoop_spec now (final (GetCommandDecoder enc data)) cmds
              (world c t w) (GetReplyEncoder enc))
    as (new & Hev & Hw & Hwr & Hpre & Hbad & Hgood).
  fold enc. fold cmds. exists new.
  destruct (handleLoop now cmds _ (world c t w) (GetReplyEncoder enc))
    as [[encoder|] W'] eqn:EL; cbn [fst snd] in *.
  - destruct (Hgood encoder eq_refl) as (Hh & Hc & Ht & He & Hb & Hf).
    cbn in Hb, Hf, Hev, Hw. split_and!; auto. right.
    assert (Hfin : Finish encoder = frame_of enc (exchange c cmds)) by exact Hb.
    assert (Hno : forall tail, (forall err, ~ In (EvDecode (inr (Malformed err))) tail) ->
               forall err, ~ In (EvDecode (inr (Malformed err))) (new ++ tail)).
    { intros tail Ht' err Hin. apply in_app_or in Hin as [Hin|Hin].
      - now destruct (Hbad err Hin).
      - exact (Ht' err Hin). }
    rewrite Hfin, Hw.
    destruct (writer_write w (frame_of enc (exchange c cmds))) as [w' [d|]];
      eexists; (split; [cbn; rewrite Hev, <- ?app_assoc; reflexivity|]);
      split_and!; auto; apply Hno; intros err Hin; cbn in Hin;
      repeat (destruct Hin as [Hin|Hin]; [discriminate Hin|]); exact Hin.
  - split_and!; auto. left. split_and!; auto.
    intros err Hin. destruct (Hbad err Hin) as (_ & Hc & Hi & Ht). auto.
Qed.

Lemma encoded_app (a b : list Event) : encoded (a ++ b) = encoded a ++ encoded b.
Proof. apply omap_app. Qed.

(** A run of the loop, from any state: what it hands to the client and to
    the encoder, and that it is left by [break] exactly when the decoder
    ends with [io.EOF] and no command stops it. *)
Lemma handleLoop_run now final cmds : forall (W : World) encoder,
  let enc := e_enc encoder in
  let r := handleLoop now cmds final W encoder in
  exists new,
    w_events (snd r) = w_events W ++ new /\
    w_writer (snd r) = w_writer W /\
    written new = [] /\
    (exists rest, cmds = handled new ++ rest) /\
    (exists rest, replies (exchange (w_client W) cmds) = encoded new ++ rest) /\
    match fst r with
    | Some encoder' =>
        final = EOF /\ smooth enc (w_client W) cmds = true /\
        handled new = cmds /\
        encoded new = replies (exchange (w_client W) cmds) /\
        w_transport (snd r) = w_transport W /\
        w_client (snd r) = client_after (w_client W) cmds /\
        buffer encoder' = buffer encoder ++ frame_of enc (exchange (w_client W) cmds)
    | None =>
        match final with
        | EOF => smooth enc (w_client W) cmds
        | Malformed _ => false
        end = false
    end.
Proof.
  induction cmds as [|cmd rest IH]; intros W encoder; cbn [handleLoop].
  - destruct final as [|err].
    + exists [EvDecode (inr EOF)]. events. split_and!; auto; try (now exists []).
      cbn. now rewrite app_nil_r.
    + eexists. events. split_and!; [reflexivity|..]; auto; now exists [].
  - cbv zeta. cbn [smooth exchange client_after].
    destruct (Z.eqb_spec (proto.ID cmd) 0) as [Hzero|Hid].
    + unfold client_Close. events.
      destruct (Client_Close now (w_client W) (w_transport W) _) as [c t].
      eexists. events. split_and!; [reflexivity|..]; auto.
      * now exists (cmd :: rest).
      * cbn. eauto.
      * now destruct final.
    + events.
      destruct (Client_Handle (w_client W) cmd) as [[c rep] disconnect] eqn:EH.
      cbn [fst negb andb].
      destruct disconnect as [d|].
      * eexists. events. split_and!; [reflexivity|..]; auto.
        -- now exists rest.
        -- cbn. eauto.
        -- destruct final; [|reflexivity]. now destruct rep.
      * destruct rep as [rep|].
        -- unfold Encode.
           destruct (marshalReply (e_enc encoder) rep) as [b|err] eqn:EM.
           ++ match goal with
              | |- context [handleLoop now rest final ?W1 ?e1] =>
                  destruct (IH W1 e1)
                    as (new & Hev & Hw & Hwr & [rest1 Hh] & [rest2 He] & Hres)
              end.
              cbn [w_events w_writer w_transport w_client emit e_enc buffer]
                in Hev, Hw, Hh, He, Hres.
              rewrite <- ?app_assoc in Hev. cbn [app] in Hev.
              exists ([EvDecode (inl cmd); EvHandle cmd; EvEncode rep] ++ new).
              rewrite handled_app, encoded_app, written_app, Hwr.
              split_and!; auto.
              ** exists rest1. cbn. now rewrite <- Hh.
              ** exists rest2. unfold replies in *. cbn. now rewrite He.
              ** destruct (fst (handleLoop now rest final _ _)) as [encoder'|];
                   [|exact Hres].
                 destruct Hres as (Hf & Hs & Hh' & He' & Ht & Hc & Hb).
                 rewrite Hh', He', Hb, <- app_assoc. unfold replies, frame_of.
                 cbn [omap map concat snd]. unfold chunk at 2. cbn [snd].
                 rewrite EM. now split_and!.
           ++ eexists. events. split_and!; [reflexivity|..]; auto.
              ** now exists rest.
              ** unfold replies. cbn. eauto.
              ** now destruct final.
        -- match goal with
           | |- context [handleLoop now rest final ?W1 ?e1] =>
               destruct (IH W1 e1)
                 as (new & Hev & Hw & Hwr & [rest1 Hh] & [rest2 He] & Hres)
           end.
           cbn [w_events w_writer w_transport w_client emit e_enc buffer]
             in Hev, Hw, Hh, He, Hres.
           rewrite <- ?app_assoc in Hev. cbn [app] in Hev.
           exists ([EvDecode (inl cmd); EvHandle cmd] ++ new).
           rewrite handled_app, encoded_app, written_app, Hwr.
           split_and!; auto.
           ** exists rest1. cbn. now rewrite <- Hh.
           ** exists rest2. unfold replies in *. cbn. exact He.
           ** destruct (fst (handleLoop now rest final _ _)) as [encoder'|];
                [|exact Hres].
              destruct Hres as (Hf & Hs & Hh' & He' & Ht & Hc & Hb).
              rewrite Hh', He', Hb. unfold replies, frame_of.
              cbn [omap map concat snd]. unfold chunk at 2. cbn [snd app].
              now split_and!.
Qed.



(** The outcome of [handleClientData], from any state: what it hands to the
    client, to the encoder and to the writer, by whether the frame passes. *)
Lemma handleClientData_outcome now (W : World) (data : bytes) :
  let enc := Transport_Encoding (w_transport W) in
  let cmds := pending (GetCommandDecoder enc data) in
  let frame := frame_of enc (exchange (w_client W) cmds) in
  let r := handleClientData now W data in
  exists new,
    w_events (snd r) = w_events W ++ new /\
    (exists rest, cmds = handled new ++ rest) /\
    (exists rest, replies (exchange (w_client W) cmds) = encoded new ++ rest) /\
    if passes enc (w_client W) data
    then
      (exists before after,
          new = before ++ EvWrite frame :: after /\
          handled before = cmds /\
          encoded before = replies (exchange (w_client W) cmds) /\
          written before = [] /\
          handled after = [] /\ encoded after = [] /\ written after = []) /\
      w_writer (snd r) = fst (writer_write (w_writer W) frame) /\
      fst r = match snd (writer_write (w_writer W) frame) with
              | Some _ => false
              | None => true
              end /\
      (fst r = true ->
       w_transport (snd r) = w_transport W /\
       w_client (snd r) = client_after (w_client W) cmds)
    else written new = [] /\ w_writer (snd r) = w_writer W /\ fst r = false.
Proof.
  intros enc cmds frame r. subst r. unfold handleClientData, passes.
  destruct (len data =? 0).
  - cbn [negb andb fst snd w_events w_writer emit transport_Close].
    eexists. rewrite <- app_assoc. split; [reflexivity|].
    split_and!; auto; cbn; [now exists cmds|eauto].
  - cbn [negb andb]. fold enc. fold cmds.
    destruct (handleLoop_run now (final (GetCommandDecoder enc data)) cmds W
                (GetReplyEncoder enc))
      as (new & Hev & Hw & Hwr & Hh & He & Hres).
    cbn [GetReplyEncoder e_enc buffer app] in Hres.
    change {| e_enc := enc; buffer := [] |} with (GetReplyEncoder enc) in Hres.
    destruct (handleLoop now cmds _ W (GetReplyEncoder enc)) as [[encoder|] W'];
      cbn [fst snd] in *.
    + destruct Hres as (-> & -> & Hh' & He' & Ht & Hc & Hb).
      unfold Finish. rewrite Hb. fold frame. rewrite Hw.
      destruct (writer_write (w_writer W) frame) as [w' [d|]];
        cbn [fst snd w_events w_writer w_client w_transport emit put_codecs
               transport_Close];
        eexists; (split; [rewrite Hev, <- !app_assoc; reflexivity|]).
      all: rewrite !handled_app, !encoded_app.
      all: cbn [handled encoded omap app].
      all: rewrite Hh', He', !app_nil_r.
      all: (split; [exists []; now rewrite app_nil_r|]).
      all: (split; [exists []; now rewrite app_nil_r|]).
      all: split_and!; try reflexivity; try discriminate; try (intros _; now split).
      all: eexists new, _; (split; [reflexivity|]); now split_and!.
    + exists new. rewrite Hres. now split_and!.
Qed.


(** C3, as the code has it.  When a call of the decoder fails with an
    error other than end of input, [handleClientData] closes the transport
    with [proto.DisconnectBadRequest], which is the only close it does,
    and returns [false]; it writes nothing, so no reply reaches the
    client, and the writer is as it was. *)
Theorem handleClientData_malformed_frame
    now (c : C) (t : T) (w : writer) (data : bytes) (err : error) :
  let r := handleClientData now (world c t w) data in
  In (EvDecode (inr (Malformed err))) (w_events (snd r)) ->
  fst r = false /\
  written (w_events (snd r)) = [] /\
  w_writer (snd r) = w /\
  closes (w_events (snd r)) = [Some DisconnectBadRequest] /\
  In (EvTransportClose (Some DisconnectBadRequest)) (w_events (snd r)) /\
  w_transport (snd r) = fst (Transport_Close now t (Some DisconnectBadRequest)).
Proof.
  intros r Hin.
  destruct (len data =? 0) eqn:Hlen.
  { subst r. unfold handleClientData in Hin. rewrite Hlen in Hin. cbn in Hin.
    destruct Hin as [H|[H|[]]]; discriminate H. }
  destruct (handleClientData_cases now c t w data Hlen)
    as (new & Hwr & Hpre & [(Hf & Hev & Hw & _ & Hbad)|(tail & Hev & _ & _ & _ & Hno & _)]);
    fold r in Hev; try fold r in Hf, Hw, Hbad.
  - rewrite Hev in *. destruct (Hbad err Hin) as (Hc & Hi & Ht).
    split_and!; assumption.
  - exfalso. rewrite Hev in Hin. apply (Hno err).
    apply in_app_or in Hin as [Hin|[Hin|Hin]].
    + apply in_or_app. now left.
    + discriminate Hin.
    + apply in_or_app. now right.
Qed.

End HandleFacts.

(** *** Presence with user mapping *)

Section PresenceFacts.

Import presence.

Implicit Types (m : gmap string ClientInfo) (pm : gmap string Channel).
Implicit Types (u c ch : string).


















End PresenceFacts.

(** *** The theorems at work *)

Example write_routine_run :
  writer_runWriteRoutine (fun (t : unit) _ => (t, None)) 10
    (start Demo.six_waiting Demo.producers tt)
  = (Returned,
     {| r_writer := {| config := {| MaxQueueSize := 1024 |};
                       messages := {| queue.items := []; queue.closed := true |};
                       w_closed := true |};
        r_env := []; r_transport := tt;
        r_written :=
          [([Demo.text "1"; Demo.text "2"; Demo.text "3"; Demo.text "4"], None);
           ([Demo.text "5"; Demo.text "6"; Demo.text "7"], None)] |}).
Proof. reflexivity. Qed.

Example presence_test_stats :
  presence.PresenceStats (presence.calls ∅ Demo.test_calls) "channel"
  = {| presence.NumClients := 2; presence.NumUsers := 2 |}.
Proof. vm_compute. reflexivity. Qed.

Lemma writer_write_slow_iff_witness :
  snd (writer_write (Demo.a_writer 4) (Demo.text "hello"))
  = Some {| proto.Reason := "slow"; proto.Reconnect := true |}.
Proof.
  pose proof (writer_write_slow_iff (Demo.a_writer 4) (Demo.text "hello")) as H.
  cbv zeta in H. destruct H as (_ & _ & [_ H] & _). apply H.
  split; [reflexivity|]. vm_compute. reflexivity.
Defined.

Lemma runWriteRoutine_batches_witness :
  let s' := snd (writer_runWriteRoutine Demo.second_fails 10
                   (start Demo.six_waiting Demo.producers 0%nat)) in
  Forall (fun call => 1 <= len (fst call) <= 4) (r_written s') /\
  r_written s' =
    [([Demo.text "1"; Demo.text "2"; Demo.text "3"; Demo.text "4"], None);
     ([Demo.text "5"; Demo.text "6"; Demo.text "7"], Some "broken pipe"%string)].
Proof.
  pose proof (runWriteRoutine_batches Demo.second_fails 10
                Demo.six_waiting Demo.producers 0%nat) as H.
  cbv zeta in H. destruct H as (H & _). split; [exact H|reflexivity].
Defined.

Lemma ServeHTTP_pong_wait_witness :
  exists served,
    WebsocketHandler_ServeHTTP Demo.reliable Demo.ws_config
      (Demo.node_config (25 * Second)) (Ok Demo.fresh_conn) "" 1000 = Some served /\
    websocket.readDeadline (conn (served_transport served)) = Some (1000 + 27777777777) /\
    websocket.readDeadline (websocket.pong (conn (served_transport served)) 5000)
      = Some (5000 + 27777777777).
Proof.
  destruct (ServeHTTP_pong_wait Demo.reliable Demo.ws_config
              (Demo.node_config (25 * Second)) Demo.fresh_conn "" 1000)
    as (served & Hserved & Hpos & _).
  exists served. split; [exact Hserved|].
  destruct Hpos as (Hd & _ & Hp & _); [vm_compute; reflexivity|].
  split; [exact Hd|apply Hp].
Defined.

Lemma Close_idempotent_witness :
  let t1 := fst (websocketTransport_Close (H := Demo.externals) Demo.reliable 7
                   (Demo.transport 0) None) in
  ws_closed t1 = true /\
  websocketTransport_Close (H := Demo.externals) Demo.reliable 9 t1
    (Some (@DisconnectNormal Demo.externals)) = (t1, None).
Proof.
  destruct (@Close_idempotent Demo.externals) as (Hws & _).
  pose proof (Hws Demo.reliable 7 (Demo.transport 0) None) as H.
  cbv zeta in H. destruct H as [Hfirst Hagain].
  destruct Hfirst as (Hc & _); [reflexivity|].
  split; [exact Hc|apply Hagain].
Defined.




(** C3, as the spec has it, fails.  The frame ["a!"] holds a command and
    then a byte the decoder cannot read: the decoder fails with an error
    that is not end of input, and the connection is not kept, nor does any
    reply reach the writer: the transport and its connection are closed,
    nothing is written, the queue is empty, the function returns [false]. *)
Lemma malformed_frame_is_not_answered :
  let r := Demo.handle (Demo.text "a!") in
  decoded (w_events (snd r)) =
    [inl {| proto.ID := 97; proto.Method := 0; proto.Params := Demo.text "a" |};
     inr (Malformed "unexpected character")] /\
  ~ (written (w_events (snd r)) <> [] /\ ws_closed (w_transport (snd r)) = false) /\
  fst r = false /\
  written (w_events (snd r)) = [] /\
  queue.items (messages (w_writer (snd r))) = [] /\
  ws_closed (w_transport (snd r)) = true /\
  websocket.conn_closed (conn (w_transport (snd r))) = true.
Proof.
  vm_compute. split_and!; try reflexivity. intros [_ H]. discriminate H.
Qed.

Lemma handleClientData_malformed_frame_witness :
  let r := Demo.handle (Demo.text "a!") in
  fst r = false /\
  written (w_events (snd r)) = [] /\
  w_writer (snd r) = Demo.a_writer 1024 /\
  closes (w_events (snd r)) = [Some (@DisconnectBadRequest Demo.externals)] /\
  In (EvTransportClose (Some (@DisconnectBadRequest Demo.externals))) (w_events (snd r)) /\
  w_transport (snd r) =
    fst (@Transport_Close _ Demo.ws 0 (Demo.transport 0)
           (Some (@DisconnectBadRequest Demo.externals))).
Proof.
  apply (@handleClientData_malformed_frame Demo.externals Demo.codec nat
           websocketTransport (@Demo.client _ Demo.ws) Demo.ws
           0 0%nat (Demo.transport 0) (Demo.a_writer 1024) (Demo.text "a!")
           "unexpected character").
  vm_compute. auto 20.
Defined.



(** Scenario S8 of the spec: a queue limit of 1 KiB and a frame of 10 KiB. *)
Example slow_consumer :
  snd (writer_write (Demo.a_writer 1024) (repeat "x"%byte (10 * 1024)%nat))
  = Some {| proto.Reason := "slow"; proto.Reconnect := true |}.
Proof. vm_compute. reflexivity. Qed.

(** [TestRedisPresenceManagerWithUserMapping], to its end. *)
Example presence_test_to_the_end :
  let stats ks := presence.PresenceStats (presence.calls ∅ ks) "channel" in
  stats (firstn 2 Demo.test_calls)
    = {| presence.NumClients := 1; presence.NumUsers := 1 |} /\
  stats (firstn 3 Demo.test_calls)
    = {| presence.NumClients := 2; presence.NumUsers := 1 |} /\
  stats (firstn 4 Demo.test_calls)
    = {| presence.NumClients := 3; presence.NumUsers := 2 |} /\
  stats Demo.test_calls
    = {| presence.NumClients := 2; presence.NumUsers := 2 |} /\
  stats (Demo.test_calls ++ [presence.Remove "channel" "uid-2" "1"])
    = {| presence.NumClients := 1; presence.NumUsers := 1 |} /\
  stats (Demo.test_calls ++ [presence.Remove "channel" "uid-2" "1";
                             presence.Remove "channel" "uid-3" "2"])
    = {| presence.NumClients := 0; presence.NumUsers := 0 |}.
Proof. vm_compute. repeat split; reflexivity. Qed.

(** ** Part III: further properties of the handlers *)

(** *** [handleClientData]: the ways it gives up *)

Section GiveUp.

Context {HE : Externals} {HK : Codec}.
Context {C T : Type} {HC : Client C T} {HT : Transport T}.

Abbreviation World := (@World C T).

(** Commands that do not stop the loop are passed over: the client has
    handled them, their replies are in the encoder, nothing else changed. *)
Lemma handleLoop_pass now final before after : forall (W : World) encoder,
  smooth (e_enc encoder) (w_client W) before = true ->
  exists (W1 : World) encoder1 new,
    handleLoop now (before ++ after) final W encoder
      = handleLoop now after final W1 encoder1 /\
    w_client W1 = client_after (w_client W) before /\
    w_transport W1 = w_transport W /\ w_writer W1 = w_writer W /\
    w_events W1 = w_events W ++ new /\
    handled new = before /\ written new = [] /\ closes new = [] /\
    e_enc encoder1 = e_enc encoder.
Proof.
  induction before as [|cmd before IH]; intros W encoder Hs.
  - exists W, encoder, []. rewrite app_nil_r. now split_and!.
  - cbn [smooth] in Hs. apply andb_prop in Hs as [Hid Hs].
    cbn [app handleLoop client_after]. destruct (proto.ID cmd =? 0); [discriminate Hid|].
    cbn [w_client emit].
    destruct (Client_Handle (w_client W) cmd) as [[c [rep|]] [d|]] eqn:EH;
      try discriminate Hs; cbn [fst].
    + unfold Encode.
      destruct (marshalReply (e_enc encoder) rep) as [b|] eqn:EM; [|discriminate Hs].
      match goal with
      | |- context [handleLoop now (before ++ after) final ?W1 ?e1] =>
          destruct (IH W1 e1 Hs) as (W2 & e2 & new & Heq & Hc & Ht & Hw & Hev & Hh & Hwr & Hcl & He)
      end.
      cbn [w_client w_transport w_writer w_events emit e_enc] in *.
      exists W2, e2, ([EvDecode (inl cmd); EvHandle cmd; EvEncode rep] ++ new).
      rewrite Heq, Hev, handled_app, written_app, closes_app, Hh, Hwr, Hcl.
      split_and!; auto. now rewrite <- !app_assoc.
    + match goal with
      | |- context [handleLoop now (before ++ after) final ?W1 ?e1] =>
          destruct (IH W1 e1 Hs) as (W2 & e2 & new & Heq & Hc & Ht & Hw & Hev & Hh & Hwr & Hcl & He)
      end.
      cbn [w_client w_transport w_writer w_events emit e_enc] in *.
      exists W2, e2, ([EvDecode (inl cmd); EvHandle cmd] ++ new).
      rewrite Heq, Hev, handled_app, written_app, closes_app, Hh, Hwr, Hcl.
      split_and!; auto. now rewrite <- !app_assoc.
Qed.


Lemma len_nonempty (data : bytes) : data <> [] -> (len data =? 0) = false.
Proof.
  intros Hd. destruct data; [contradiction|]. unfold len. cbn [length].
  apply Z.eqb_neq. lia.
Qed.

Ltac pass_over now final before after c t w enc Hs :=
  destruct (handleLoop_pass now final before after (world c t w) (GetReplyEncoder enc) Hs)
    as (W1 & e1 & new & Heq & Hc1 & Ht1 & Hw1 & Hev1 & Hh1 & Hwr1 & Hcl1 & He1);
  cbn [world w_client w_transport w_writer w_events app] in Hc1, Ht1, Hw1, Hev1.

(** X1.  A command without ID ends the frame: the commands before it were
    handled, it is not; [handleClientData] calls [c.Close] with
    [proto.DisconnectBadRequest], which is its only close, writes nothing
    and returns [false]. *)
Theorem handleClientData_command_without_id
    now (c : C) (t : T) (w : writer) (data : bytes) before cmd after :
  let enc := Transport_Encoding t in
  data <> [] ->
  pending (GetCommandDecoder enc data) = before ++ cmd :: after ->
  smooth enc c before = true ->
  proto.ID cmd = 0 ->
  let r := handleClientData now (world c t w) data in
  fst r = false /\
  handled (w_events (snd r)) = before /\
  written (w_events (snd r)) = [] /\
  w_writer (snd r) = w /\
  closes (w_events (snd r)) = [Some DisconnectBadRequest] /\
  In (EvClientClose (Some DisconnectBadRequest)) (w_events (snd r)) /\
  (w_client (snd r), w_transport (snd r))
    = Client_Close now (client_after c before) t (Some DisconnectBadRequest).
Proof.
  intros enc Hdata Hcmds Hs Hid r. subst r. unfold handleClientData.
  rewrite (len_nonempty data Hdata). cbn [world w_transport w_writer]. fold enc.
  rewrite Hcmds. pass_over now (final (GetCommandDecoder enc data)) before (cmd :: after) c t w enc Hs.
  rewrite Heq. cbn [handleLoop]. rewrite Hid. cbn [Z.eqb].
  unfold client_Close. cbn [w_client w_transport w_writer w_events emit put_codecs].
  rewrite Hc1, Ht1, Hw1, Hev1.
  destruct (Client_Close now (client_after c before) t (Some DisconnectBadRequest))
    as [c' t'].
  cbn [fst snd w_client w_transport w_writer w_events put_codecs emit].
  rewrite !handled_app, !written_app, !closes_app, Hh1, Hwr1, Hcl1. cbn.
  rewrite !app_nil_r. split_and!; try reflexivity.
  rewrite !in_app_iff. cbn. auto 10.
Qed.


(** X2.  A command that [c.Handle] answers with a disconnect ends the frame:
    [handleClientData] closes the transport with that disconnect, which is
    its only close, writes nothing (the replies to the commands before are
    dropped) and returns [false]; the commands after it are not handled. *)
Theorem handleClientData_disconnect_from_Handle
    now (c : C) (t : T) (w : writer) (data : bytes) before cmd after c' rep d :
  let enc := Transport_Encoding t in
  data <> [] ->
  pending (GetCommandDecoder enc data) = before ++ cmd :: after ->
  smooth enc c before = true ->
  proto.ID cmd <> 0 ->
  Client_Handle (client_after c before) cmd = (c', rep, Some d) ->
  let r := handleClientData now (world c t w) data in
  fst r = false /\
  handled (w_events (snd r)) = before ++ [cmd] /\
  written (w_events (snd r)) = [] /\
  w_writer (snd r) = w /\
  closes (w_events (snd r)) = [Some d] /\
  In (EvTransportClose (Some d)) (w_events (snd r)) /\
  w_client (snd r) = c' /\
  w_transport (snd r) = fst (Transport_Close now t (Some d)).
Proof.
  intros enc Hdata Hcmds Hs Hid HH r. subst r. unfold handleClientData.
  rewrite (len_nonempty data Hdata). cbn [world w_transport w_writer]. fold enc.
  rewrite Hcmds. pass_over now (final (GetCommandDecoder enc data)) before (cmd :: after) c t w enc Hs.
  rewrite Heq. cbn [handleLoop]. apply Z.eqb_neq in Hid. rewrite Hid.
  cbn [w_client emit]. rewrite Hc1, HH.
  cbn [fst snd w_client w_transport w_writer w_events put_codecs emit transport_Close].
  rewrite Ht1, Hw1, Hev1.
  rewrite !handled_app, !written_app, !closes_app, Hh1, Hwr1, Hcl1. cbn.
  rewrite !app_nil_r. split_and!; try reflexivity.
  rewrite !in_app_iff. cbn. auto 10.
Qed.

(** X3.  A reply that cannot be encoded ends the frame: [handleClientData]
    closes the transport with [{Reason: "internal error", Reconnect: true}],
    writes nothing and returns [false]. *)
Theorem handleClientData_reply_not_encoded
    now (c : C) (t : T) (w : writer) (data : bytes) before cmd after c' rep err :
  let enc := Transport_Encoding t in
  let internal := {| proto.Reason := "internal error"; proto.Reconnect := true |} in
  data <> [] ->
  pending (GetCommandDecoder enc data) = before ++ cmd :: after ->
  smooth enc c before = true ->
  proto.ID cmd <> 0 ->
  Client_Handle (client_after c before) cmd = (c', Some rep, None) ->
  marshalReply enc rep = Err err ->
  let r := handleClientData now (world c t w) data in
  fst r = false /\
  handled (w_events (snd r)) = before ++ [cmd] /\
  written (w_events (snd r)) = [] /\
  w_writer (snd r) = w /\
  closes (w_events (snd r)) = [Some internal] /\
  w_transport (snd r) = fst (Transport_Close now t (Some internal)).
Proof.
  intros enc internal Hdata Hcmds Hs Hid HH HM r. subst r. unfold handleClientData.
  rewrite (len_nonempty data Hdata). cbn [world w_transport w_writer]. fold enc.
  rewrite Hcmds. pass_over now (final (GetCommandDecoder enc data)) before (cmd :: after) c t w enc Hs.
  rewrite Heq. cbn [handleLoop]. apply Z.eqb_neq in Hid. rewrite Hid.
  cbn [w_client emit]. rewrite Hc1, HH. unfold Encode.
  rewrite He1. cbn [GetReplyEncoder e_enc]. rewrite HM.
  cbn [fst snd w_client w_transport w_writer w_events put_codecs emit transport_Close].
  rewrite Ht1, Hw1, Hev1.
  rewrite !handled_app, !written_app, !closes_app, Hh1, Hwr1, Hcl1. cbn.
  rewrite !app_nil_r. now split_and!.
Qed.

(** The loop over a frame whose commands all pass. *)
Lemma handleLoop_all_pass now (c : C) (t : T) (w : writer) cmds enc :
  smooth enc c cmds = true ->
  exists encoder new,
    handleLoop now cmds EOF (world c t w) (GetReplyEncoder enc)
      = (Some encoder,
         {| w_client := client_after c cmds; w_transport := t; w_writer := w;
            w_events := new ++ [EvDecode (inr EOF)] |}) /\
    handled new = cmds /\ written new = [] /\ closes new = [] /\
    Finish encoder = frame_of enc (exchange c cmds).
Proof.
  intros Hs. pose proof Hs as Hs'.
  pass_over now EOF cmds (@nil proto.Command) c t w enc Hs.
  rewrite app_nil_r in Heq.
  destruct (handleLoop_spec now EOF cmds (world c t w) (GetReplyEncoder enc))
    as (new' & _ & _ & _ & _ & _ & Hgood).
  rewrite Heq in *. cbn [handleLoop fst snd] in *.
  destruct (Hgood e1 eq_refl) as (_ & _ & _ & _ & Hb & _).
  exists e1, new. split_and!; auto.
  f_equal. destruct W1. cbn in *. now subst.
Qed.

(** X4.  The slow consumer: when the reply frame takes the queue beyond
    [MaxQueueSize], the frame is in the queue all the same;
    [handleClientData] then closes the transport with [{Reason: "slow",
    Reconnect: true}] and returns [false]. *)
Theorem handleClientData_slow_consumer
    now (c : C) (t : T) (w : writer) (data : bytes) :
  let enc := Transport_Encoding t in
  let cmds := pending (GetCommandDecoder enc data) in
  let frame := frame_of enc (exchange c cmds) in
  let slow := {| proto.Reason := "slow"; proto.Reconnect := true |} in
  data <> [] ->
  final (GetCommandDecoder enc data) = EOF ->
  smooth enc c cmds = true ->
  queue.closed (messages w) = false ->
  MaxQueueSize (config w) < queue.Size (messages w) + len frame ->
  let r := handleClientData now (world c t w) data in
  fst r = false /\
  queue.items (messages (w_writer (snd r))) = queue.items (messages w) ++ [frame] /\
  written (w_events (snd r)) = [frame] /\
  handled (w_events (snd r)) = cmds /\
  closes (w_events (snd r)) = [Some slow] /\
  w_transport (snd r) = fst (Transport_Close now t (Some slow)).
Proof.
  intros enc cmds frame slow Hdata Hfinal Hs Hopen Hsize r. subst r.
  unfold handleClientData.
  rewrite (len_nonempty data Hdata). cbn [world w_transport w_writer]. fold enc.
  fold cmds. rewrite Hfinal.
  destruct (handleLoop_all_pass now c t w cmds enc Hs)
    as (encoder & new & -> & Hh & Hwr & Hcl & Hfin).
  rewrite Hfin. fold frame. cbn [w_writer w_client w_transport w_events].
  unfold writer_write, queue.Add. rewrite Hopen. cbn [negb config messages].
  assert (Hsz : queue.Size {| queue.items := queue.items (messages w) ++ [frame];
                              queue.closed := false |}
                = queue.Size (messages w) + len frame).
  { unfold queue.Size. cbn [queue.items]. rewrite foldr_app. cbn.
    generalize (len frame) as k. intros k.
    induction (queue.items (messages w)) as [|x l IHl]; cbn; [lia|]. rewrite IHl. lia. }
  rewrite Hsz. destruct (Z.ltb_spec (MaxQueueSize (config w))
                           (queue.Size (messages w) + len frame)); [|lia].
  cbn [fst snd w_client w_transport w_writer w_events put_codecs emit transport_Close
         messages queue.items].
  rewrite !handled_app, !written_app, !closes_app, Hh, Hwr, Hcl. cbn.
  rewrite !app_nil_r. now split_and!.
Qed.

(** Closes done by the loop: none when it runs to the end, one otherwise. *)
Lemma handleLoop_closes now final cmds : forall (W : World) encoder,
  match fst (handleLoop now cmds final W encoder) with
  | Some _ =>
      closes (w_events (snd (handleLoop now cmds final W encoder)))
        = closes (w_events W)
  | None =>
      exists d, closes (w_events (snd (handleLoop now cmds final W encoder)))
                  = closes (w_events W) ++ [Some d]
  end.
Proof.
  induction cmds as [|cmd rest IH]; intros W encoder; cbn [handleLoop].
  - destruct final; cbn [fst snd w_events emit put_codecs transport_Close].
    + rewrite closes_app. cbn. now rewrite app_nil_r.
    + eexists. rewrite !closes_app. cbn. rewrite !app_nil_r. reflexivity.
  - destruct (proto.ID cmd =? 0).
    + unfold client_Close. cbn [w_client w_transport emit].
      destruct (Client_Close now (w_client W) (w_transport W) _) as [c t].
      cbn [fst snd w_events emit put_codecs]. eexists.
      rewrite !closes_app. cbn. rewrite !app_nil_r. reflexivity.
    + cbn [w_client emit].
      destruct (Client_Handle (w_client W) cmd) as [[c [rep|]] [d|]].
      * cbn [fst snd w_events emit put_codecs transport_Close]. eexists.
        rewrite !closes_app. cbn. rewrite !app_nil_r. reflexivity.
      * unfold Encode. destruct (marshalReply (e_enc encoder) rep).
        -- match goal with
           | |- context [handleLoop now rest final ?W1 ?e1] => specialize (IH W1 e1)
           end.
           cbn [w_events emit] in IH. rewrite !closes_app in IH. cbn in IH.
           rewrite !app_nil_r in IH. exact IH.
        -- cbn [fst snd w_events emit put_codecs transport_Close]. eexists.
           rewrite !closes_app. cbn. rewrite !app_nil_r. reflexivity.
      * cbn [fst snd w_events emit put_codecs transport_Close]. eexists.
        rewrite !closes_app. cbn. rewrite !app_nil_r. reflexivity.
      * match goal with
        | |- context [handleLoop now rest final ?W1 ?e1] => specialize (IH W1 e1)
        end.
        cbn [w_events emit] in IH. rewrite !closes_app in IH. cbn in IH.
        rewrite !app_nil_r in IH. exact IH.
Qed.

(** The closes of one call of [handleClientData]. *)
Lemma handleClientData_closes now (W : World) (data : bytes) :
  let r := handleClientData now W data in
  (fst r = true /\ closes (w_events (snd r)) = closes (w_events W)) \/
  (fst r = false /\
   exists d, closes (w_events (snd r)) = closes (w_events W) ++ [Some d]).
Proof.
  intros r. subst r. unfold handleClientData.
  destruct (len data =? 0).
  - cbn [fst snd w_events emit transport_Close]. right. split; [reflexivity|].
    eexists. rewrite !closes_app. cbn. rewrite !app_nil_r. reflexivity.
  - pose proof (handleLoop_closes now
                  (final (GetCommandDecoder (Transport_Encoding (w_transport W)) data))
                  (pending (GetCommandDecoder (Transport_Encoding (w_transport W)) data))
                  W (GetReplyEncoder (Transport_Encoding (w_transport W)))) as HL.
    destruct (handleLoop now _ _ W _) as [[encoder|] W']; cbn [fst snd] in HL.
    + destruct (writer_write (w_writer W') (Finish encoder)) as [w' [d|]];
        cbn [fst snd w_events emit put_codecs transport_Close].
      * right. split; [reflexivity|]. exists d.
        rewrite !closes_app, HL. cbn. now rewrite !app_nil_r.
      * left. split; [reflexivity|].
        rewrite !closes_app, HL. cbn. now rewrite !app_nil_r.
    + cbn [fst snd]. right. split; [reflexivity|]. exact HL.
Qed.

(** X5.  Whatever the frame, [handleClientData] closes at most once: it
    returns [true] exactly when it closed nothing, and when it returns
    [false] it did one close, of the transport or of the client, with a
    disconnect that is not [nil]. *)
Theorem handleClientData_closes_once now (W : World) (data : bytes) :
  let r := handleClientData now W data in
  (fst r = true -> closes (w_events (snd r)) = closes (w_events W)) /\
  (fst r = false ->
   exists d, closes (w_events (snd r)) = closes (w_events W) ++ [Some d]).
Proof.
  intros r. subst r. unfold handleClientData.
  destruct (len data =? 0).
  - cbn [fst snd w_events emit transport_Close]. split; [discriminate|].
    intros _. eexists. rewrite !closes_app. cbn. rewrite !app_nil_r. reflexivity.
  - pose proof (handleLoop_closes now
                  (final (GetCommandDecoder (Transport_Encoding (w_transport W)) data))
                  (pending (GetCommandDecoder (Transport_Encoding (w_transport W)) data))
                  W (GetReplyEncoder (Transport_Encoding (w_transport W)))) as HL.
    destruct (handleLoop now _ _ W _) as [[encoder|] W']; cbn [fst snd] in HL.
    + destruct (writer_write (w_writer W') (Finish encoder)) as [w' [d|]];
        cbn [fst snd w_events emit put_codecs transport_Close].
      * split; [discriminate|]. intros _. exists d.
        rewrite !closes_app, HL. cbn. now rewrite !app_nil_r.
      * split; [|discriminate]. intros _.
        rewrite !closes_app, HL. cbn. now rewrite !app_nil_r.
    + cbn [fst snd]. split; [discriminate|]. intros _. exact HL.
Qed.

(** *** The pools of decoders and encoders *)

Lemma puts_app (a b : list Event) : puts (a ++ b) = puts a ++ puts b.
Proof. apply List.filter_app. Qed.

Lemma handleLoop_puts now final cmds : forall (W : World) encoder,
  exists new,
    w_events (snd (handleLoop now cmds final W encoder)) = w_events W ++ new /\
    match fst (handleLoop now cmds final W encoder) with
    | Some encoder' =>
        puts new = [] /\
        Forall (fun rep => exists chunk, marshalReply (e_enc encoder) rep = Ok chunk)
               (encoded new)
    | None =>
        (puts new = [EvPutCommandDecoder; EvPutReplyEncoder] /\
         Forall (fun rep => exists chunk, marshalReply (e_enc encoder) rep = Ok chunk)
                (encoded new)) \/
        (puts new = [] /\
         exists rep err, In rep (encoded new) /\
                         marshalReply (e_enc encoder) rep = Err err)
    end.
Proof.
  induction cmds as [|cmd rest IH]; intros W encoder; cbn [handleLoop].
  - destruct final; cbn [fst snd w_events emit put_codecs transport_Close];
      rewrite <- ?app_assoc; eexists; (split; [reflexivity|]); cbn; auto.
  - destruct (proto.ID cmd =? 0).
    + unfold client_Close. cbn [w_client w_transport emit].
      destruct (Client_Close now (w_client W) (w_transport W) _) as [c t].
      cbn [fst snd w_events emit put_codecs]. rewrite <- ?app_assoc.
      eexists; (split; [reflexivity|]); cbn; auto.
    + cbn [w_client emit].
      destruct (Client_Handle (w_client W) cmd) as [[c [rep|]] [d|]].
      * cbn [fst snd w_events emit put_codecs transport_Close]. rewrite <- ?app_assoc.
        eexists; (split; [reflexivity|]); cbn; auto.
      * unfold Encode. destruct (marshalReply (e_enc encoder) rep) as [chunk|err] eqn:E.
        -- match goal with
           | |- context [handleLoop now rest final ?W1 ?e1] =>
               destruct (IH W1 e1) as (new & Hev & H);
               destruct (handleLoop now rest final W1 e1) as [[e'|] W']
           end;
             cbn [fst snd w_events emit e_enc] in *; rewrite <- ?app_assoc in Hev;
             eexists; (split; [exact Hev|]);
             change (?a :: ?b :: new) with ([a; b] ++ new);
             rewrite puts_app, encoded_app; cbn.
           ++ destruct H as [Hp Hf]. split; [exact Hp|]. constructor; eauto.
           ++ destruct H as [[Hp Hf]|[Hp (rep' & err & Hin & Hbad)]].
              ** left. split; [exact Hp|]. constructor; eauto.
              ** right. split; [exact Hp|]. exists rep', err. auto.
        -- cbn [fst snd w_events emit put_codecs transport_Close]. rewrite <- ?app_assoc.
           eexists; (split; [reflexivity|]); cbn. right. split; [reflexivity|].
           exists rep, err. auto.
      * cbn [fst snd w_events emit put_codecs transport_Close]. rewrite <- ?app_assoc.
        eexists; (split; [reflexivity|]); cbn; auto.
      * match goal with
        | |- context [handleLoop now rest final ?W1 ?e1] =>
            destruct (IH W1 e1) as (new & Hev & H);
            destruct (handleLoop now rest final W1 e1) as [[e'|] W']
        end;
          cbn [fst snd w_events emit e_enc] in *; rewrite <- ?app_assoc in Hev;
          eexists; (split; [exact Hev|]);
          change (?a :: new) with ([a] ++ new);
          rewrite puts_app, encoded_app; cbn; exact H.
Qed.

(** X6.  [handleClientData] gives the decoder and the encoder back to their
    pools, the decoder first, on every return but two: that for an empty
    frame, where none was taken, and that for a reply that cannot be
    encoded, where both were taken and neither is given back. *)
Theorem handleClientData_codecs_returned now (W : World) (data : bytes) :
  let enc := Transport_Encoding (w_transport W) in
  let r := handleClientData now W data in
  exists new,
    w_events (snd r) = w_events W ++ new /\
    (puts new = [] \/ puts new = [EvPutCommandDecoder; EvPutReplyEncoder]) /\
    (puts new = [] <->
     data = [] \/
     exists rep err, In rep (encoded new) /\ marshalReply enc rep = Err err).
Proof.
  intros enc r. subst r. unfold handleClientData.
  destruct data as [|b data'] eqn:Ed.
  - change (len (@nil byte) =? 0) with true.
    cbn [fst snd w_events emit transport_Close].
    rewrite <- ?app_assoc. eexists. split; [reflexivity|]. cbn. split; auto.
    split; auto.
  - rewrite len_nonempty by discriminate. rewrite <- Ed. fold enc.
    destruct (handleLoop_puts now (final (GetCommandDecoder enc data))
                (pending (GetCommandDecoder enc data)) W (GetReplyEncoder enc))
      as (new & Hev & H).
    cbn [GetReplyEncoder e_enc] in H.
    assert (Hclash : forall l : list proto.Reply,
               Forall (fun rep => exists chunk, marshalReply enc rep = Ok chunk) l ->
               (exists rep err, In rep l /\ marshalReply enc rep = Err err) -> False).
    { intros l Hf (rep & err & Hin & Hbad). rewrite Forall_forall in Hf.
      destruct (Hf rep) as [chunk Hok].
      - apply list_elem_of_In. exact Hin.
      - congruence. }
    destruct (handleLoop now _ _ W _) as [[encoder|] W']; cbn [fst snd] in *.
    + destruct H as [Hp Hf].
      destruct (writer_write (w_writer W') (Finish encoder)) as [w' [d|]];
        cbn [fst snd w_events emit put_codecs transport_Close];
        rewrite Hev, <- ?app_assoc; eexists; (split; [reflexivity|]);
        rewrite !puts_app, !encoded_app, Hp; cbn; rewrite ?app_nil_r;
        (split; [now right|]);
        (split; [discriminate|]);
        (intros [Hnil|Hbad]; [congruence|]);
        exfalso; exact (Hclash _ Hf Hbad).
    + exists new. split; [exact Hev|].
      destruct H as [[Hp Hf]|[Hp Hbad]]; rewrite Hp.
      * split; [now right|]. split; [discriminate|].
        intros [Hnil|Hbad]; [congruence|]. exfalso. exact (Hclash _ Hf Hbad).
      * split; [now left|]. split; auto.
Qed.

(** *** The goroutine that reads a connection *)

Lemma handleLoop_client now final cmds : forall (W : World) encoder encoder',
  fst (handleLoop now cmds final W encoder) = Some encoder' ->
  w_client (snd (handleLoop now cmds final W encoder)) = client_after (w_client W) cmds.
Proof.
  induction cmds as [|cmd rest IH]; intros W encoder encoder'; cbn [handleLoop client_after].
  - destruct final; [reflexivity|discriminate].
  - destruct (proto.ID cmd =? 0).
    + unfold client_Close. cbn [w_client w_transport emit].
      destruct (Client_Close now (w_client W) (w_transport W) _). discriminate.
    + cbn [w_client emit].
      destruct (Client_Handle (w_client W) cmd) as [[c [rep|]] [d|]]; cbn [fst];
        try discriminate.
      * unfold Encode. destruct (marshalReply (e_enc encoder) rep); [|discriminate].
        intros H. now rewrite (IH _ _ _ H).
      * intros H. now rewrite (IH _ _ _ H).
Qed.

(** One call of [handleClientData], from any world: what it writes and what
    it leaves of the client, the transport and the writer. *)
Lemma handleClientData_step now (W : World) (data : bytes) :
  let enc := Transport_Encoding (w_transport W) in
  let cmds := pending (GetCommandDecoder enc data) in
  let frame := frame_of enc (exchange (w_client W) cmds) in
  let r := handleClientData now W data in
  exists new,
    w_events (snd r) = w_events W ++ new /\
    w_closed (w_writer (snd r)) = w_closed (w_writer W) /\
    ((written new = [] /\ w_writer (snd r) = w_writer W /\ fst r = false) \/
     (written new = [frame] /\
      w_writer (snd r) = fst (writer_write (w_writer W) frame) /\
      (fst r = true ->
       w_transport (snd r) = w_transport W /\
       w_client (snd r) = client_after (w_client W) cmds))).
Proof.
  intros enc cmds frame r. subst r. unfold handleClientData.
  destruct (len data =? 0).
  - cbn [fst snd w_events w_writer emit transport_Close]. eexists.
    rewrite <- app_assoc. split; [reflexivity|]. split; [reflexivity|]. left. now split_and!.
  - fold enc. fold cmds.
    destruct (handleLoop_spec now (final (GetCommandDecoder enc data)) cmds W
                (GetReplyEncoder enc))
      as (new & Hev & Hw & Hwr & _ & _ & Hgood).
    pose proof (handleLoop_client now (final (GetCommandDecoder enc data)) cmds W
                  (GetReplyEncoder enc)) as Hcl.
    destruct (handleLoop now cmds _ W (GetReplyEncoder enc)) as [[encoder|] W'];
      cbn [fst snd] in *.
    + destruct (Hgood encoder eq_refl) as (_ & _ & Ht & _ & Hb & _).
      cbn in Hb. unfold Finish. rewrite Hb. fold frame. rewrite Hw.
      specialize (Hcl encoder eq_refl).
      assert (Hclosed : w_closed (fst (writer_write (w_writer W) frame))
                        = w_closed (w_writer W)).
      { unfold writer_write. destruct (queue.Add _ _) as [q ok].
        destruct ok; cbn; [destruct (_ <? _)|]; reflexivity. }
      destruct (writer_write (w_writer W) frame) as [w' [d|]];
        cbn [fst snd w_events w_writer w_client w_transport emit put_codecs transport_Close]
          in *;
        eexists; (split; [rewrite Hev, <- !app_assoc; reflexivity|]);
        (split; [exact Hclosed|]); right;
        rewrite !written_app, Hwr; cbn; split_and!; auto; discriminate.
    + exists new. rewrite Hw. split_and!; auto.
Qed.

(** The frames answered are reply frames, in the order of the frames. *)
Lemma answered_reply_frames enc (incoming : list bytes) : forall (c : C) (w : writer),
  exists rest, reply_frames enc c incoming = answered enc c w incoming ++ rest.
Proof.
  induction incoming as [|data more IH]; intros c w; cbn [reply_frames answered].
  - now exists [].
  - cbv zeta. destruct (passes enc c data); [|eexists; reflexivity].
    destruct (writer_write w _) as [w' [d|]].
    + eexists. cbn [app]. reflexivity.
    + destruct (IH (client_after c (pending (GetCommandDecoder enc data))) w')
        as [rest Hrest].
      exists rest. cbn [app]. now rewrite Hrest.
Qed.

(** X7.  Replies keep the order of the client's frames, and the loop stops
    at the first frame it cannot answer in full.  While the queue is open
    and nobody else touches it, the frames the goroutine hands to the
    writer, which are the frames it appends to the queue, are these: the
    reply frame of each client frame in turn, as long as the client frame
    passes (it is not empty, the decoder ends with [io.EOF] and no command
    stops the loop) and, after a frame, as long as [writer.write] did not
    answer that frame with a disconnect.  They are reply frames of the
    frames read, one for each and in their order; and the goroutine does
    not close the writer while it reads. *)
Theorem read_frames_reply_order now (W : World) (incoming : list bytes) :
  queue.closed (messages (w_writer W)) = false ->
  let W' := read_frames now W incoming in
  let enc := Transport_Encoding (w_transport W) in
  let frames := answered enc (w_client W) (w_writer W) incoming in
  (exists new, w_events W' = w_events W ++ new /\ written new = frames) /\
  queue.items (messages (w_writer W'))
    = queue.items (messages (w_writer W)) ++ frames /\
  (exists rest, reply_frames enc (w_client W) incoming = frames ++ rest) /\
  w_closed (w_writer W') = w_closed (w_writer W) /\
  queue.closed (messages (w_writer W')) = false.
Proof.
  intros Hopen W' enc frames. subst W' frames enc.
  assert (H : exists new,
             w_events (read_frames now W incoming) = w_events W ++ new /\
             written new
             = answered (Transport_Encoding (w_transport W)) (w_client W)
                 (w_writer W) incoming /\
             queue.items (messages (w_writer (read_frames now W incoming)))
             = queue.items (messages (w_writer W)) ++ written new /\
             w_closed (w_writer (read_frames now W incoming)) = w_closed (w_writer W) /\
             queue.closed (messages (w_writer (read_frames now W incoming))) = false).
  { revert W Hopen. induction incoming as [|data more IH]; intros W Hopen;
      cbn [read_frames answered].
    - exists []. rewrite !app_nil_r. now split_and!.
    - cbv zeta.
      destruct (handleClientData_outcome now W data) as (new & Hev & _ & _ & Hres).
      destruct (passes _ (w_client W) data).
      + destruct Hres as ((before & after & -> & _ & _ & Hwb & _ & _ & Hwa)
                          & Hw & Hf & Htrue).
        set (frame := frame_of _ _) in *.
        assert (Hwr : written (before ++ EvWrite frame :: after) = [frame])
          by now rewrite written_app, Hwb, written_write, Hwa.
        assert (Hq : queue.items (messages (fst (writer_write (w_writer W) frame)))
                     = queue.items (messages (w_writer W)) ++ [frame] /\
                     queue.closed (messages (fst (writer_write (w_writer W) frame)))
                     = false /\
                     w_closed (fst (writer_write (w_writer W) frame))
                     = w_closed (w_writer W)).
        { unfold writer_write, queue.Add. rewrite Hopen. cbn.
          destruct (_ <? _); now split_and!. }
        destruct Hq as (Hitems & Hopen1 & Hclosed).
        destruct (writer_write (w_writer W) frame) as [w' [d|]];
          cbn [fst snd] in *;
          destruct (handleClientData now W data) as [ok W1];
          cbn [fst snd] in *; subst ok.
        * eexists. split; [exact Hev|]. rewrite Hwr, Hw. now split_and!.
        * destruct (Htrue eq_refl) as [Ht Hc].
          assert (Hopen' : queue.closed (messages (w_writer W1)) = false)
            by now rewrite Hw.
          destruct (IH W1 Hopen') as (new1 & Hev1 & Hwr1 & Hit1 & Hcl1 & Hop1).
          rewrite Ht, Hc, Hw in Hwr1.
          exists ((before ++ EvWrite frame :: after) ++ new1).
          rewrite Hev1, Hev, written_app, Hwr, Hit1, Hwr1, Hcl1, Hw, Hitems, Hclosed.
          rewrite <- !app_assoc. now split_and!.
      + destruct Hres as (Hwr & Hw & Hf).
        destruct (handleClientData now W data) as [ok W1];
          cbn [fst snd] in *; subst ok.
        exists new. rewrite Hwr, Hw, app_nil_r. now split_and!. }
  destruct H as (new & Hev & Hwr & Hitems & Hclosed & Hopen').
  split_and!; auto.
  - now exists new.
  - now rewrite <- Hwr.
  - apply answered_reply_frames.
Qed.

(** The closes of the loop: those of the frame at which it stopped. *)
Lemma read_frames_closes now (incoming : list bytes) : forall W : World,
  closes (w_events (read_frames now W incoming)) = closes (w_events W) \/
  exists d, closes (w_events (read_frames now W incoming))
            = closes (w_events W) ++ [Some d].
Proof.
  induction incoming as [|data more IH]; intros W; cbn [read_frames]; [now left|].
  destruct (handleClientData_closes now W data) as [[Hok Hc]|[Hok Hc]];
    destruct (handleClientData now W data) as [ok W1]; cbn [fst snd] in *; subst ok.
  - rewrite <- Hc. apply IH.
  - right. exact Hc.
Qed.

(** Reading neither closes the writer nor its queue. *)
Lemma read_frames_flags now (incoming : list bytes) : forall W : World,
  w_closed (w_writer (read_frames now W incoming)) = w_closed (w_writer W) /\
  queue.closed (messages (w_writer (read_frames now W incoming)))
    = queue.closed (messages (w_writer W)).
Proof.
  induction incoming as [|data more IH]; intros W; cbn [read_frames]; [now split|].
  assert (H : w_closed (w_writer (snd (handleClientData now W data)))
              = w_closed (w_writer W) /\
              queue.closed (messages (w_writer (snd (handleClientData now W data))))
              = queue.closed (messages (w_writer W))).
  { destruct (handleClientData_step now W data)
      as (new & _ & Hclosed & [(_ & Hw & _)|(_ & Hw & _)]); rewrite Hw.
    - now split.
    - split; [now rewrite <- Hw|].
      unfold writer_write, queue.Add.
      destruct (queue.closed (messages (w_writer W))) eqn:E; cbn; [exact E|].
      destruct (_ <? _); reflexivity. }
  destruct (handleClientData now W data) as [[|] W1]; cbn [fst snd] in *; [|exact H].
  destruct (IH W1) as [H1 H2]. destruct H as [H3 H4]. split; congruence.
Qed.

(** X8.  When the goroutine of a connection returns, the writer is closed
    and so is its queue, and the goroutine has closed at most twice: at
    most once with a disconnect, at the frame at which it stopped reading,
    and once at the end, by [c.Close(nil)].  The writer is one whose queue
    is closed whenever its flag is set, as [newWriter] and [close] leave
    it. *)
Theorem connection_end name now (c : C) (t : T) (w : writer) (incoming : list bytes) :
  (w_closed w = true -> queue.Closed (messages w) = true) ->
  let W' := connection name now (world c t w) incoming in
  w_closed (w_writer W') = true /\
  queue.Closed (messages (w_writer W')) = true /\
  (closes (w_events W') = [None] \/
   exists d, closes (w_events W') = [Some d; None]).
Proof.
  intros Hinv W'. subst W'. unfold connection, client_Close.
  cbn [w_client w_transport w_writer w_events emit].
  set (W0 := emit (world c t w) _).
  destruct (Client_Close now (w_client (read_frames now W0 incoming)) _ None) as [c' t'].
  cbn [w_writer w_events]. split_and!.
  - apply writer_close_closed.
  - destruct (read_frames_flags now incoming W0) as [Hc Hq]. cbn in Hc, Hq.
    unfold writer_close.
    destruct (w_closed (w_writer (read_frames now W0 incoming))) eqn:E; [|reflexivity].
    cbn [fst]. unfold queue.Closed in *. rewrite Hq. apply Hinv. congruence.
  - rewrite !closes_app. cbn.
    destruct (read_frames_closes now incoming W0) as [H|[d H]]; rewrite H; cbn.
    + now left.
    + right. now exists d.
Qed.

End GiveUp.

(** *** The transports *)

Section TransportFacts.

Context `{Externals}.
Variable fault : websocket.Conn -> websocket.Op -> option error.

(** What [Close] leaves alone: the options, the counters, and the data and
    ping frames on the wire. *)
Lemma ws_Close_keeps now t d :
  let t' := fst (websocketTransport_Close fault now t d) in
  opts t' = opts t /\
  transportMessagesSent t' = transportMessagesSent t /\
  transportBytesOut t' = transportBytesOut t /\
  data_frames (websocket.wire (conn t')) = data_frames (websocket.wire (conn t)) /\
  ping_frames (websocket.wire (conn t')) = ping_frames (websocket.wire (conn t)).
Proof.
  unfold websocketTransport_Close. destruct (ws_closed t); [now split_and!|].
  destruct d as [d|]; cbn.
  - destruct (json_Marshal d); [|now split_and!].
    unfold websocket.WriteControl.
    destruct (fault (conn t) websocket.OpWriteControl); cbn; split_and!; auto;
      unfold data_frames, ping_frames; rewrite List.filter_app; cbn;
      now rewrite app_nil_r.
  - now split_and!.
Qed.

Lemma ws_Close_flags now t d :
  ws_closed t = ws_closeCh t ->
  ws_closed (fst (websocketTransport_Close fault now t d)) = true /\
  ws_closeCh (fst (websocketTransport_Close fault now t d)) = true.
Proof.
  intros Hagree. unfold websocketTransport_Close.
  destruct (ws_closed t) eqn:E; [now split|].
  destruct d as [d|].
  - destruct (json_Marshal d); [|now split].
    destruct (websocket.WriteControl _ _ _) as [c e].
    now destruct (websocket.Close fault c).
  - now destruct (websocket.Close fault _).
Qed.

(** The loop over the payloads: it buffers all of them, or it stops at a
    failed [Write] with the error and closes the transport. *)
Lemma write_payloads_spec now all data : forall t buffered bytesOut,
  match write_payloads fault now t all buffered bytesOut data with
  | (t', buffered', bytesOut', None) =>
      t' = t /\ buffered' = buffered ++ concat data /\
      bytesOut' = bytesOut + len data * len all
  | (t', _, _, Some e) =>
      (exists err, e = Some err) /\
      t' = fst (websocketTransport_Close fault now t (Some sendError))
  end.
Proof.
  induction data as [|payload rest IH]; intros t buffered bytesOut; cbn [write_payloads].
  - split_and!; [reflexivity|cbn [concat]; now rewrite app_nil_r|].
    change (len (@nil bytes)) with 0. lia.
  - unfold websocket.Write.
    destruct (fault (conn t) (websocket.OpWrite payload)) as [err|]; cbv beta iota.
    + rewrite orb_true_r. split; [now exists err|reflexivity].
    + rewrite Z.eqb_refl. cbn [negb orb].
      specialize (IH t (buffered ++ payload) (bytesOut + len all)).
      destruct (write_payloads fault now t all _ _ rest) as [[[t' b'] n'] [e|]].
      * exact IH.
      * destruct IH as (-> & -> & ->). split_and!; auto.
        -- cbn [concat]. now rewrite app_assoc.
        -- unfold len. cbn [length]. lia.
Qed.

(** X9.  A call of [write] on an open websocket transport sends all of its
    batch or nothing of it.  When it returns [nil], one data frame went
    out: the payloads concatenated, binary for Protobuf and text otherwise;
    the message counter went up by the number of payloads and the byte
    counter by the square of that number, [len(data)] being added once for
    each payload; the write deadline is cleared if a timeout is set.
    Otherwise the transport is closed, no data frame went out, and the
    counters are as they were. *)
Theorem websocketTransport_write_all_or_nothing now t data :
  ws_closeCh t = false ->
  let r := websocketTransport_write fault now t data in
  let t' := fst r in
  let messageType :=
    if proto.Encoding_eqb (enc (opts t)) proto.EncodingProtobuf
    then websocket.BinaryMessage else websocket.TextMessage in
  let compressed :=
    if 0 <? compressionMinSize (opts t)
    then compressionMinSize (opts t) <? len data
    else websocket.enableWriteCompression (conn t) in
  match snd r with
  | Wrote None =>
      websocket.wire (conn t')
        = websocket.wire (conn t)
            ++ [websocket.Data messageType (concat data) compressed] /\
      ws_closed t' = ws_closed t /\
      transportMessagesSent t' = transportMessagesSent t + len data /\
      transportBytesOut t' = transportBytesOut t + len data * len data /\
      (0 < writeTimeout (opts t) -> websocket.writeDeadline (conn t') = None)
  | _ =>
      ws_closed t' = true /\
      data_frames (websocket.wire (conn t')) = data_frames (websocket.wire (conn t)) /\
      transportMessagesSent t' = transportMessagesSent t /\
      transportBytesOut t' = transportBytesOut t
  end.
Proof.
  intros Hopen. cbv zeta. unfold websocketTransport_write. rewrite Hopen.
  set (c1 := if 0 <? compressionMinSize (opts t) then _ else conn t).
  set (c2 := if 0 <? writeTimeout (opts t) then _ else c1).
  assert (Hc2 : websocket.wire c2 = websocket.wire (conn t) /\
                websocket.enableWriteCompression c2
                = (if 0 <? compressionMinSize (opts t)
                   then compressionMinSize (opts t) <? len data
                   else websocket.enableWriteCompression (conn t))).
  { subst c2 c1. destruct (0 <? writeTimeout (opts t));
      destruct (0 <? compressionMinSize (opts t)); now split. }
  destruct Hc2 as [Hwire Hflag].
  set (t2 := ws_set_conn t c2).
  assert (Hfail : forall t3,
             t3 = fst (websocketTransport_Close fault now t2 (Some sendError)) ->
             ws_closed t3 = true /\
             data_frames (websocket.wire (conn t3))
               = data_frames (websocket.wire (conn t)) /\
             transportMessagesSent t3 = transportMessagesSent t /\
             transportBytesOut t3 = transportBytesOut t).
  { intros t3 ->.
    destruct (ws_Close_keeps now t2 (Some sendError)) as (_ & Hm & Hb & Hd & _).
    rewrite Hm, Hb, Hd. cbn. rewrite Hwire. split_and!; auto.
    apply ws_Close_closed. }
  unfold websocket.NextWriter.
  destruct (fault (conn t2) websocket.OpNextWriter); cbn [fst snd].
  - now apply Hfail.
  - pose proof (write_payloads_spec now data data t2 [] 0) as HW.
    destruct (write_payloads fault now t2 data [] 0 data)
      as [[[t3 buffered] bytesOut] [e|]].
    + destruct HW as [[err ->] Ht3]. cbn [fst snd]. now apply Hfail.
    + destruct HW as (-> & -> & ->).
      unfold websocket.CloseWriter. cbn [app].
      destruct (fault (conn t2) websocket.OpCloseWriter); cbn [fst snd].
      * apply Hfail. reflexivity.
      * clear Hfail Hwire Hflag. subst t2 c2 c1. cbn.
        destruct (Z.ltb_spec 0 (writeTimeout (opts t)));
          destruct (0 <? compressionMinSize (opts t));
          cbn; split_and!; auto; intros; lia.
Qed.

(** X10.  The flag [closed] and the channel [closeCh] of a websocket
    transport go together: they agree on a new transport and after every
    method, and after [Close] neither [write] nor [ping] nor a second
    [Close] does anything to the transport or its connection. *)
Theorem websocketTransport_closed_is_silent now t d :
  ws_closed t = ws_closeCh t ->
  let agree (t : websocketTransport) := ws_closed t = ws_closeCh t in
  let t1 := fst (websocketTransport_Close fault now t d) in
  (forall later data,
      agree (fst (websocketTransport_write fault later t data)) /\
      agree (websocketTransport_ping fault later t) /\
      agree (addPing t) /\ agree t1) /\
  (forall c o, agree (newWebsocketTransport c o)) /\
  (forall later data d',
      websocketTransport_write fault later t1 data = (t1, Wrote None) /\
      websocketTransport_ping fault later t1 = t1 /\
      addPing t1 = t1 /\
      websocketTransport_Close fault later t1 d' = (t1, None)).
Proof.
  intros Hagree agree t1.
  assert (Hclose : forall now t d, agree t ->
             agree (fst (websocketTransport_Close fault now t d))).
  { intros now0 t0 d0 H0. destruct (ws_Close_flags now0 t0 d0 H0) as [H1 H2].
    unfold agree. congruence. }
  destruct (ws_Close_flags now t d Hagree) as [Hc Hch]. fold t1 in Hc, Hch.
  split_and!.
  - intros later data. split_and!.
    + unfold websocketTransport_write. destruct (ws_closeCh t) eqn:E; [unfold agree; cbn; congruence|].
      set (t2 := ws_set_conn t _).
      assert (H2 : agree t2) by (unfold agree; cbn; congruence).
      unfold websocket.NextWriter.
      destruct (fault (conn t2) websocket.OpNextWriter); cbn [fst].
      * now apply Hclose.
      * pose proof (write_payloads_spec later data data t2 [] 0) as HW.
        destruct (write_payloads fault later t2 data [] 0 data)
          as [[[t3 buffered] bytesOut] [e|]].
        -- destruct HW as [_ ->]. cbn [fst]. now apply Hclose.
        -- destruct HW as (-> & _ & _).
           destruct (websocket.CloseWriter _ _ _ _) as [c [err|]]; cbn [fst].
           ++ apply Hclose. exact H2.
           ++ exact H2.
    + unfold websocketTransport_ping. destruct (ws_closeCh t) eqn:E; [unfold agree; cbn; congruence|].
      destruct (websocket.WriteControl _ _ _) as [c [err|]].
      * apply Hclose. unfold agree. cbn. congruence.
      * unfold addPing. cbn. rewrite Hagree. unfold agree. cbn. congruence.
    + unfold addPing. destruct (ws_closed t) eqn:E; unfold agree; cbn; congruence.
    + now apply Hclose.
  - intros c o. unfold newWebsocketTransport, addPing.
    now destruct (0 <? pingInterval o).
  - intros later data d'. split_and!.
    + unfold websocketTransport_write. now rewrite Hch.
    + unfold websocketTransport_ping. now rewrite Hch.
    + unfold addPing. now rewrite Hc.
    + now apply ws_Close_again.
Qed.

Lemma ping_keeps_opts now t : opts (websocketTransport_ping fault now t) = opts t.
Proof.
  unfold websocketTransport_ping. destruct (ws_closeCh t); [reflexivity|].
  destruct (websocket.WriteControl _ _ _) as [c [err|]].
  - destruct (ws_Close_keeps now (ws_set_conn t c) (Some DisconnectServerError))
      as (Ho & _). exact Ho.
  - unfold addPing. now destruct (ws_closed (ws_set_conn t c)).
Qed.

Lemma pings_closed instants : forall t,
  ws_closeCh t = true -> pings fault t instants = t.
Proof.
  induction instants as [|now later IH]; intros t Hch; [reflexivity|].
  cbn [pings]. unfold websocketTransport_ping. rewrite Hch. now apply IH.
Qed.

Lemma ping_frame_opts (t t' : websocketTransport) :
  opts t' = opts t -> ping_frame t' = ping_frame t.
Proof. unfold ping_frame. now intros ->. Qed.

(** X11.  The pings of a websocket transport: as the timer goes off at one
    instant after the other, each run of [ping] writes one ping frame with
    the payload ["ping"] and the deadline half an interval ahead, and arms
    the timer again for a whole interval, until a write fails.  The run at
    which the transport is closed is the first whose [WriteControl] fails
    on the connection that holds the pings written so far; that run leaves
    no timer armed, and no later run writes a ping.  If no write fails the
    transport stays open and every run has written its ping. *)
Theorem pings_until_failure instants : forall t,
  ws_closed t = false -> ws_closeCh t = false ->
  let t' := pings fault t instants in
  let sent k := map (ping_frame t) (take k instants) in
  exists k : nat,
    (forall i, (i < k)%nat ->
       fault (with_frames (conn t) (sent i)) websocket.OpWriteControl = None) /\
    ping_frames (websocket.wire (conn t'))
      = ping_frames (websocket.wire (conn t)) ++ sent k /\
    ((k = length instants /\ ws_closed t' = false /\
      conn t' = with_frames (conn t) (sent k) /\
      (instants <> [] -> pingTimer t' = Some (TimerArmed (pingInterval (opts t))))) \/
     ((k < length instants)%nat /\
      (exists err,
          fault (with_frames (conn t) (sent k)) websocket.OpWriteControl = Some err) /\
      ws_closed t' = true /\ ws_closeCh t' = true /\
      forall after, pingTimer t' <> Some (TimerArmed after))).
Proof.
  induction instants as [|now later IH]; intros t Hc Hch; cbn [pings].
  - exists 0%nat. cbn. rewrite app_nil_r. split; [intros i Hi; lia|].
    split; [reflexivity|]. left. now split_and!.
  - unfold websocketTransport_ping. rewrite Hch. unfold websocket.WriteControl.
    destruct (fault (conn t) websocket.OpWriteControl) as [err|] eqn:Ef.
    + set (t0 := ws_set_conn t (conn t)).
      assert (H0 : ws_closed t0 = ws_closeCh t0) by (cbn; congruence).
      destruct (ws_Close_flags now t0 (Some DisconnectServerError) H0) as [H1 H2].
      destruct (ws_Close_keeps now t0 (Some DisconnectServerError)) as (_ & _ & _ & _ & Hp).
      rewrite (pings_closed later _ H2).
      exists 0%nat. cbn [take map]. rewrite app_nil_r.
      split; [intros i Hi; lia|]. split; [exact Hp|].
      right. split_and!; auto.
      * cbn. lia.
      * exists err. exact Ef.
      * intros after. unfold websocketTransport_Close.
        replace (ws_closed t0) with false by (symmetry; exact Hc).
        destruct (json_Marshal DisconnectServerError); cbn.
        -- unfold websocket.WriteControl.
           destruct (fault (conn t) websocket.OpWriteControl); cbn;
             destruct (pingTimer t); discriminate.
        -- destruct (pingTimer t); discriminate.
    + set (t1 := addPing _).
      assert (H1 : ws_closed t1 = false /\ ws_closeCh t1 = false /\
                   opts t1 = opts t /\
                   pingTimer t1 = Some (TimerArmed (pingInterval (opts t))) /\
                   conn t1 = websocket.put (conn t) (ping_frame t now)).
      { subst t1. unfold addPing. cbn. rewrite Hc. cbn. now split_and!. }
      destruct H1 as (Hc1 & Hch1 & Ho1 & Ht1 & Hconn1).
      destruct (IH t1 Hc1 Hch1) as (k & Hfault & Hframes & Hcases).
      rewrite (ping_frame_opts t t1 Ho1), Hconn1 in Hfault, Hframes, Hcases.
      exists (S k). cbn [take map]. split_and!.
      * intros [|i] Hi; [exact Ef|]. cbn [take map with_frames fold_left].
        apply Hfault. lia.
      * rewrite Hframes. cbn [websocket.put websocket.wire].
        unfold ping_frames. rewrite List.filter_app. cbn [List.filter ping_frame].
        now rewrite <- app_assoc.
      * destruct Hcases as [(Hk & Hopen & Hconn & Htimer)|(Hk & Herr & Hcl & Hcl' & Htimer)].
        -- left. split_and!; auto.
           ++ cbn. lia.
           ++ intros _. destruct later as [|next later'].
              ** exact Ht1.
              ** rewrite <- Ho1. apply Htimer. discriminate.
        -- right. split_and!; auto. cbn. lia.
Qed.

End TransportFacts.

Section SockjsFacts.

Context `{Externals}.
Variable fault : sockjs.Session -> sockjs.Op -> option error.

(** What [Close] leaves alone: what was sent, and the counters. *)
Lemma sockjs_Close_keeps t d :
  let t' := fst (sockjsTransport_Close fault t d) in
  sockjs.sent (session t') = sockjs.sent (session t) /\
  sj_messagesSent t' = sj_messagesSent t /\
  sj_bytesOut t' = sj_bytesOut t.
Proof.
  unfold sockjsTransport_Close. destruct (sj_closed t); [now split_and!|].
  destruct (json_Marshal _); [|now split_and!].
  unfold sockjs.Close. cbn. destruct (fault (session t) sockjs.OpClose); now split_and!.
Qed.

Lemma sockjs_send_all_spec all data : forall t,
  let r := sockjs_send_all fault t all data in
  let session_after k :=
    {| sockjs.sent := sockjs.sent (session t) ++ take k data;
       sockjs.closing := sockjs.closing (session t) |} in
  exists k : nat,
    (forall i payload, (i < k)%nat -> data !! i = Some payload ->
       fault (session_after i) (sockjs.OpSend payload) = None) /\
    sockjs.sent (session (fst r)) = sockjs.sent (session t) ++ take k data /\
    match snd r with
    | None =>
        k = length data /\ sj_closed (fst r) = sj_closed t /\
        sj_messagesSent (fst r) = sj_messagesSent t + len data /\
        sj_bytesOut (fst r) = sj_bytesOut t + len data * len all
    | Some err =>
        (k < length data)%nat /\
        (exists payload,
            data !! k = Some payload /\
            fault (session_after k) (sockjs.OpSend payload) = Some err) /\
        sj_closed (fst r) = true /\
        sj_messagesSent (fst r) = sj_messagesSent t + Z.of_nat k + 1 /\
        sj_bytesOut (fst r) = sj_bytesOut t + (Z.of_nat k + 1) * len all
    end.
Proof.
  induction data as [|payload rest IH]; intros t; cbn [sockjs_send_all].
  - exists 0%nat. cbn [fst snd take]. rewrite app_nil_r.
    change (len (@nil bytes)) with 0. split_and!; auto; lia.
  - cbv zeta. unfold sockjs.Send. cbn [session].
    assert (Hs0 : {| sockjs.sent := sockjs.sent (session t);
                     sockjs.closing := sockjs.closing (session t) |} = session t)
      by now destruct (session t).
    destruct (fault (session t) (sockjs.OpSend payload)) as [err|] eqn:Ef.
    + exists 0%nat. cbn [fst snd take]. rewrite app_nil_r.
      match goal with
      | |- context [sockjsTransport_Close fault ?t0 ?d] =>
          destruct (sockjs_Close_keeps t0 d) as (Hs & Hm & Hb);
          pose proof (sockjs_Close_closed fault t0 d) as Hc
      end.
      cbn [session sj_messagesSent sj_bytesOut] in Hs, Hm, Hb.
      rewrite Hs, Hm, Hb, Hc. split_and!; auto; try (cbn; lia).
      exists payload. split; [reflexivity|]. now rewrite Hs0.
    + match goal with
      | |- context [sockjs_send_all fault ?t0 all rest] =>
          destruct (IH t0) as (k & Hfault & Hsent & Hrest);
          destruct (sockjs_send_all fault t0 all rest) as [t' [err|]]
      end;
        cbn [fst snd session sj_closed sj_messagesSent sj_bytesOut sockjs.sent
               sockjs.closing] in *;
        exists (S k); rewrite Hsent, <- app_assoc; cbn [take app];
        (split; [intros [|i] p Hi Hp; cbn [take];
                 [injection Hp as <-; now rewrite app_nil_r, Hs0
                 |cbn in Hp; specialize (Hfault i p ltac:(lia) Hp);
                  rewrite <- app_assoc in Hfault; exact Hfault]|]);
        (split; [reflexivity|]); unfold len in *; cbn [length].
      * destruct Hrest as (Hk & (p & Hp & Hf) & Hc & Hm & Hb). rewrite Hm, Hb.
        split_and!; auto; try lia.
        exists p. split; [exact Hp|]. rewrite <- app_assoc in Hf. exact Hf.
      * destruct Hrest as (Hk & Hc & Hm & Hb). rewrite Hm, Hb.
        split_and!; auto; lia.
Qed.

(** X12.  [write] of the SockJS transport sends the payloads of a batch one
    by one, in order, and stops at the first that cannot be sent: every
    payload before it was taken by [session.Send], it was refused, with the
    error [write] returns, and what the session was given is the batch up
    to it.  [write] counts a message before it sends it, so after a failure
    the counters include the payload that was not sent, and the transport
    is closed.  If no [Send] fails the whole batch was sent and [write]
    returns [nil]. *)
Theorem sockjsTransport_write_prefix t data :
  sj_closeCh t = false ->
  let r := sockjsTransport_write fault t data in
  let session_after k :=
    {| sockjs.sent := sockjs.sent (session t) ++ take k data;
       sockjs.closing := sockjs.closing (session t) |} in
  exists k : nat,
    (forall i payload, (i < k)%nat -> data !! i = Some payload ->
       fault (session_after i) (sockjs.OpSend payload) = None) /\
    sockjs.sent (session (fst r)) = sockjs.sent (session t) ++ take k data /\
    match snd r with
    | None =>
        k = length data /\ sj_closed (fst r) = sj_closed t /\
        sj_messagesSent (fst r) = sj_messagesSent t + len data /\
        sj_bytesOut (fst r) = sj_bytesOut t + len data * len data
    | Some err =>
        (k < length data)%nat /\
        (exists payload,
            data !! k = Some payload /\
            fault (session_after k) (sockjs.OpSend payload) = Some err) /\
        sj_closed (fst r) = true /\
        sj_messagesSent (fst r) = sj_messagesSent t + Z.of_nat k + 1 /\
        sj_bytesOut (fst r) = sj_bytesOut t + (Z.of_nat k + 1) * len data
    end.
Proof.
  intros Hopen. unfold sockjsTransport_write. rewrite Hopen.
  apply sockjs_send_all_spec.
Qed.

End SockjsFacts.

(** *** The writer wired to its transport *)

(** Whatever holds of the transport and of the calls of the write function
    made so far, and is kept by one more call, holds when the routine
    stops: the routine touches the transport through the write function
    only. *)
Section RoutineCalls.

Context {T : Type}.
Variable writeFn : T -> list bytes -> T * option error.
Variable R : T -> list (list bytes * option error) -> Prop.
Hypothesis R_call : forall t log msgs,
  R t log -> R (fst (writeFn t msgs)) (log ++ [(msgs, snd (writeFn t msgs))]).

Lemma transport_env_turn (s : @routine T) : r_transport (env_turn s) = r_transport s.
Proof. unfold env_turn. now destruct (r_env s). Qed.

Lemma drain_calls n : forall msgs (s : @routine T),
  match drain n msgs s with
  | DrainBreak _ s' | DrainReturn s' =>
      r_transport s' = r_transport s /\ r_written s' = r_written s
  end.
Proof.
  induction n as [|n IH]; intros msgs s; cbn [drain]; [now split|].
  destruct (maxMessagesInFrame <=? len msgs); [now split|].
  destruct (queue.Remove (messages (r_writer (env_turn s)))) as [q [msg|]].
  - specialize (IH (msgs ++ [msg]) (set_messages (env_turn s) q)).
    destruct (drain n _ _); cbn [set_messages set_writer r_transport r_written] in IH;
      now rewrite transport_env_turn, written_env_turn in IH.
  - destruct (queue.Closed _);
      rewrite transport_env_turn, written_env_turn;
      cbn [set_messages set_writer r_transport r_written];
      now rewrite transport_env_turn, written_env_turn.
Qed.

Lemma call_writeFn_calls (s : @routine T) msgs :
  R (r_transport s) (r_written s) ->
  match after_write (call_writeFn writeFn s msgs) with
  | Continue s' | Return s' | Sleep s' => R (r_transport s') (r_written s')
  end.
Proof.
  intros HR. pose proof (R_call _ _ msgs HR) as HR'.
  unfold call_writeFn. destruct (writeFn (r_transport s) msgs) as [t [e|]];
    cbn [after_write r_transport r_written]; exact HR'.
Qed.

Lemma iteration_calls (s : @routine T) :
  R (r_transport s) (r_written s) ->
  match iteration writeFn s with
  | Continue s' | Return s' | Sleep s' => R (r_transport s') (r_written s')
  end.
Proof.
  intros HR. unfold iteration.
  destruct (await (r_writer (env_turn s)) (r_env (env_turn s))) as [[w env] r].
  set (s1 := {| r_writer := w; r_env := env;
                r_transport := r_transport (env_turn s);
                r_written := r_written (env_turn s) |}).
  assert (H1 : R (r_transport s1) (r_written s1)).
  { subst s1. cbn [r_transport r_written].
    now rewrite transport_env_turn, written_env_turn. }
  assert (H2 : R (r_transport (env_turn s1)) (r_written (env_turn s1))).
  { now rewrite transport_env_turn, written_env_turn. }
  destruct r as [msg| |].
  - destruct (mergeQueueMessages && _).
    + pose proof (drain_calls (Z.to_nat (queue.Len (messages (r_writer (env_turn s1)))))
                    [msg] (env_turn s1)) as HD.
      destruct (drain _ _ _) as [msgs s3|s3]; destruct HD as [Ht Hw].
      * assert (H3 : R (r_transport s3) (r_written s3)) by now rewrite Ht, Hw.
        destruct (0 <? len msgs); [now apply call_writeFn_calls|exact H3].
      * now rewrite Ht, Hw.
    + now apply call_writeFn_calls.
  - destruct (queue.Closed _); exact H2.
  - exact H1.
Qed.

Lemma runWriteRoutine_calls fuel : forall s : @routine T,
  R (r_transport s) (r_written s) ->
  let s' := snd (writer_runWriteRoutine writeFn fuel s) in
  R (r_transport s') (r_written s').
Proof.
  induction fuel as [|fuel IH]; intros s HR; cbn [writer_runWriteRoutine]; [exact HR|].
  pose proof (iteration_calls s HR) as HS.
  destruct (iteration writeFn s); cbn [snd]; auto.
Qed.

End RoutineCalls.

Section WebsocketDelivery.

Context `{Externals}.
Variable fault : websocket.Conn -> websocket.Op -> option error.

Lemma payloads_app fs gs : payloads (fs ++ gs) = payloads fs ++ payloads gs.
Proof. unfold payloads, data_frames. now rewrite List.filter_app, map_app. Qed.

(** One call of [write] on an open transport: a data frame with the batch
    goes out and the transport stays open, or none goes out and the
    transport is closed. *)
Lemma ws_write_frames now t data :
  ws_closed t = ws_closeCh t -> ws_closeCh t = false ->
  let r := websocketTransport_write fault now t data in
  ws_closed (fst r) = ws_closeCh (fst r) /\
  match snd r with
  | Wrote None =>
      ws_closeCh (fst r) = false /\
      payloads (websocket.wire (conn (fst r)))
        = payloads (websocket.wire (conn t)) ++ [concat data]
  | _ =>
      ws_closeCh (fst r) = true /\
      payloads (websocket.wire (conn (fst r))) = payloads (websocket.wire (conn t))
  end.
Proof.
  intros Hagree Hopen. cbv zeta. unfold websocketTransport_write. rewrite Hopen.
  set (c1 := if 0 <? compressionMinSize (opts t) then _ else conn t).
  set (c2 := if 0 <? writeTimeout (opts t) then _ else c1).
  assert (Hwire : websocket.wire c2 = websocket.wire (conn t)).
  { subst c2 c1. destruct (0 <? writeTimeout (opts t));
      now destruct (0 <? compressionMinSize (opts t)). }
  set (t2 := ws_set_conn t c2).
  assert (Hfail : forall c,
             websocket.wire c = websocket.wire (conn t) ->
             let t3 := fst (websocketTransport_Close fault now (ws_set_conn t c)
                              (Some sendError)) in
             ws_closed t3 = ws_closeCh t3 /\ ws_closeCh t3 = true /\
             payloads (websocket.wire (conn t3)) = payloads (websocket.wire (conn t))).
  { intros c Hc t3.
    destruct (ws_Close_keeps fault now (ws_set_conn t c) (Some sendError))
      as (_ & _ & _ & Hd & _).
    destruct (ws_Close_flags fault now (ws_set_conn t c) (Some sendError) Hagree)
      as [Hf1 Hf2].
    subst t3. unfold payloads. rewrite Hd. cbn [ws_set_conn conn]. rewrite Hc.
    split_and!; congruence. }
  unfold websocket.NextWriter.
  destruct (fault (conn t2) websocket.OpNextWriter); cbn [fst snd].
  - destruct (Hfail c2 Hwire) as (H1 & H2 & H3). now split_and!.
  - pose proof (write_payloads_spec fault now data data t2 [] 0) as HW.
    destruct (write_payloads fault now t2 data [] 0 data)
      as [[[t3 buffered] bytesOut] [e|]].
    + destruct HW as [[err ->] ->]. cbn [fst snd].
      destruct (Hfail c2 Hwire) as (H1 & H2 & H3). now split_and!.
    + destruct HW as (-> & -> & ->).
      unfold websocket.CloseWriter. cbn [app].
      destruct (fault (conn t2) websocket.OpCloseWriter); cbn [fst snd].
      * destruct (Hfail c2 Hwire) as (H1 & H2 & H3).
        change (ws_set_conn t2 (conn t2)) with t2. now split_and!.
      * subst t2. cbn [ws_set_conn conn ws_closed ws_closeCh opts].
        split_and!; [exact Hagree|exact Hopen|].
        destruct (0 <? writeTimeout (opts t)); cbn [websocket.SetWriteDeadline
          websocket.put websocket.wire]; rewrite Hwire, payloads_app; reflexivity.
Qed.

Variable clock : nat -> Time.

(** What the routine keeps of a websocket transport: the batches it was
    given while open are on the wire, one data frame each. *)
Lemma websocket_writeFn_calls (p0 : list bytes) (st : websocketTransport * nat)
    (log : list (list bytes * option error)) (msgs : list bytes) :
  let R (st : websocketTransport * nat) (log : list (list bytes * option error)) :=
    ws_closed (fst st) = ws_closeCh (fst st) /\
    exists good more,
      map fst log = good ++ more /\
      payloads (websocket.wire (conn (fst st))) = p0 ++ map (@concat byte) good /\
      (ws_closeCh (fst st) = false -> more = []) in
  R st log ->
  R (fst (websocket_writeFn fault clock st msgs))
    (log ++ [(msgs, snd (websocket_writeFn fault clock st msgs))]).
Proof.
  cbv zeta. intros (Hagree & good & more & Hlog & Hwire & Hopen).
  unfold websocket_writeFn. rewrite map_app, Hlog. cbn [map fst].
  destruct (ws_closeCh (fst st)) eqn:Hch.
  - (* closed: the call does nothing *)
    unfold websocketTransport_write. rewrite Hch. cbn [fst snd].
    split; [congruence|]. exists good, (more ++ [msgs]).
    rewrite app_assoc. split_and!; auto. congruence.
  - rewrite (Hopen eq_refl), app_nil_r in *.
    assert (Hagree' : ws_closed (fst st) = ws_closeCh (fst st)) by congruence.
    pose proof (ws_write_frames (clock (snd st)) (fst st) msgs Hagree' Hch) as HW.
    cbv zeta in HW.
    destruct (websocketTransport_write fault (clock (snd st)) (fst st) msgs)
      as [t' [[e|]|]]; cbn [fst snd] in *; destruct HW as (Ha & Hc & Hp);
      (split; [exact Ha|]).
    + exists good, [msgs]. split_and!; auto; congruence.
    + exists (good ++ [msgs]), []. rewrite app_nil_r, map_app, app_assoc.
      split_and!; auto. now rewrite Hp, Hwire.
    + exists good, [msgs]. split_and!; auto; congruence.
Qed.

(** X26.  The routine of a websocket connection, whose write function is
    [write] of the transport: when it stops, the payloads of the data
    frames that went onto the wire during the run are batches of one to
    four frames, each batch concatenated, and the batches one after the
    other are a prefix of the frames in the order in which they entered
    the queue.  If the transport is still open, every batch the routine
    took from the queue is on the wire. *)
Theorem runWriteRoutine_websocket_frames
    (fuel : nat) (w : writer) (env : list (list EnvAction)) (t : websocketTransport) :
  ws_closed t = ws_closeCh t ->
  let s0 := start w env (t, 0%nat) in
  let s' := snd (writer_runWriteRoutine (websocket_writeFn fault clock) fuel s0) in
  exists batches rest,
    arrivals s0 = concat batches ++ rest /\
    Forall (fun batch => 1 <= len batch <= 4) batches /\
    payloads (websocket.wire (conn (fst (r_transport s'))))
      = payloads (websocket.wire (conn t)) ++ map (@concat byte) batches /\
    (ws_closeCh (fst (r_transport s')) = false -> batches = map fst (r_written s')).
Proof.
  intros Hagree s0 s'.
  assert (HI : Inv (arrivals s0) s0) by (repeat split; cbn; auto).
  destruct (runWriteRoutine_spec (websocket_writeFn fault clock) _ fuel _ HI)
    as (Hb & [rest Hp] & _).
  pose proof (runWriteRoutine_calls (websocket_writeFn fault clock) _
                (websocket_writeFn_calls (payloads (websocket.wire (conn t))))
                fuel s0) as HR.
  cbv zeta in HR. fold s' in Hb, Hp, HR.
  destruct HR as (_ & good & more & Hlog & Hwire & Hopen).
  { cbn. split; [exact Hagree|]. exists [], []. cbn. rewrite app_nil_r.
    now split_and!. }
  exists good, (concat more ++ rest). split_and!.
  - now rewrite Hp, Hlog, concat_app, app_assoc.
  - assert (Hb' : Forall (fun batch => 1 <= len batch <= 4) (map fst (r_written s')))
      by (apply List.Forall_map; exact Hb).
    rewrite Hlog in Hb'. now apply Forall_app in Hb' as [Hb' _].
  - exact Hwire.
  - intros Hch. rewrite Hlog, (Hopen Hch). now rewrite app_nil_r.
Qed.

End WebsocketDelivery.

Section SockjsDelivery.

Context `{Externals}.
Variable fault : sockjs.Session -> sockjs.Op -> option error.

Lemma sockjs_Close_flags t d :
  sj_closed t = sj_closeCh t ->
  sj_closed (fst (sockjsTransport_Close fault t d)) = true /\
  sj_closeCh (fst (sockjsTransport_Close fault t d)) = true.
Proof.
  intros Hagree. unfold sockjsTransport_Close.
  destruct (sj_closed t) eqn:E; [now split|].
  destruct (json_Marshal _); [|now split].
  now destruct (sockjs.Close fault _ _ _).
Qed.

(** The loop of [write]: the flags agree afterwards, and the transport is
    closed exactly when a payload could not be sent. *)
Lemma sockjs_send_all_flags all data : forall t,
  sj_closed t = sj_closeCh t -> sj_closeCh t = false ->
  let r := sockjs_send_all fault t all data in
  sj_closed (fst r) = sj_closeCh (fst r) /\
  sj_closeCh (fst r) = match snd r with Some _ => true | None => false end.
Proof.
  induction data as [|payload rest IH]; intros t Hagree Hopen; cbn [sockjs_send_all].
  - cbn. now split.
  - cbv zeta. unfold sockjs.Send. cbn [session].
    destruct (fault (session t) (sockjs.OpSend payload)) as [err|].
    + cbn [fst snd].
      match goal with
      | |- context [sockjsTransport_Close fault ?t0 ?d] =>
          destruct (sockjs_Close_flags t0 d Hagree) as [H1 H2]
      end.
      split; congruence.
    + apply IH; cbn; assumption.
Qed.

Lemma sockjsTransport_write_calls (sent0 : list bytes) (t : sockjsTransport)
    (log : list (list bytes * option error)) (msgs : list bytes) :
  let R (t : sockjsTransport) (log : list (list bytes * option error)) :=
    sj_closed t = sj_closeCh t /\
    exists good more,
      concat (map fst log) = good ++ more /\
      sockjs.sent (session t) = sent0 ++ good /\
      (sj_closeCh t = false -> more = []) in
  R t log ->
  R (fst (sockjsTransport_write fault t msgs))
    (log ++ [(msgs, snd (sockjsTransport_write fault t msgs))]).
Proof.
  cbv zeta. intros (Hagree & good & more & Hlog & Hsent & Hopen).
  rewrite map_app, concat_app, Hlog. cbn [map fst concat]. rewrite app_nil_r.
  unfold sockjsTransport_write. destruct (sj_closeCh t) eqn:Hch.
  - cbn [fst snd]. split; [congruence|]. exists good, (more ++ msgs).
    rewrite app_assoc. split_and!; auto. congruence.
  - rewrite (Hopen eq_refl), app_nil_r in *.
    assert (Hagree' : sj_closed t = sj_closeCh t) by congruence.
    destruct (sockjs_send_all_flags msgs msgs t Hagree' Hch) as [Ha Hc].
    destruct (sockjs_send_all_spec fault msgs msgs t) as (k & _ & Hk & Hr).
    split; [exact Ha|]. exists (good ++ take k msgs), (drop k msgs).
    rewrite <- app_assoc, take_drop, Hk, Hsent, app_assoc. split_and!; auto.
    intros Hch'. destruct (snd (sockjs_send_all fault t msgs msgs)); [congruence|].
    destruct Hr as (-> & _). now rewrite drop_all.
Qed.

(** X27.  The routine of a SockJS connection, whose write function is
    [write] of the transport: the messages the session was given during
    the run, in order, are a prefix of the frames in the order in which
    they entered the queue, also when a batch was cut short by a failed
    [Send].  If the transport is still open, every frame the routine took
    from the queue was sent. *)
Theorem runWriteRoutine_sockjs_messages
    (fuel : nat) (w : writer) (env : list (list EnvAction)) (t : sockjsTransport) :
  sj_closed t = sj_closeCh t ->
  let s0 := start w env t in
  let s' := snd (writer_runWriteRoutine (sockjsTransport_write fault) fuel s0) in
  exists delivered rest,
    arrivals s0 = delivered ++ rest /\
    sockjs.sent (session (r_transport s'))
      = sockjs.sent (session t) ++ delivered /\
    (sj_closeCh (r_transport s') = false ->
     delivered = concat (map fst (r_written s'))).
Proof.
  intros Hagree s0 s'.
  assert (HI : Inv (arrivals s0) s0) by (repeat split; cbn; auto).
  destruct (runWriteRoutine_spec (sockjsTransport_write fault) _ fuel _ HI)
    as (_ & [rest Hp] & _).
  pose proof (runWriteRoutine_calls (sockjsTransport_write fault) _
                (sockjsTransport_write_calls (sockjs.sent (session t)))
                fuel s0) as HR.
  cbv zeta in HR. fold s' in Hp, HR.
  destruct HR as (_ & good & more & Hlog & Hsent & Hopen).
  { cbn. split; [exact Hagree|]. exists [], []. cbn. rewrite app_nil_r.
    now split_and!. }
  exists good, (more ++ rest). split_and!.
  - now rewrite Hp, Hlog, app_assoc.
  - exact Hsent.
  - intros Hch. rewrite Hlog, (Hopen Hch). now rewrite app_nil_r.
Qed.

End SockjsDelivery.

(** *** The API handler *)

Section APIFacts.

Context `{Library} {N : Type} `{apiproto.API N}.

Lemma respond_spec (n : N) enc cmd request :
  let r := respond n enc cmd request in
  let x := apiproto.Execute (apiproto.Method cmd) n request in
  fst (fst r) = fst x /\
  snd (fst r) = [] /\
  match snd r with
  | Ok rep =>
      apiproto.rID rep = apiproto.ID cmd /\
      (apiproto.rError rep = None \/ apiproto.rResult rep = None)
  | Err err =>
      exists res, snd x = (None, Some res) /\
                  apiproto.EncodeResult enc (apiproto.Method cmd) res = Err err
  end.
Proof.
  unfold respond.
  destruct (apiproto.Execute (apiproto.Method cmd) n request) as [n' [[e|] [res|]]];
    cbn [fst snd]; try (split_and!; auto; fail).
  destruct (apiproto.EncodeResult enc (apiproto.Method cmd) res) as [raw|err] eqn:E;
    cbn [fst snd]; split_and!; auto.
  exists res. auto.
Qed.

(** X13.  The reply [handleAPICommand] gives carries the ID of its command
    and never both an error and a result.  The function fails only when a
    result cannot be encoded, and then the call of the API has been made:
    the node is the one that call has left. *)
Theorem handleAPICommand_reply (n : N) enc cmd :
  let r := APIHandler_handleAPICommand n enc cmd in
  match snd r with
  | Ok rep =>
      apiproto.rID rep = apiproto.ID cmd /\
      (apiproto.rError rep = None \/ apiproto.rResult rep = None)
  | Err err =>
      exists request res,
        let x := apiproto.Execute (apiproto.Method cmd) n request in
        fst (fst r) = fst x /\ snd x = (None, Some res) /\
        apiproto.EncodeResult enc (apiproto.Method cmd) res = Err err
  end.
Proof.
  cbv zeta. unfold APIHandler_handleAPICommand.
  assert (Hr : forall request,
             match snd (respond n enc cmd request) with
             | Ok rep =>
                 apiproto.rID rep = apiproto.ID cmd /\
                 (apiproto.rError rep = None \/ apiproto.rResult rep = None)
             | Err err =>
                 exists request' res,
                   fst (fst (respond n enc cmd request))
                   = fst (apiproto.Execute (apiproto.Method cmd) n request') /\
                   snd (apiproto.Execute (apiproto.Method cmd) n request')
                   = (None, Some res) /\
                   apiproto.EncodeResult enc (apiproto.Method cmd) res = Err err
             end).
  { intros request. destruct (respond_spec n enc cmd request) as (Hn & _ & Hrep).
    destruct (snd (respond n enc cmd request)); [exact Hrep|].
    destruct Hrep as (res & Hx & He). exists request, res. auto. }
  destruct (apiproto.Method cmd) eqn:Em;
    try (destruct (apiproto.DecodeParams enc _ (apiproto.Params cmd));
         [apply Hr|cbn; auto]);
    try apply Hr.
  cbn. auto.
Qed.



Lemma node_after_app enc done : forall (n : N) rest,
  node_after n enc (done ++ rest) = node_after (node_after n enc done) enc rest.
Proof.
  induction done as [|cmd done IH]; intros n rest; [reflexivity|].
  cbn [app node_after]. apply IH.
Qed.



(** X15.  No API command is run for a request that is not authorised.
    [checkAuth] lets a request pass in insecure mode, and otherwise only
    when a key is configured and the [Authorization] header has two fields,
    the first of them ["apikey"] in whatever case and the second the key;
    any other request gets the status 401 and an empty body, and leaves the
    node as it was. *)
Theorem APIHandler_ServeHTTP_guard
    (config : APIConfig) (n : N) (r : http.Request) (w : http.ResponseWriter) :
  (fst (APIHandler_checkAuth config r) = true <->
   Insecure config = true \/
   (Key config <> ""%string /\
    exists method,
      strings_Fields (http.Authorization r) = [method; Key config] /\
      strings_ToLower method = "apikey"%string)) /\
  (fst (APIHandler_checkAuth config r) = false ->
   APIHandler_ServeHTTP config n r w
   = (n, snd (APIHandler_checkAuth config r),
      http.WriteHeader w http.StatusUnauthorized)).
Proof.
  split.
  - unfold APIHandler_checkAuth.
    destruct (String.eqb_spec (Key config) "") as [Hk|Hk];
      destruct (Insecure config) eqn:Ei; cbn [andb negb fst].
    + split; auto.
    + split; [discriminate|]. intros [?|[? _]]; [discriminate|contradiction].
    + split; auto.
    + destruct (strings_Fields (http.Authorization r)) as [|m [|k [|x l]]] eqn:Ef;
        cbn [fst];
        try (split; [discriminate|];
             intros [?|(_ & m' & Hm & _)]; discriminate).
      destruct (String.eqb_spec (strings_ToLower m) "apikey") as [Hm|Hm];
        destruct (String.eqb_spec k (Key config)) as [Hkk|Hkk]; cbn [negb orb fst].
      * split; auto. intros _. right. split; auto. exists m. subst k. auto.
      * split; [discriminate|]. intros [?|(_ & m' & [= -> ->] & _)];
          [discriminate|contradiction].
      * split; [discriminate|]. intros [?|(_ & m' & [= -> ->] & Hl)];
          [discriminate|contradiction].
      * split; [discriminate|]. intros [?|(_ & m' & [= -> ->] & Hl)];
          [discriminate|contradiction].
  - unfold APIHandler_ServeHTTP.
    destruct (APIHandler_checkAuth config r) as [ok log]. cbn [fst snd].
    now intros ->.
Qed.

End APIFacts.

(** *** The admin handler *)

Section AdminFacts.

Context `{Library} `{SecureCookie}.

(** X16.  Outside insecure mode [adminSecureTokenAuth] hands a request to
    the handler it wraps only when a secret is configured and the
    [Authorization] header has two fields, the first of them ["token"] in
    whatever case and the second a token [checkSecureAdminToken] accepts
    under the secret; any other request gets the status 401, and the
    wrapped handler is not run: the state is as it was. *)
Theorem adminSecureTokenAuth_guard {S : Type} (config : AdminConfig) (h : Handler S)
    (s : S) (r : http.Request) (w : http.ResponseWriter) :
  admin_Insecure config = false ->
  let R := AdminHandler_adminSecureTokenAuth config h s r w in
  let admitted :=
    Secret config <> ""%string /\
    exists method token,
      strings_Fields (http.Authorization r) = [method; token] /\
      strings_ToLower method = "token"%string /\
      checkSecureAdminToken (Secret config) token = true in
  (admitted -> R = h s r w) /\
  (~ admitted ->
   fst (fst R) = s /\ snd R = http.WriteHeader w http.StatusUnauthorized).
Proof.
  intros Hi R admitted. subst R admitted.
  unfold AdminHandler_adminSecureTokenAuth. rewrite Hi.
  destruct (String.eqb_spec (Secret config) "") as [Hs|Hs].
  - split; [intros [? _]; contradiction|]. now intros _.
  - destruct (strings_Fields (http.Authorization r)) as [|m [|k [|x l]]] eqn:Ef;
      try (split; [intros (_ & m' & k' & ? & _); discriminate|now intros _]).
    destruct (String.eqb_spec (strings_ToLower m) "token") as [Hm|Hm];
      destruct (checkSecureAdminToken (Secret config) k) eqn:Ek; cbn [negb orb].
    + split; [reflexivity|]. intros Hn. exfalso. apply Hn. split; auto.
      exists m, k. auto.
    + split; [|now intros _]. intros (_ & m' & k' & [= <- <-] & _ & Hc). congruence.
    + split; [|now intros _]. intros (_ & m' & k' & [= <- <-] & Hl & _). contradiction.
    + split; [|now intros _]. intros (_ & m' & k' & [= <- <-] & Hl & _). contradiction.
Qed.

(** X17.  Logging in opens the admin API.  With a password and a secret
    configured, a request to [authHandler] with the right password is
    answered with a token as JSON; and a request carrying that token after
    the word ["token"] in its [Authorization] header is handed by
    [adminSecureTokenAuth] to the API handler, which runs without a key
    check.  The cookie library is taken to decode what it encoded, and the
    header to split into its two words. *)
Theorem admin_login_opens_api {S N : Type} `{apiproto.API N}
    (config : AdminConfig) (s : S) (n : N)
    (login request : http.Request) (w : http.ResponseWriter) (token : string) :
  (forall key name value tok,
      securecookie_Encode key name value = Ok tok ->
      securecookie_Decode key name tok = Ok value) ->
  admin_Insecure config = false ->
  Password config <> ""%string -> Secret config <> ""%string ->
  http.FormPassword login = Password config ->
  generateSecureAdminToken (Secret config) = Ok token ->
  strings_Fields (http.Authorization request) = ["token"%string; token] ->
  strings_ToLower "token" = "token"%string ->
  AdminHandler_authHandler config s login http.fresh
    = (s, [], {| http.status := Some http.StatusOK;
                 http.contentType := Some "application/json"%string;
                 http.body := json_Encode_token token |}) /\
  admin_api config n request w
    = APIHandler_ServeHTTP {| Key := ""; Insecure := true |} n request w /\
  fst (APIHandler_checkAuth {| Key := ""; Insecure := true |} request) = true.
Proof.
  intros Hlaw Hi Hp Hs Hform Hgen Hfields Hlower. split_and!.
  - unfold AdminHandler_authHandler. rewrite Hi, Hform, Hgen.
    destruct (String.eqb_spec (Password config) ""); [contradiction|].
    destruct (String.eqb_spec (Secret config) ""); [contradiction|].
    cbn [orb]. rewrite String.eqb_refl. reflexivity.
  - unfold admin_api, AdminHandler_adminSecureTokenAuth. rewrite Hi, Hfields, Hlower.
    destruct (String.eqb_spec (Secret config) ""); [contradiction|].
    assert (Hc : checkSecureAdminToken (Secret config) token = true).
    { unfold checkSecureAdminToken. unfold generateSecureAdminToken in Hgen.
      rewrite (Hlaw _ _ _ _ Hgen). now rewrite String.eqb_refl. }
    rewrite Hc. reflexivity.
  - reflexivity.
Qed.

(** X18.  Outside insecure mode [authHandler] gives a token only for the
    configured password: whatever the request, its answer is the token
    [generateSecureAdminToken] makes from the secret, and then the form
    password is the configured one and neither it nor the secret is empty;
    or [Internal Server Error], when that token cannot be made; or
    [Bad Request].  It leaves the state as it was. *)
Theorem authHandler_token_only_for_password {S : Type}
    (config : AdminConfig) (s : S) (r : http.Request) (w : http.ResponseWriter) :
  admin_Insecure config = false ->
  let R := AdminHandler_authHandler config s r w in
  let json := http.SetContentType w "application/json" in
  fst (fst R) = s /\
  ((exists token,
       generateSecureAdminToken (Secret config) = Ok token /\
       snd R = http.Write json (json_Encode_token token) /\
       http.FormPassword r = Password config /\
       Password config <> ""%string /\ Secret config <> ""%string) \/
   (snd R = http.Error json "Internal Server Error" http.StatusInternalServerError /\
    http.FormPassword r = Password config /\
    exists err, generateSecureAdminToken (Secret config) = Err err) \/
   (snd R = http.Error w "Bad Request" http.StatusBadRequest /\
    (http.FormPassword r <> Password config \/
     Password config = ""%string \/ Secret config = ""%string))).
Proof.
  intros Hi R json. subst R json. unfold AdminHandler_authHandler. rewrite Hi.
  destruct (String.eqb_spec (Password config) "") as [Hp|Hp]; cbn [orb].
  - split; [reflexivity|]. right. right. auto.
  - destruct (String.eqb_spec (Secret config) "") as [Hs|Hs].
    + split; [reflexivity|]. right. right. auto.
    + destruct (String.eqb_spec (http.FormPassword r) (Password config)) as [Hf|Hf].
      * destruct (generateSecureAdminToken (Secret config)) as [token|err] eqn:Eg.
        -- split; [reflexivity|]. left. exists token. now split_and!.
        -- split; [reflexivity|]. right. left. split_and!; auto. now exists err.
      * split; [reflexivity|]. right. right. auto.
Qed.

End AdminFacts.

(** *** The wire format of the control messages *)

Section ControlFacts.

Import controlproto.

Lemma byte_val_uint8 (z : Z) : byte_val (uint8 z) = z mod 256.
Proof.
  unfold byte_val, uint8.
  assert (Hr : 0 <= z mod 256 < 256) by (apply Z.mod_pos_bound; lia).
  destruct (Byte.of_N (Z.to_N (z mod 256))) as [b|] eqn:E.
  - apply Byte.to_of_N in E. rewrite E. lia.
  - apply Byte.of_N_None_iff in E. lia.
Qed.

Lemma byte_val_range (b : byte) : 0 <= byte_val b < 256.
Proof. unfold byte_val. pose proof (Byte.to_N_bounded b). lia. Qed.

Lemma uint8_byte_val (b : byte) : uint8 (byte_val b) = b.
Proof.
  unfold uint8. pose proof (byte_val_range b) as Hr.
  rewrite Z.mod_small by lia. unfold byte_val. rewrite N2Z.id.
  now rewrite Byte.of_to_N.
Qed.

Lemma lor_disjoint (a b n : Z) :
  0 <= n -> 0 <= a < 2 ^ n -> Z.lor a (b * 2 ^ n) = a + b * 2 ^ n.
Proof.
  intros Hn Ha. symmetry. apply Z.add_nocarry_lor.
  apply Z.bits_inj'. intros i Hi. rewrite Z.land_spec, Z.bits_0.
  destruct (Z.lt_ge_cases i n) as [Hlt|Hge].
  - rewrite Z.mul_pow2_bits_low by lia. apply andb_false_r.
  - rewrite <- (Z.mod_small a (2 ^ n)) by lia.
    rewrite Z.mod_pow2_bits_high by lia. reflexivity.
Qed.

Lemma land_127 (v : Z) : Z.land v 127 = v mod 128.
Proof. change 127 with (Z.ones 7). rewrite Z.land_ones by lia. reflexivity. Qed.

Lemma continuation_byte (v : Z) :
  byte_val (uint8 (Z.lor (Z.land v 127) 128)) = v mod 128 + 128.
Proof.
  rewrite byte_val_uint8, land_127.
  assert (Hr : 0 <= v mod 128 < 128) by (apply Z.mod_pos_bound; lia).
  change 128 with (1 * 2 ^ 7) at 2. rewrite lor_disjoint by (cbn; lia).
  rewrite Z.mod_small; cbn; lia.
Qed.

Lemma shiftr_7 (v : Z) : Z.shiftr v 7 = v / 128.
Proof. rewrite Z.shiftr_div_pow2 by lia. reflexivity. Qed.

Lemma uint64_small (v : Z) : 0 <= v < 2 ^ 64 -> uint64 v = v.
Proof. intros Hv. unfold uint64. now rewrite Z.mod_small. Qed.

Lemma wrap64_small (v : Z) : - 2 ^ 63 <= v < 2 ^ 63 -> wrap64 v = v.
Proof. intros Hv. unfold wrap64. rewrite Z.mod_small; lia. Qed.

(** [sovControl] and the two encoders *)

Lemma sovControl_loop_acc rounds : forall n x,
  sovControl_loop rounds n x = n + sovControl_loop rounds 0 x.
Proof.
  induction rounds as [|rounds IH]; intros n x; cbn [sovControl_loop]; cbv zeta.
  - lia.
  - destruct (Z.shiftr x 7 =? 0); [lia|].
    rewrite (IH (n + 1)), (IH (0 + 1)). lia.
Qed.

Lemma sovControl_loop_range rounds : forall x,
  1 <= sovControl_loop rounds 0 x <= Z.of_nat rounds + 1.
Proof.
  induction rounds as [|rounds IH]; intros x; cbn [sovControl_loop]; cbv zeta.
  - lia.
  - destruct (Z.shiftr x 7 =? 0); [lia|].
    rewrite sovControl_loop_acc. specialize (IH (Z.shiftr x 7)). lia.
Qed.

Lemma encodeVarintPopulate_loop_acc rounds : forall dAtA v,
  encodeVarintPopulate_loop rounds dAtA v
  = dAtA ++ encodeVarintPopulate_loop rounds [] v.
Proof.
  induction rounds as [|rounds IH]; intros dAtA v; cbn [encodeVarintPopulate_loop].
  - reflexivity.
  - destruct (128 <=? v); [|reflexivity].
    rewrite (IH (dAtA ++ _)), (IH ([] ++ _)). now rewrite <- app_assoc.
Qed.

Lemma encodeVarintPopulate_loop_length rounds : forall v,
  0 <= v ->
  len (encodeVarintPopulate_loop rounds [] v) = sovControl_loop rounds 0 v.
Proof.
  induction rounds as [|rounds IH]; intros v Hv;
    cbn [encodeVarintPopulate_loop sovControl_loop]; cbv zeta.
  - reflexivity.
  - rewrite shiftr_7. destruct (Z.leb_spec 128 v) as [Hbig|Hsmall].
    + destruct (Z.eqb_spec (v / 128) 0) as [Hz|Hz].
      * exfalso. apply Z.div_small_iff in Hz; lia.
      * rewrite encodeVarintPopulate_loop_acc, len_app, sovControl_loop_acc.
        rewrite IH by (apply Z.div_pos; lia). reflexivity.
    + destruct (Z.eqb_spec (v / 128) 0) as [Hz|Hz]; [reflexivity|].
      exfalso. apply Hz. apply Z.div_small. lia.
Qed.

Lemma assign_middle (pre post : bytes) (x b : byte) :
  assign (pre ++ x :: post) (len pre) b = Return (pre ++ b :: post).
Proof.
  unfold assign, len. rewrite length_app. cbn [length].
  destruct (Z.leb_spec 0 (Z.of_nat (length pre))); [|lia].
  destruct (Z.ltb_spec (Z.of_nat (length pre)) (Z.of_nat (length pre + S (length post))));
    [|lia].
  cbn [andb]. rewrite Nat2Z.id. f_equal. unfold bytes.
  rewrite insert_app_r_alt by lia. now rewrite Nat.sub_diag.
Qed.

Lemma index_middle (pre post : bytes) (x : byte) :
  index (pre ++ x :: post) (len pre) = Return x.
Proof.
  unfold index, len. rewrite length_app. cbn [length].
  destruct (Z.leb_spec 0 (Z.of_nat (length pre))); [|lia].
  destruct (Z.ltb_spec (Z.of_nat (length pre)) (Z.of_nat (length pre + S (length post))));
    [|lia].
  cbn [andb]. rewrite Nat2Z.id. unfold bytes.
  rewrite lookup_app_r by lia. now rewrite Nat.sub_diag.
Qed.

Lemma len_snoc (pre : bytes) (b : byte) : len (pre ++ [b]) = len pre + 1.
Proof. rewrite len_app. reflexivity. Qed.

(** The loop of [encodeVarintControl] fills a gap of the right length with
    the bytes [encodeVarintPopulateControl] appends. *)
Lemma encodeVarint_loop_spec rounds : forall v (pre gap post : bytes),
  0 <= v < 2 ^ 64 ->
  len gap = sovControl_loop rounds 0 v ->
  encodeVarint_loop rounds (pre ++ gap ++ post) (len pre) v
  = Return (pre ++ encodeVarintPopulate_loop rounds [] v ++ post,
            len pre + sovControl_loop rounds 0 v).
Proof.
  induction rounds as [|rounds IH]; intros v pre gap post Hv Hgap;
    cbn [encodeVarint_loop encodeVarintPopulate_loop sovControl_loop] in *;
    cbv zeta in *.
  - destruct gap as [|x [|y gap]]; try (unfold len in Hgap; cbn in Hgap; lia).
    cbn [app]. rewrite assign_middle. reflexivity.
  - rewrite shiftr_7 in *. destruct (Z.leb_spec 128 v) as [Hbig|Hsmall].
    + destruct (Z.eqb_spec (v / 128) 0) as [Hz|Hz].
      { exfalso. apply Z.div_small_iff in Hz; lia. }
      rewrite sovControl_loop_acc in Hgap |- *.
      pose proof (sovControl_loop_range rounds (v / 128)) as Hr.
      destruct gap as [|x gap]; [unfold len in Hgap; cbn in Hgap; lia|].
      cbn [app]. rewrite assign_middle. cbn [bind].
      rewrite uint64_small by lia.
      set (B := uint8 (Z.lor (Z.land v 127) 128)).
      replace (pre ++ B :: gap ++ post) with ((pre ++ [B]) ++ gap ++ post)
        by (now rewrite <- app_assoc).
      replace (len pre + 1) with (len (pre ++ [B])) by apply len_snoc.
      rewrite IH.
      * rewrite (encodeVarintPopulate_loop_acc rounds [B]).
        rewrite len_snoc, <- !app_assoc. cbn [app]. f_equal. f_equal. lia.
      * split; [apply Z.div_pos; lia|]. apply Z.div_lt_upper_bound; lia.
      * unfold len in *. cbn [length] in Hgap. lia.
    + destruct (Z.eqb_spec (v / 128) 0) as [Hz|Hz].
      * destruct gap as [|x [|y gap]]; try (unfold len in Hgap; cbn in Hgap; lia).
        cbn [app]. rewrite assign_middle. reflexivity.
      * exfalso. apply Hz. apply Z.div_small. lia.
Qed.

(** One round of the reading loop on a byte that is there. *)
Lemma varint_loop_step conv rounds (pre post : bytes) (b : byte) shift acc :
  shift < 64 ->
  varint_loop conv rounds (pre ++ b :: post) (len pre) shift acc
  = let acc' := Z.lor acc (conv (Z.shiftl (Z.land (byte_val b) 127) shift)) in
    if byte_val b <? 128 then Return (acc', len pre + 1)
    else match rounds with
         | S rounds => varint_loop conv rounds (pre ++ b :: post) (len pre + 1)
                         (shift + 7) acc'
         | O => OutOfFuel
         end.
Proof.
  intros Hshift.
  assert (Hlen : (len (pre ++ b :: post) <=? len pre) = false).
  { apply Z.leb_gt. rewrite len_app. unfold len. cbn [length]. lia. }
  destruct rounds; cbn [varint_loop];
    (destruct (Z.leb_spec 64 shift); [lia|]);
    rewrite Hlen, index_middle; reflexivity.
Qed.

(** The reading loop gets back what the encoders wrote. *)
Lemma varint_loop_spec (conv : Z -> Z) (bound : Z) r :
  bound <= 2 ^ 64 ->
  (forall z, 0 <= z < bound -> conv z = z) ->
  forall rounds v (pre post : bytes) shift acc,
  0 <= v < 2 ^ (7 * (Z.of_nat r + 1)) ->
  0 <= shift -> shift + 7 * Z.of_nat r <= 63 ->
  0 <= acc < 2 ^ shift ->
  acc + v * 2 ^ shift < bound ->
  (r <= rounds)%nat ->
  varint_loop conv rounds (pre ++ encodeVarintPopulate_loop r [] v ++ post)
    (len pre) shift acc
  = Return (acc + v * 2 ^ shift, len pre + sovControl_loop r 0 v).
Proof.
  intros Hbound Hconv.
  assert (Hlast : forall rounds v (pre post : bytes) shift acc,
             0 <= v < 128 -> 0 <= shift <= 63 -> 0 <= acc < 2 ^ shift ->
             acc + v * 2 ^ shift < bound ->
             varint_loop conv rounds (pre ++ [uint8 v] ++ post) (len pre) shift acc
             = Return (acc + v * 2 ^ shift, len pre + 1)).
  { intros rounds v pre post shift acc Hv Hs Hacc Hsum. cbn [app].
    rewrite varint_loop_step by lia. cbv zeta.
    rewrite byte_val_uint8, (Z.mod_small v 256) by lia.
    destruct (Z.ltb_spec v 128); [|lia].
    rewrite land_127, (Z.mod_small v 128), Z.shiftl_mul_pow2 by lia.
    assert (0 <= v * 2 ^ shift) by (apply Z.mul_nonneg_nonneg; lia).
    rewrite Hconv by lia. now rewrite lor_disjoint by lia. }
  induction r as [|r IH]; intros rounds v pre post shift acc Hv Hs Hs63 Hacc Hsum Hr;
    cbn [encodeVarintPopulate_loop sovControl_loop]; cbv zeta.
  - cbn [app]. apply (Hlast rounds v pre post); lia.
  - rewrite shiftr_7. destruct (Z.leb_spec 128 v) as [Hbig|Hsmall].
    + destruct (Z.eqb_spec (v / 128) 0) as [Hz|Hz].
      { exfalso. apply Z.div_small_iff in Hz; lia. }
      assert (Hv64 : v < 2 ^ 64).
      { assert (1 <= 2 ^ shift) by (apply (Z.pow_le_mono_r 2 0 shift); lia). nia. }
      rewrite uint64_small by lia.
      set (B := uint8 (Z.lor (Z.land v 127) 128)).
      rewrite (encodeVarintPopulate_loop_acc r [B]), <- app_assoc. cbn [app].
      rewrite varint_loop_step by lia. cbv zeta.
      subst B. rewrite continuation_byte.
      assert (Hm : 0 <= v mod 128 < 128) by (apply Z.mod_pos_bound; lia).
      destruct (Z.ltb_spec (v mod 128 + 128) 128); [lia|].
      destruct rounds as [|rounds]; [lia|].
      set (B := uint8 (Z.lor (Z.land v 127) 128)).
      replace (pre ++ B :: encodeVarintPopulate_loop r [] (v / 128) ++ post)
        with ((pre ++ [B]) ++ encodeVarintPopulate_loop r [] (v / 128) ++ post)
        by (now rewrite <- app_assoc).
      replace (len pre + 1) with (len (pre ++ [B])) by apply len_snoc.
      assert (Hland : Z.land (v mod 128 + 128) 127 = v mod 128).
      { rewrite land_127. rewrite <- (Z.mul_1_l 128) at 2.
        rewrite Z.mod_add by lia. apply Z.mod_small. lia. }
      rewrite Hland, Z.shiftl_mul_pow2 by lia.
      assert (Hpow : 2 ^ (shift + 7) = 2 ^ shift * 128)
        by (rewrite Z.pow_add_r by lia; reflexivity).
      assert (Hp : 0 < 2 ^ shift) by (apply Z.pow_pos_nonneg; lia).
      assert (Hdm : v = 128 * (v / 128) + v mod 128) by (apply Z.div_mod; lia).
      assert (Hq : 0 <= v / 128) by (apply Z.div_pos; lia).
      assert (Hlow : 0 <= v mod 128 * 2 ^ shift < bound) by nia.
      rewrite Hconv by lia.
      rewrite lor_disjoint by lia.
      rewrite IH.
      * rewrite len_snoc, (sovControl_loop_acc r (0 + 1)), Hpow.
        f_equal. f_equal; [|lia].
        rewrite Hdm at 3. ring.
      * split; [lia|]. apply Z.div_lt_upper_bound; [lia|].
        replace (7 * (Z.of_nat (S r) + 1)) with (7 + 7 * (Z.of_nat r + 1)) in Hv by lia.
        rewrite Z.pow_add_r in Hv by lia. change (2 ^ 7) with 128 in Hv. lia.
      * lia.
      * lia.
      * rewrite Hpow. nia.
      * rewrite Hpow. nia.
      * lia.
    + destruct (Z.eqb_spec (v / 128) 0) as [Hz|Hz].
      * apply (Hlast rounds v pre post); lia.
      * exfalso. apply Hz. apply Z.div_small. lia.
Qed.

Lemma encodeVarintControl_spec v (pre gap post : bytes) :
  0 <= v < 2 ^ 64 -> len gap = sovControl v ->
  encodeVarintControl (pre ++ gap ++ post) (len pre) v
  = Return (pre ++ encodeVarintPopulateControl [] v ++ post, len pre + sovControl v).
Proof. apply encodeVarint_loop_spec. Qed.

Lemma varint_spec v (pre post : bytes) :
  0 <= v < 2 ^ 64 ->
  varint uint64 (pre ++ encodeVarintPopulateControl [] v ++ post) (len pre)
  = Return (v, len pre + sovControl v).
Proof.
  intros Hv. unfold varint, encodeVarintPopulateControl, sovControl.
  rewrite (varint_loop_spec uint64 (2 ^ 64) 9 ltac:(lia) uint64_small 10 v pre post 0 0);
    [f_equal; f_equal; lia|..]; try (cbn; lia).
Qed.

Lemma varint_int_spec v (pre post : bytes) :
  0 <= v < 2 ^ 63 ->
  varint wrap64 (pre ++ encodeVarintPopulateControl [] v ++ post) (len pre)
  = Return (v, len pre + sovControl v).
Proof.
  intros Hv. unfold varint, encodeVarintPopulateControl, sovControl.
  assert (Hconv : forall z, 0 <= z < 2 ^ 63 -> wrap64 z = z)
    by (intros z Hz; apply wrap64_small; lia).
  rewrite (varint_loop_spec wrap64 (2 ^ 63) 9 ltac:(lia) Hconv 10 v pre post 0 0);
    [f_equal; f_equal; lia|..]; try (cbn; lia).
Qed.


(** X19.  [encodeVarintControl] writes into the slice, from the offset on,
    the bytes that [encodeVarintPopulateControl] appends, and they are as
    many as [sovControl] says, between one and ten; it returns the offset
    after them. *)
Theorem encodeVarintControl_writes v (pre gap post : bytes) :
  0 <= v < 2 ^ 64 ->
  len gap = sovControl v ->
  encodeVarintControl (pre ++ gap ++ post) (len pre) v
  = Return (encodeVarintPopulateControl pre v ++ post, len pre + sovControl v) /\
  len (encodeVarintPopulateControl pre v) = len pre + sovControl v /\
  1 <= sovControl v <= 10.
Proof.
  intros Hv Hgap. unfold encodeVarintPopulateControl.
  rewrite (encodeVarintPopulate_loop_acc 9 pre), <- app_assoc, len_app.
  rewrite encodeVarintPopulate_loop_length by lia. split_and!.
  - now apply encodeVarintControl_spec.
  - reflexivity.
  - apply (sovControl_loop_range 9 v).
  - apply (sovControl_loop_range 9 v).
Qed.

(** X20.  The loop with which [Unmarshal] and [skipControl] read a varint
    gets back the value [encodeVarintControl] wrote, and ends at the offset
    [encodeVarintControl] returned. *)
Theorem varint_reads_what_encodeVarintControl_wrote v (pre gap post dAtA : bytes) offset :
  0 <= v < 2 ^ 64 ->
  len gap = sovControl v ->
  encodeVarintControl (pre ++ gap ++ post) (len pre) v = Return (dAtA, offset) ->
  varint uint64 dAtA (len pre) = Return (v, offset).
Proof.
  intros Hv Hgap. rewrite encodeVarintControl_spec by assumption.
  intros [= <- <-]. now apply varint_spec.
Qed.

(** The messages *)

Lemma len_list_byte_of_string (s : string) : len (list_byte_of_string s) = strlen s.
Proof.
  unfold len, strlen. f_equal. unfold list_byte_of_string.
  rewrite length_map. induction s as [|a s IH]; cbn; [reflexivity|now rewrite IH].
Qed.

Lemma strlen_nonneg (s : string) : 0 <= strlen s.
Proof. unfold strlen. lia. Qed.

Lemma strlen_0 (s : string) : strlen s = 0 -> s = ""%string.
Proof. destruct s; [reflexivity|]. unfold strlen. cbn. lia. Qed.

Lemma len_nonneg {A} (l : list A) : 0 <= len l.
Proof. unfold len. lia. Qed.

Lemma len_field_bytes tag s :
  strlen s < 2 ^ 63 -> len (field_bytes tag s) = size_string 0 s.
Proof.
  intros Hs. pose proof (strlen_nonneg s). unfold field_bytes, size_string.
  destruct (0 <? strlen s); [|reflexivity].
  change (tag :: ?l) with ([tag] ++ l). rewrite !len_app, len_list_byte_of_string.
  unfold encodeVarintPopulateControl.
  rewrite encodeVarintPopulate_loop_length by lia.
  rewrite uint64_small by lia. unfold sovControl, len. cbn [length]. lia.
Qed.

Lemma size_string_acc n s : size_string n s = n + size_string 0 s.
Proof. unfold size_string. destruct (0 <? strlen s); lia. Qed.

Lemma split_gap (gap : bytes) a b :
  0 <= a -> 0 <= b -> len gap = a + b ->
  exists g1 g2, gap = g1 ++ g2 /\ len g1 = a /\ len g2 = b.
Proof.
  intros Ha Hb Hlen. exists (take (Z.to_nat a) gap), (drop (Z.to_nat a) gap).
  rewrite take_drop. unfold len in *. rewrite length_take, length_drop.
  split_and!; [reflexivity|lia|lia].
Qed.

Lemma copy_middle (pre gap post src : bytes) :
  len gap = len src ->
  copy (pre ++ gap ++ post) (len pre) src = Return (pre ++ src ++ post, len src).
Proof.
  intros Hgap. unfold copy. rewrite !len_app.
  pose proof (len_nonneg pre). pose proof (len_nonneg post). pose proof (len_nonneg src).
  destruct (Z.leb_spec 0 (len pre)); [|lia].
  destruct (Z.leb_spec (len pre) (len pre + (len gap + len post))); [|lia].
  cbn [andb]. rewrite Z.min_r by lia. f_equal. f_equal.
  unfold len in *. unfold bytes in *.
  rewrite take_app_length' by lia.
  rewrite firstn_all2 by lia.
  replace (Z.to_nat (Z.of_nat (length pre) + Z.of_nat (length src)))
    with (length pre + length gap)%nat by lia.
  rewrite drop_app_add, drop_app_length. reflexivity.
Qed.

Lemma slice_middle (pre mid post : bytes) :
  slice (pre ++ mid ++ post) (len pre) (len pre + len mid) = Return mid.
Proof.
  unfold slice. rewrite !len_app.
  pose proof (len_nonneg pre). pose proof (len_nonneg post). pose proof (len_nonneg mid).
  destruct (Z.leb_spec 0 (len pre)); [|lia].
  destruct (Z.leb_spec (len pre) (len pre + len mid)); [|lia].
  destruct (Z.leb_spec (len pre + len mid) (len pre + (len mid + len post))); [|lia].
  cbn [andb]. f_equal. unfold len in *. unfold bytes in *.
  rewrite drop_app_length' by lia. rewrite take_app_length' by lia. reflexivity.
Qed.

Lemma sovControl_range x : 1 <= sovControl x <= 10.
Proof. apply (sovControl_loop_range 9 x). Qed.

Lemma len_cons {A} (x : A) (l : list A) : len (x :: l) = 1 + len l.
Proof. unfold len. cbn [length]. lia. Qed.

(** What [MarshalTo] does for a string field, on a gap of the right
    length. *)
Lemma marshal_string_spec tag s (pre gap post : bytes) :
  strlen s < 2 ^ 63 ->
  len gap = len (field_bytes tag s) ->
  marshal_string tag s (pre ++ gap ++ post) (len pre)
  = Return (pre ++ field_bytes tag s ++ post, len pre + len (field_bytes tag s)).
Proof.
  intros Hs Hgap. pose proof (strlen_nonneg s) as H0.
  rewrite len_field_bytes in * by assumption.
  unfold marshal_string, field_bytes, size_string in *.
  destruct (Z.ltb_spec 0 (strlen s)) as [Hpos|Hzero].
  - rewrite uint64_small in * by lia.
    pose proof (sovControl_range (strlen s)) as Hsov.
    destruct gap as [|x gap]; [change (len (@nil byte)) with 0 in Hgap; lia|].
    rewrite len_cons in Hgap.
    destruct (split_gap gap (sovControl (strlen s)) (strlen s)) as (g1 & g2 & -> & H1 & H2);
      [lia|lia|lia|].
    cbn [app]. rewrite assign_middle. cbn [bind].
    replace (pre ++ tag :: (g1 ++ g2) ++ post) with ((pre ++ [tag]) ++ g1 ++ (g2 ++ post))
      by (now rewrite <- !app_assoc).
    replace (len pre + 1) with (len (pre ++ [tag])) by apply len_snoc.
    rewrite encodeVarintControl_spec by lia. cbn [bind].
    set (V := encodeVarintPopulateControl [] (strlen s)).
    assert (HV : len V = sovControl (strlen s)).
    { subst V. unfold encodeVarintPopulateControl.
      now rewrite encodeVarintPopulate_loop_length by lia. }
    replace ((pre ++ [tag]) ++ V ++ g2 ++ post) with (((pre ++ [tag]) ++ V) ++ g2 ++ post)
      by (now rewrite <- !app_assoc).
    replace (len (pre ++ [tag]) + sovControl (strlen s)) with (len ((pre ++ [tag]) ++ V))
      by (rewrite (len_app _ V); lia).
    rewrite copy_middle by (rewrite len_list_byte_of_string; lia). cbn [bind].
    rewrite <- !app_assoc. cbn [app]. f_equal. f_equal.
    rewrite len_app, len_cons, len_list_byte_of_string. lia.
  - destruct gap; [|rewrite len_cons in Hgap; pose proof (len_nonneg gap); lia].
    cbn [app]. f_equal. f_equal. change (len (@nil byte)) with 0. lia.
Qed.

Lemma make_spec size :
  0 <= size -> exists dAtA, make size = Return dAtA /\ len dAtA = size.
Proof.
  intros Hs. unfold make. destruct (Z.ltb_spec size 0); [lia|].
  eexists. split; [reflexivity|]. unfold len. rewrite repeat_length. lia.
Qed.

Lemma slice_all (dAtA : bytes) : slice dAtA 0 (len dAtA) = Return dAtA.
Proof.
  pose proof (slice_middle [] dAtA []) as H. rewrite app_nil_r in H. exact H.
Qed.

Lemma size_string_nonneg s : strlen s < 2 ^ 63 -> 0 <= size_string 0 s.
Proof. intros Hs. rewrite <- (len_field_bytes "000"%byte s Hs). apply len_nonneg. Qed.

Lemma Disconnect_Marshal_spec (m : Disconnect) :
  strlen (Disconnect_User m) < 2 ^ 63 ->
  Disconnect_Marshal m = Return (field_bytes "010" (Disconnect_User m)).
Proof.
  destruct m as [user]. cbn [Disconnect_User]. intros Hu.
  unfold Disconnect_Marshal, Disconnect_Size, Disconnect_MarshalTo.
  cbn [Disconnect_User]. cbv zeta.
  pose proof (len_field_bytes "010"%byte user Hu) as Hlen.
  destruct (make_spec (size_string 0 user)) as (dAtA & -> & Hd);
    [now apply size_string_nonneg|].
  cbn [bind].
  pose proof (marshal_string_spec "010"%byte user [] dAtA []) as HM.
  rewrite !app_nil_r in HM. cbn [app] in HM. change (len []) with 0 in HM.
  rewrite HM by lia. cbn [bind]. rewrite Z.add_0_l.
  apply slice_all.
Qed.

Lemma Unsubscribe_Marshal_spec (m : Unsubscribe) :
  strlen (Unsubscribe_Channel m) < 2 ^ 63 ->
  strlen (Unsubscribe_User m) < 2 ^ 63 ->
  Unsubscribe_Marshal m
  = Return (field_bytes "010" (Unsubscribe_Channel m)
              ++ field_bytes "018" (Unsubscribe_User m)).
Proof.
  destruct m as [channel user]. cbn [Unsubscribe_Channel Unsubscribe_User].
  intros Hc Hu.
  unfold Unsubscribe_Marshal, Unsubscribe_Size, Unsubscribe_MarshalTo.
  cbn [Unsubscribe_Channel Unsubscribe_User]. cbv zeta.
  pose proof (len_field_bytes "010"%byte channel Hc) as Hlc.
  pose proof (len_field_bytes "018"%byte user Hu) as Hlu.
  pose proof (size_string_nonneg channel Hc). pose proof (size_string_nonneg user Hu).
  rewrite (size_string_acc _ user).
  destruct (make_spec (size_string 0 channel + size_string 0 user))
    as (dAtA & -> & Hd); [lia|].
  cbn [bind].
  destruct (split_gap dAtA (size_string 0 channel) (size_string 0 user))
    as (g1 & g2 & -> & H1 & H2); [lia|lia|lia|].
  pose proof (marshal_string_spec "010"%byte channel [] g1 g2) as HM1.
  cbn [app] in HM1. change (len []) with 0 in HM1.
  rewrite HM1 by lia. cbn [bind]. rewrite Z.add_0_l.
  pose proof (marshal_string_spec "018"%byte user (field_bytes "010" channel) g2 [])
    as HM2.
  rewrite !app_nil_r in HM2. rewrite HM2 by lia. cbn [bind].
  rewrite <- len_app. apply slice_all.
Qed.

(** X21.  [Marshal] does not panic: the slice it makes, of [Size()] bytes,
    is filled by [MarshalTo] to the last byte.  What it returns is, for
    each string field that is not empty and in the order of the field
    numbers, the tag byte of the field, the length of the string as a
    varint, and the bytes of the string. *)
Theorem Marshal_fills_Size :
  (forall m : Disconnect,
      strlen (Disconnect_User m) < 2 ^ 63 ->
      exists dAtA,
        Disconnect_Marshal m = Return dAtA /\
        len dAtA = Disconnect_Size m /\
        dAtA = field_bytes "010" (Disconnect_User m)) /\
  (forall m : Unsubscribe,
      strlen (Unsubscribe_Channel m) < 2 ^ 63 ->
      strlen (Unsubscribe_User m) < 2 ^ 63 ->
      exists dAtA,
        Unsubscribe_Marshal m = Return dAtA /\
        len dAtA = Unsubscribe_Size m /\
        dAtA = field_bytes "010" (Unsubscribe_Channel m)
                 ++ field_bytes "018" (Unsubscribe_User m)).
Proof.
  split.
  - intros m Hu. eexists. split; [now apply Disconnect_Marshal_spec|].
    split; [|reflexivity]. unfold Disconnect_Size. now apply len_field_bytes.
  - intros m Hc Hu. eexists. split; [now apply Unsubscribe_Marshal_spec|].
    split; [|reflexivity]. unfold Unsubscribe_Size.
    rewrite len_app, size_string_acc, !len_field_bytes by assumption. reflexivity.
Qed.

(** Reading a tag of one byte. *)
Lemma read_tag (pre post : bytes) (tag : byte) :
  byte_val tag < 128 ->
  varint uint64 (pre ++ tag :: post) (len pre) = Return (byte_val tag, len pre + 1).
Proof.
  intros Htag. pose proof (byte_val_range tag) as Hr. unfold varint.
  rewrite varint_loop_step by lia. cbv zeta.
  destruct (Z.ltb_spec (byte_val tag) 128); [|lia].
  rewrite land_127, Z.mod_small, Z.shiftl_0_r, uint64_small, Z.lor_0_l by lia.
  reflexivity.
Qed.

Lemma wrap64_high (z : Z) : 2 ^ 63 <= z < 2 ^ 63 + 2 ^ 64 -> wrap64 z = z - 2 ^ 64.
Proof.
  intros Hz. unfold wrap64.
  replace (z + 2 ^ 63) with (z - 2 ^ 63 + 1 * 2 ^ 64) by lia.
  rewrite Z.mod_add by lia. rewrite Z.mod_small by lia. lia.
Qed.

(** What [Unmarshal] does for a string field that is all there. *)
Lemma unmarshal_string_spec s (pre post : bytes) :
  let dAtA := pre ++ encodeVarintPopulateControl [] (strlen s)
                ++ list_byte_of_string s ++ post in
  len dAtA < 2 ^ 63 ->
  unmarshal_string dAtA (len pre)
  = Return (s, len pre + sovControl (strlen s) + strlen s).
Proof.
  intros dAtA Hfit. subst dAtA.
  pose proof (strlen_nonneg s) as H0. pose proof (len_nonneg pre) as Hp.
  pose proof (len_nonneg post) as Hq. pose proof (sovControl_range (strlen s)) as Hsov.
  set (V := encodeVarintPopulateControl [] (strlen s)) in *.
  assert (HV : len V = sovControl (strlen s)).
  { subst V. unfold encodeVarintPopulateControl.
    now rewrite encodeVarintPopulate_loop_length by lia. }
  rewrite !len_app, len_list_byte_of_string, HV in Hfit.
  unfold unmarshal_string. subst V. rewrite varint_spec by lia. cbn [bind].
  set (V := encodeVarintPopulateControl [] (strlen s)) in *.
  rewrite (wrap64_small (strlen s)) by lia.
  destruct (Z.ltb_spec (strlen s) 0); [lia|].
  rewrite wrap64_small by lia.
  rewrite !len_app, len_list_byte_of_string, HV.
  destruct (Z.ltb_spec (len pre + (sovControl (strlen s) + (strlen s + len post)))
              (len pre + sovControl (strlen s) + strlen s)); [lia|].
  replace (pre ++ V ++ list_byte_of_string s ++ post)
    with ((pre ++ V) ++ list_byte_of_string s ++ post) by (now rewrite <- !app_assoc).
  replace (len pre + sovControl (strlen s)) with (len (pre ++ V))
    by (rewrite len_app; lia).
  rewrite <- len_list_byte_of_string, slice_middle. cbn [bind].
  now rewrite string_of_list_byte_of_string.
Qed.

(** And for one whose length runs over the range of [int] when it is added
    to the index. *)
Lemma unmarshal_string_panics n (pre post : bytes) :
  0 <= n < 2 ^ 63 -> len pre < 2 ^ 62 ->
  2 ^ 63 <= len pre + sovControl n + n ->
  unmarshal_string (pre ++ encodeVarintPopulateControl [] n ++ post) (len pre)
  = Panic "slice bounds out of range".
Proof.
  intros Hn Hpre Hover.
  pose proof (len_nonneg pre) as Hp. pose proof (sovControl_range n) as Hsov.
  unfold unmarshal_string. rewrite varint_spec by lia. cbn [bind].
  rewrite (wrap64_small n) by lia.
  destruct (Z.ltb_spec n 0); [lia|].
  rewrite wrap64_high by lia.
  pose proof (len_nonneg (pre ++ encodeVarintPopulateControl [] n ++ post)) as Hl.
  destruct (Z.ltb_spec (len (pre ++ encodeVarintPopulateControl [] n ++ post))
              (len pre + sovControl n + n - 2 ^ 64)); [lia|].
  unfold slice.
  destruct (Z.leb_spec (len pre + sovControl n)
              (len pre + sovControl n + n - 2 ^ 64)); [lia|].
  now rewrite andb_false_r.
Qed.

Lemma tag_010 : byte_val "010" = 10.
Proof. reflexivity. Qed.

Lemma tag_018 : byte_val "018" = 18.
Proof. reflexivity. Qed.

Lemma Disconnect_loop_end fuel m (dAtA : bytes) :
  Disconnect_Unmarshal_loop fuel m dAtA (len dAtA) = Return m.
Proof. destruct fuel; cbn [Disconnect_Unmarshal_loop]; now rewrite Z.ltb_irrefl. Qed.

Lemma Unsubscribe_loop_end fuel m (dAtA : bytes) :
  Unsubscribe_Unmarshal_loop fuel m dAtA (len dAtA) = Return m.
Proof. destruct fuel; cbn [Unsubscribe_Unmarshal_loop]; now rewrite Z.ltb_irrefl. Qed.

(** One round of the loop of [Unmarshal] on the field [User]. *)
Lemma Disconnect_loop_User fuel m (pre rest : bytes) :
  Disconnect_Unmarshal_loop (S fuel) m (pre ++ "010"%byte :: rest) (len pre)
  = bind (unmarshal_string ((pre ++ ["010"%byte]) ++ rest) (len (pre ++ ["010"%byte])))
      (fun '(s, iNdEx) =>
         Disconnect_Unmarshal_loop fuel {| Disconnect_User := s |}
           ((pre ++ ["010"%byte]) ++ rest) iNdEx).
Proof.
  cbn [Disconnect_Unmarshal_loop]. cbv zeta.
  assert (Hlt : (len pre <? len (pre ++ "010"%byte :: rest)) = true).
  { apply Z.ltb_lt. rewrite len_app, len_cons. pose proof (len_nonneg rest). lia. }
  rewrite Hlt, read_tag by (rewrite tag_010; lia). cbn [bind]. rewrite tag_010.
  change (Z.land 10 7 =? 4) with false. change (int32 (Z.shiftr 10 3) <=? 0) with false.
  change (int32 (Z.shiftr 10 3) =? 1) with true. change (Z.land 10 7 =? 2) with true.
  cbn [negb]. rewrite len_snoc, <- app_assoc. reflexivity.
Qed.

(** One round of the loop of [Unmarshal] on the fields [Channel] and
    [User]. *)
Lemma Unsubscribe_loop_Channel fuel m (pre rest : bytes) :
  Unsubscribe_Unmarshal_loop (S fuel) m (pre ++ "010"%byte :: rest) (len pre)
  = bind (unmarshal_string ((pre ++ ["010"%byte]) ++ rest) (len (pre ++ ["010"%byte])))
      (fun '(s, iNdEx) =>
         Unsubscribe_Unmarshal_loop fuel
           {| Unsubscribe_Channel := s; Unsubscribe_User := Unsubscribe_User m |}
           ((pre ++ ["010"%byte]) ++ rest) iNdEx).
Proof.
  cbn [Unsubscribe_Unmarshal_loop]. cbv zeta.
  assert (Hlt : (len pre <? len (pre ++ "010"%byte :: rest)) = true).
  { apply Z.ltb_lt. rewrite len_app, len_cons. pose proof (len_nonneg rest). lia. }
  rewrite Hlt, read_tag by (rewrite tag_010; lia). cbn [bind]. rewrite tag_010.
  change (Z.land 10 7 =? 4) with false. change (int32 (Z.shiftr 10 3) <=? 0) with false.
  change (int32 (Z.shiftr 10 3) =? 1) with true. change (Z.land 10 7 =? 2) with true.
  cbn [negb]. rewrite len_snoc, <- app_assoc. reflexivity.
Qed.

Lemma Unsubscribe_loop_User fuel m (pre rest : bytes) :
  Unsubscribe_Unmarshal_loop (S fuel) m (pre ++ "018"%byte :: rest) (len pre)
  = bind (unmarshal_string ((pre ++ ["018"%byte]) ++ rest) (len (pre ++ ["018"%byte])))
      (fun '(s, iNdEx) =>
         Unsubscribe_Unmarshal_loop fuel
           {| Unsubscribe_Channel := Unsubscribe_Channel m; Unsubscribe_User := s |}
           ((pre ++ ["018"%byte]) ++ rest) iNdEx).
Proof.
  cbn [Unsubscribe_Unmarshal_loop]. cbv zeta.
  assert (Hlt : (len pre <? len (pre ++ "018"%byte :: rest)) = true).
  { apply Z.ltb_lt. rewrite len_app, len_cons. pose proof (len_nonneg rest). lia. }
  rewrite Hlt, read_tag by (rewrite tag_018; lia). cbn [bind]. rewrite tag_018.
  change (Z.land 18 7 =? 4) with false. change (int32 (Z.shiftr 18 3) <=? 0) with false.
  change (int32 (Z.shiftr 18 3) =? 1) with false.
  change (int32 (Z.shiftr 18 3) =? 2) with true. change (Z.land 18 7 =? 2) with true.
  cbn [negb]. rewrite len_snoc, <- app_assoc. reflexivity.
Qed.

Lemma strlen_of_size s : size_string 0 s <= maxInt64 -> strlen s < 2 ^ 63.
Proof.
  unfold size_string, maxInt64. pose proof (sovControl_range (uint64 (strlen s))).
  destruct (Z.ltb_spec 0 (strlen s)); lia.
Qed.

Lemma field_bytes_empty tag s : strlen s = 0 -> field_bytes tag s = [].
Proof. unfold field_bytes. now intros ->. Qed.

Lemma field_bytes_cons tag s :
  0 < strlen s ->
  field_bytes tag s
  = tag :: encodeVarintPopulateControl [] (strlen s) ++ list_byte_of_string s.
Proof. unfold field_bytes. intros Hs. destruct (Z.ltb_spec 0 (strlen s)); [reflexivity|lia]. Qed.

(** A round of the loops on a field written by [MarshalTo]. *)
Lemma Disconnect_loop_field fuel m s (pre post : bytes) :
  0 < strlen s ->
  len (pre ++ field_bytes "010" s ++ post) < 2 ^ 63 ->
  Disconnect_Unmarshal_loop (S fuel) m (pre ++ field_bytes "010" s ++ post) (len pre)
  = Disconnect_Unmarshal_loop fuel {| Disconnect_User := s |}
      (pre ++ field_bytes "010" s ++ post) (len pre + len (field_bytes "010" s)).
Proof.
  intros Hs Hfit. rewrite field_bytes_cons in * by assumption.
  set (V := encodeVarintPopulateControl [] (strlen s)) in *.
  set (B := list_byte_of_string s) in *.
  assert (E : pre ++ ("010"%byte :: V ++ B) ++ post = pre ++ "010"%byte :: (V ++ B ++ post))
    by (cbn [app]; now rewrite <- app_assoc).
  assert (E' : (pre ++ ["010"%byte]) ++ V ++ B ++ post = pre ++ "010"%byte :: (V ++ B ++ post))
    by (now rewrite <- app_assoc).
  rewrite E in *. rewrite Disconnect_loop_User. rewrite <- E' in Hfit.
  subst V B. rewrite (unmarshal_string_spec s (pre ++ ["010"%byte]) post Hfit).
  cbn [bind]. rewrite E'. f_equal.
  rewrite len_snoc, len_cons, len_app, len_list_byte_of_string.
  unfold encodeVarintPopulateControl, sovControl.
  rewrite encodeVarintPopulate_loop_length by lia. lia.
Qed.

Lemma Unsubscribe_loop_field_Channel fuel m s (pre post : bytes) :
  0 < strlen s ->
  len (pre ++ field_bytes "010" s ++ post) < 2 ^ 63 ->
  Unsubscribe_Unmarshal_loop (S fuel) m (pre ++ field_bytes "010" s ++ post) (len pre)
  = Unsubscribe_Unmarshal_loop fuel
      {| Unsubscribe_Channel := s; Unsubscribe_User := Unsubscribe_User m |}
      (pre ++ field_bytes "010" s ++ post) (len pre + len (field_bytes "010" s)).
Proof.
  intros Hs Hfit. rewrite field_bytes_cons in * by assumption.
  set (V := encodeVarintPopulateControl [] (strlen s)) in *.
  set (B := list_byte_of_string s) in *.
  assert (E : pre ++ ("010"%byte :: V ++ B) ++ post = pre ++ "010"%byte :: (V ++ B ++ post))
    by (cbn [app]; now rewrite <- app_assoc).
  assert (E' : (pre ++ ["010"%byte]) ++ V ++ B ++ post = pre ++ "010"%byte :: (V ++ B ++ post))
    by (now rewrite <- app_assoc).
  rewrite E in *. rewrite Unsubscribe_loop_Channel. rewrite <- E' in Hfit.
  subst V B. rewrite (unmarshal_string_spec s (pre ++ ["010"%byte]) post Hfit).
  cbn [bind]. rewrite E'. f_equal.
  rewrite len_snoc, len_cons, len_app, len_list_byte_of_string.
  unfold encodeVarintPopulateControl, sovControl.
  rewrite encodeVarintPopulate_loop_length by lia. lia.
Qed.

Lemma Unsubscribe_loop_field_User fuel m s (pre post : bytes) :
  0 < strlen s ->
  len (pre ++ field_bytes "018" s ++ post) < 2 ^ 63 ->
  Unsubscribe_Unmarshal_loop (S fuel) m (pre ++ field_bytes "018" s ++ post) (len pre)
  = Unsubscribe_Unmarshal_loop fuel
      {| Unsubscribe_Channel := Unsubscribe_Channel m; Unsubscribe_User := s |}
      (pre ++ field_bytes "018" s ++ post) (len pre + len (field_bytes "018" s)).
Proof.
  intros Hs Hfit. rewrite field_bytes_cons in * by assumption.
  set (V := encodeVarintPopulateControl [] (strlen s)) in *.
  set (B := list_byte_of_string s) in *.
  assert (E : pre ++ ("018"%byte :: V ++ B) ++ post = pre ++ "018"%byte :: (V ++ B ++ post))
    by (cbn [app]; now rewrite <- app_assoc).
  assert (E' : (pre ++ ["018"%byte]) ++ V ++ B ++ post = pre ++ "018"%byte :: (V ++ B ++ post))
    by (now rewrite <- app_assoc).
  rewrite E in *. rewrite Unsubscribe_loop_User. rewrite <- E' in Hfit.
  subst V B. rewrite (unmarshal_string_spec s (pre ++ ["018"%byte]) post Hfit).
  cbn [bind]. rewrite E'. f_equal.
  rewrite len_snoc, len_cons, len_app, len_list_byte_of_string.
  unfold encodeVarintPopulateControl, sovControl.
  rewrite encodeVarintPopulate_loop_length by lia. lia.
Qed.

Lemma field_bytes_long tag s : 0 < strlen s -> (2 <= length (field_bytes tag s))%nat.
Proof.
  intros Hs. rewrite field_bytes_cons by assumption.
  pose proof (sovControl_range (strlen s)) as Hsov. unfold sovControl in Hsov.
  rewrite <- encodeVarintPopulate_loop_length in Hsov by lia.
  unfold len, encodeVarintPopulateControl in *. cbn [length]. rewrite length_app. lia.
Qed.

(** X22.  [Unmarshal] gets back what [Marshal] wrote: for a message whose
    encoding fits a slice, [Marshal] returns bytes from which [Unmarshal],
    on a message that was reset, returns the message. *)
Theorem Unmarshal_Marshal :
  (forall m : Disconnect,
      Disconnect_Size m <= maxInt64 ->
      exists dAtA, Disconnect_Marshal m = Return dAtA /\
                   Disconnect_Unmarshal Disconnect_Reset dAtA = Return m) /\
  (forall m : Unsubscribe,
      Unsubscribe_Size m <= maxInt64 ->
      exists dAtA, Unsubscribe_Marshal m = Return dAtA /\
                   Unsubscribe_Unmarshal Unsubscribe_Reset dAtA = Return m).
Proof.
  split.
  - intros [user] Hsize. unfold Disconnect_Size in Hsize. cbn [Disconnect_User] in Hsize.
    pose proof (strlen_of_size user Hsize) as Hu.
    eexists. split; [now apply Disconnect_Marshal_spec|]. cbn [Disconnect_User].
    rewrite <- (len_field_bytes "010"%byte user Hu) in Hsize.
    pose proof (strlen_nonneg user) as H0.
    unfold Disconnect_Unmarshal.
    destruct (Z.eq_dec (strlen user) 0) as [Hz|Hz].
    + rewrite (strlen_0 user Hz). reflexivity.
    + pose proof (Disconnect_loop_field (length (field_bytes "010" user))
                    Disconnect_Reset user [] []) as HL.
      rewrite !app_nil_r in HL. cbn [app] in HL. change (len []) with 0 in HL.
      unfold maxInt64 in Hsize.
      rewrite HL by lia. rewrite Z.add_0_l. apply Disconnect_loop_end.
  - intros [channel user] Hsize. unfold Unsubscribe_Size in Hsize.
    cbn [Unsubscribe_Channel Unsubscribe_User] in Hsize.
    rewrite size_string_acc in Hsize.
    pose proof (strlen_nonneg channel) as Hc0. pose proof (strlen_nonneg user) as Hu0.
    assert (Hc : strlen channel < 2 ^ 63).
    { apply strlen_of_size. unfold size_string in *. unfold maxInt64 in *.
      pose proof (sovControl_range (uint64 (strlen channel))).
      pose proof (sovControl_range (uint64 (strlen user))).
      destruct (0 <? strlen channel); destruct (0 <? strlen user); lia. }
    assert (Hu : strlen user < 2 ^ 63).
    { apply strlen_of_size. unfold size_string in *. unfold maxInt64 in *.
      pose proof (sovControl_range (uint64 (strlen channel))).
      pose proof (sovControl_range (uint64 (strlen user))).
      destruct (0 <? strlen channel); destruct (0 <? strlen user); lia. }
    eexists. split; [now apply Unsubscribe_Marshal_spec|].
    cbn [Unsubscribe_Channel Unsubscribe_User].
    rewrite <- (len_field_bytes "010"%byte channel Hc) in Hsize.
    rewrite <- (len_field_bytes "018"%byte user Hu) in Hsize.
    unfold maxInt64 in Hsize. unfold Unsubscribe_Unmarshal.
    set (dAtA := field_bytes "010" channel ++ field_bytes "018" user).
    assert (Hfit : len dAtA < 2 ^ 63) by (subst dAtA; rewrite len_app; lia).
    destruct (Z.eq_dec (strlen channel) 0) as [Hcz|Hcz];
      destruct (Z.eq_dec (strlen user) 0) as [Huz|Huz].
    + subst dAtA. rewrite !field_bytes_empty by assumption.
      rewrite (strlen_0 channel Hcz), (strlen_0 user Huz). reflexivity.
    + subst dAtA. rewrite (field_bytes_empty _ channel Hcz) in *. cbn [app] in *.
      rewrite (strlen_0 channel Hcz).
      pose proof (Unsubscribe_loop_field_User (length (field_bytes "018" user))
                    Unsubscribe_Reset user [] []) as HL.
      rewrite !app_nil_r in HL. cbn [app] in HL. change (len []) with 0 in HL.
      rewrite HL by lia. rewrite Z.add_0_l. apply Unsubscribe_loop_end.
    + subst dAtA. rewrite (field_bytes_empty _ user Huz) in *. rewrite app_nil_r in *.
      rewrite (strlen_0 user Huz).
      pose proof (Unsubscribe_loop_field_Channel (length (field_bytes "010" channel))
                    Unsubscribe_Reset channel [] []) as HL.
      rewrite !app_nil_r in HL. cbn [app] in HL. change (len []) with 0 in HL.
      rewrite HL by lia. rewrite Z.add_0_l. apply Unsubscribe_loop_end.
    + pose proof (field_bytes_long "010"%byte channel ltac:(lia)) as Hl1.
      pose proof (field_bytes_long "018"%byte user ltac:(lia)) as Hl2.
      assert (Hlen : (2 <= length dAtA)%nat)
        by (subst dAtA; rewrite length_app; lia).
      destruct (length dAtA) as [|fuel] eqn:E; [lia|].
      pose proof (Unsubscribe_loop_field_Channel (S fuel) Unsubscribe_Reset channel []
                    (field_bytes "018" user)) as HL1.
      cbn [app] in HL1. change (len []) with 0 in HL1. fold dAtA in HL1.
      rewrite HL1 by lia. rewrite Z.add_0_l.
      pose proof (Unsubscribe_loop_field_User fuel
                    {| Unsubscribe_Channel := channel;
                       Unsubscribe_User := Unsubscribe_User Unsubscribe_Reset |}
                    user (field_bytes "010" channel) []) as HL2.
      rewrite !app_nil_r in HL2. fold dAtA in HL2.
      rewrite HL2 by lia. cbn [Unsubscribe_Channel].
      replace (len (field_bytes "010" channel) + len (field_bytes "018" user))
        with (len dAtA) by (subst dAtA; now rewrite len_app).
      apply Unsubscribe_loop_end.
Qed.

(** X23.  [Unmarshal] panics on a field whose length, a varint below
    [1<<63], runs over the range of [int] when it is added to the index:
    the sum wraps round to a negative [postIndex], which passes the check
    [postIndex > l] and is then used as a slice bound. *)
Theorem Unmarshal_panics_on_long_length n (post : bytes) :
  0 <= n < 2 ^ 63 ->
  2 ^ 63 <= 1 + sovControl n + n ->
  let length_and_rest := encodeVarintPopulateControl [] n ++ post in
  (forall m, Disconnect_Unmarshal m ("010"%byte :: length_and_rest)
             = Panic "slice bounds out of range") /\
  (forall m, Unsubscribe_Unmarshal m ("010"%byte :: length_and_rest)
             = Panic "slice bounds out of range") /\
  (forall m, Unsubscribe_Unmarshal m ("018"%byte :: length_and_rest)
             = Panic "slice bounds out of range").
Proof.
  intros Hn Hover rest.
  assert (HP : forall tag : byte,
             unmarshal_string (([] ++ [tag]) ++ rest) (len ([] ++ [tag]))
             = Panic "slice bounds out of range").
  { intros tag. apply unmarshal_string_panics; [lia|reflexivity|].
    change (len ([] ++ [tag])) with 1. lia. }
  split_and!; intros m.
  - unfold Disconnect_Unmarshal. cbn [length].
    change ("010"%byte :: rest) with ([] ++ "010"%byte :: rest).
    change 0 with (len (@nil byte)) at 1.
    rewrite Disconnect_loop_User, HP. reflexivity.
  - unfold Unsubscribe_Unmarshal. cbn [length].
    change ("010"%byte :: rest) with ([] ++ "010"%byte :: rest).
    change 0 with (len (@nil byte)) at 1.
    rewrite Unsubscribe_loop_Channel, HP. reflexivity.
  - unfold Unsubscribe_Unmarshal. cbn [length].
    change ("018"%byte :: rest) with ([] ++ "018"%byte :: rest).
    change 0 with (len (@nil byte)) at 1.
    rewrite Unsubscribe_loop_User, HP. reflexivity.
Qed.

(** The loop of [skipControl] that passes over a varint. *)
Lemma skip_varint_loop_spec r : forall rounds v (pre post : bytes) shift,
  0 <= v < 2 ^ (7 * (Z.of_nat r + 1)) -> v < 2 ^ 64 ->
  0 <= shift -> shift + 7 * Z.of_nat r <= 63 ->
  (r <= rounds)%nat ->
  skip_varint_loop rounds (pre ++ encodeVarintPopulate_loop r [] v ++ post)
    (len pre) shift
  = Return (len pre + sovControl_loop r 0 v).
Proof.
  assert (Hstep : forall rounds (pre post : bytes) (b : byte) shift,
             shift < 64 ->
             skip_varint_loop rounds (pre ++ b :: post) (len pre) shift
             = if byte_val b <? 128 then Return (len pre + 1)
               else match rounds with
                    | S rounds => skip_varint_loop rounds (pre ++ b :: post)
                                    (len pre + 1) (shift + 7)
                    | O => OutOfFuel
                    end).
  { intros rounds pre post b shift Hshift.
    assert (Hlen : (len (pre ++ b :: post) <=? len pre) = false).
    { apply Z.leb_gt. rewrite len_app, len_cons. pose proof (len_nonneg post). lia. }
    destruct rounds; cbn [skip_varint_loop];
      (destruct (Z.leb_spec 64 shift); [lia|]);
      rewrite Hlen; cbv zeta; rewrite Z.add_simpl_r, index_middle; reflexivity. }
  assert (Hlast : forall rounds v (pre post : bytes) shift,
             0 <= v < 128 -> 0 <= shift <= 63 ->
             skip_varint_loop rounds (pre ++ [uint8 v] ++ post) (len pre) shift
             = Return (len pre + 1)).
  { intros rounds v pre post shift Hv Hs. cbn [app]. rewrite Hstep by lia.
    rewrite byte_val_uint8, (Z.mod_small v 256) by lia.
    destruct (Z.ltb_spec v 128); [reflexivity|lia]. }
  induction r as [|r IH]; intros rounds v pre post shift Hv Hv64 Hs Hs63 Hr;
    cbn [encodeVarintPopulate_loop sovControl_loop]; cbv zeta.
  - apply (Hlast rounds v pre post); lia.
  - rewrite shiftr_7. destruct (Z.leb_spec 128 v) as [Hbig|Hsmall].
    + destruct (Z.eqb_spec (v / 128) 0) as [Hz|Hz].
      { exfalso. apply Z.div_small_iff in Hz; lia. }
      rewrite uint64_small by lia.
      set (B := uint8 (Z.lor (Z.land v 127) 128)).
      rewrite (encodeVarintPopulate_loop_acc r [B]), <- app_assoc. cbn [app].
      rewrite Hstep by lia. subst B. rewrite continuation_byte.
      assert (Hm : 0 <= v mod 128 < 128) by (apply Z.mod_pos_bound; lia).
      destruct (Z.ltb_spec (v mod 128 + 128) 128); [lia|].
      destruct rounds as [|rounds]; [lia|].
      set (B := uint8 (Z.lor (Z.land v 127) 128)).
      replace (pre ++ B :: encodeVarintPopulate_loop r [] (v / 128) ++ post)
        with ((pre ++ [B]) ++ encodeVarintPopulate_loop r [] (v / 128) ++ post)
        by (now rewrite <- app_assoc).
      replace (len pre + 1) with (len (pre ++ [B])) by apply len_snoc.
      rewrite IH.
      * rewrite len_snoc, (sovControl_loop_acc r (0 + 1)). f_equal. lia.
      * split; [apply Z.div_pos; lia|]. apply Z.div_lt_upper_bound; [lia|].
        replace (7 * (Z.of_nat (S r) + 1)) with (7 + 7 * (Z.of_nat r + 1)) in Hv by lia.
        rewrite Z.pow_add_r in Hv by lia. change (2 ^ 7) with 128 in Hv. lia.
      * apply Z.div_lt_upper_bound; lia.
      * lia.
      * lia.
      * lia.
    + destruct (Z.eqb_spec (v / 128) 0) as [Hz|Hz].
      * apply (Hlast rounds v pre post); lia.
      * exfalso. apply Hz. apply Z.div_small. lia.
Qed.

(** X24.  [skipControl] returns the number of bytes the field at the head
    of its argument is encoded in, by the wire type in its tag: the tag and
    a varint (type 0), the tag and eight or four bytes (types 1 and 5), the
    tag, a length and as many bytes as the length says (type 2), the tag
    alone (type 4); types 6 and 7 are errors.  For the types 1, 2 and 5 it
    does not look whether the bytes are there: the count may be more than
    the slice is long. *)
Theorem skipControl_field_length (tag : byte) (rest : bytes) :
  byte_val tag < 128 ->
  let wireType := Z.land (byte_val tag) 7 in
  (wireType = 0 ->
   forall v post, 0 <= v < 2 ^ 64 ->
     rest = encodeVarintPopulateControl [] v ++ post ->
     skipControl (tag :: rest) = Return (1 + sovControl v)) /\
  (wireType = 1 -> skipControl (tag :: rest) = Return 9) /\
  (wireType = 2 ->
   forall n post, 0 <= n -> n + 11 < 2 ^ 63 ->
     rest = encodeVarintPopulateControl [] n ++ post ->
     skipControl (tag :: rest) = Return (1 + sovControl n + n)) /\
  (wireType = 4 -> skipControl (tag :: rest) = Return 1) /\
  (wireType = 5 -> skipControl (tag :: rest) = Return 5) /\
  (wireType = 6 \/ wireType = 7 ->
   skipControl (tag :: rest) = Fail "proto: illegal wireType").
Proof.
  intros Htag wireType. subst wireType.
  assert (Hhead : skipControl (tag :: rest)
                  = let iNdEx := 1 in
                    let wireType := Z.land (byte_val tag) 7 in
                    if wireType =? 0 then skip_varint_loop 10 (tag :: rest) iNdEx 0
                    else if wireType =? 1 then Return (iNdEx + 8)
                    else if wireType =? 2 then
                      bind (varint wrap64 (tag :: rest) iNdEx)
                        (fun '(length, iNdEx) =>
                           let iNdEx := wrap64 (iNdEx + length) in
                           if length <? 0 then Fail ErrInvalidLengthControl
                           else Return iNdEx)
                    else if wireType =? 3
                         then skipGroup (2 * length (tag :: rest)) (tag :: rest) iNdEx
                    else if wireType =? 4 then Return iNdEx
                    else if wireType =? 5 then Return (iNdEx + 4)
                    else Fail "proto: illegal wireType").
  { unfold skipControl.
    replace (2 * length (tag :: rest) + 1)%nat with (S (2 * length (tag :: rest)))
      by lia.
    cbn [skipControl_from]. cbv zeta.
    assert (Hlt : (0 <? len (tag :: rest)) = true).
    { apply Z.ltb_lt. rewrite len_cons. pose proof (len_nonneg rest). lia. }
    rewrite Hlt. pose proof (read_tag [] rest tag Htag) as Hr.
    cbn [app] in Hr. change (len []) with 0 in Hr. rewrite Hr. reflexivity. }
  rewrite Hhead. cbv zeta. split_and!.
  - intros -> v post Hv ->. change (0 =? 0) with true. cbv iota.
    pose proof (skip_varint_loop_spec 9 10 v [tag] post 0) as HS.
    cbn [app] in HS. change (len [tag]) with 1 in HS.
    unfold encodeVarintPopulateControl, sovControl. apply HS; lia.
  - intros ->. reflexivity.
  - intros -> n post Hn Hfit ->. change (2 =? 0) with false. change (2 =? 1) with false.
    change (2 =? 2) with true. cbv iota.
    pose proof (varint_int_spec n [tag] post) as HV.
    cbn [app] in HV. change (len [tag]) with 1 in HV.
    rewrite HV by lia. cbn [bind]. cbv zeta.
    pose proof (sovControl_range n).
    destruct (Z.ltb_spec n 0); [lia|]. now rewrite wrap64_small by lia.
  - intros ->. reflexivity.
  - intros ->. reflexivity.
  - intros [-> | ->]; reflexivity.
Qed.

End ControlFacts.

(** *** The loops of the generated code come to an end *)

Section ControlTermination.

Import controlproto.

Lemma wrap64_range (z : Z) : - 2 ^ 63 <= wrap64 z < 2 ^ 63.
Proof. unfold wrap64. pose proof (Z.mod_pos_bound (z + 2 ^ 63) (2 ^ 64)). lia. Qed.

Lemma index_Return (dAtA : bytes) i :
  match index dAtA i with
  | Return _ => 0 <= i < len dAtA
  | Panic _ => True
  | _ => False
  end.
Proof.
  unfold index. destruct (Z.leb_spec 0 i); destruct (Z.ltb_spec i (len dAtA));
    cbn [andb]; try exact I.
  destruct (dAtA !! Z.to_nat i); [lia|exact I].
Qed.

Lemma slice_Return (dAtA : bytes) low high :
  match slice dAtA low high with
  | Return s => 0 <= low <= high /\ high <= len dAtA /\ len s = high - low
  | Panic _ => True
  | _ => False
  end.
Proof.
  unfold slice. destruct (Z.leb_spec 0 low); destruct (Z.leb_spec low high);
    destruct (Z.leb_spec high (len dAtA)); cbn [andb]; try exact I.
  split_and!; try lia. unfold len in *. rewrite length_take, length_drop. lia.
Qed.

(** A run of the loop that reads a varint ends, and where it returns it
    has moved on. *)
Lemma varint_loop_total conv rounds : forall (dAtA : bytes) i shift acc,
  70 <= shift + 7 * Z.of_nat rounds ->
  match varint_loop conv rounds dAtA i shift acc with
  | Return (_, i') => 0 <= i /\ i < i' /\ i' <= len dAtA
  | OutOfFuel => False
  | _ => True
  end.
Proof.
  induction rounds as [|rounds IH]; intros dAtA i shift acc Hr; cbn [varint_loop].
  - destruct (Z.leb_spec 64 shift); [exact I|lia].
  - destruct (Z.leb_spec 64 shift); [exact I|].
    destruct (Z.leb_spec (len dAtA) i); [exact I|].
    pose proof (index_Return dAtA i) as Hi.
    destruct (index dAtA i) as [b| | |]; cbn [bind]; try exact I; try contradiction.
    cbv zeta. destruct (byte_val b <? 128); [lia|].
    specialize (IH dAtA (i + 1) (shift + 7)
                  (Z.lor acc (conv (Z.shiftl (Z.land (byte_val b) 127) shift)))).
    destruct (varint_loop conv rounds dAtA (i + 1) (shift + 7) _) as [[v i']| | |];
      try exact I; (specialize (IH ltac:(lia))); [lia|exact IH].
Qed.

Lemma varint_total conv (dAtA : bytes) i :
  match varint conv dAtA i with
  | Return (_, i') => 0 <= i /\ i < i' /\ i' <= len dAtA
  | OutOfFuel => False
  | _ => True
  end.
Proof. apply varint_loop_total. lia. Qed.

Lemma skip_varint_loop_total rounds : forall (dAtA : bytes) i shift,
  70 <= shift + 7 * Z.of_nat rounds ->
  match skip_varint_loop rounds dAtA i shift with
  | Return i' => 0 <= i /\ i < i' /\ i' <= len dAtA
  | OutOfFuel => False
  | _ => True
  end.
Proof.
  induction rounds as [|rounds IH]; intros dAtA i shift Hr; cbn [skip_varint_loop].
  - destruct (Z.leb_spec 64 shift); [exact I|lia].
  - destruct (Z.leb_spec 64 shift); [exact I|].
    destruct (Z.leb_spec (len dAtA) i); [exact I|].
    cbv zeta. rewrite Z.add_simpl_r.
    pose proof (index_Return dAtA i) as Hi.
    destruct (index dAtA i) as [b| | |]; cbn [bind]; try exact I; try contradiction.
    destruct (byte_val b <? 128); [lia|].
    specialize (IH dAtA (i + 1) (shift + 7)).
    destruct (skip_varint_loop rounds dAtA (i + 1) (shift + 7)) as [i'| | |];
      try exact I; (specialize (IH ltac:(lia))); [lia|exact IH].
Qed.

(** The length read into an [int] is in the range of [int]. *)
Lemma wrap64_top_bit (m : Z) :
  wrap64 (m * 2 ^ 63) = 0 \/ wrap64 (m * 2 ^ 63) = (-1) * 2 ^ 63.
Proof.
  unfold wrap64. pose proof (Z.div_mod m 2 ltac:(lia)) as Hm.
  pose proof (Z.mod_pos_bound m 2 ltac:(lia)) as Hr.
  replace (m * 2 ^ 63 + 2 ^ 63) with ((m mod 2 + 1) * 2 ^ 63 + (m / 2) * 2 ^ 64) by lia.
  rewrite Z.mod_add by lia.
  assert (Hc : m mod 2 = 0 \/ m mod 2 = 1) by lia.
  destruct Hc as [-> | ->]; [left|right]; reflexivity.
Qed.

Lemma varint_int_step k acc m :
  0 <= k <= 9 -> 0 <= acc < 2 ^ (7 * k) -> 0 <= m < 128 ->
  let acc' := Z.lor acc (wrap64 (Z.shiftl m (7 * k))) in
  - 2 ^ 63 <= acc' < 2 ^ 63 /\ (k <= 8 -> 0 <= acc' < 2 ^ (7 * (k + 1))).
Proof.
  intros Hk Hacc Hm. cbv zeta. rewrite Z.shiftl_mul_pow2 by lia.
  assert (Hp : 0 < 2 ^ (7 * k)) by (apply Z.pow_pos_nonneg; lia).
  destruct (Z.le_gt_cases k 8) as [Hlow|Hhigh].
  - assert (Hpow : 2 ^ (7 * (k + 1)) = 2 ^ (7 * k) * 128).
    { replace (7 * (k + 1)) with (7 * k + 7) by lia.
      rewrite Z.pow_add_r by lia. reflexivity. }
    assert (Hle : 2 ^ (7 * k) <= 2 ^ 56) by (apply Z.pow_le_mono_r; lia).
    rewrite wrap64_small by nia. rewrite lor_disjoint by lia. rewrite Hpow. nia.
  - assert (k = 9) by lia. subst k. change (7 * 9) with 63 in *.
    split; [|lia].
    destruct (wrap64_top_bit m) as [-> | ->].
    + rewrite Z.lor_0_r. lia.
    + rewrite lor_disjoint by lia. lia.
Qed.

Lemma varint_loop_overflow conv rounds (dAtA : bytes) i shift acc :
  64 <= shift ->
  varint_loop conv rounds dAtA i shift acc = Fail ErrIntOverflowControl.
Proof.
  intros Hs. destruct rounds; cbn [varint_loop];
    (destruct (Z.leb_spec 64 shift); [reflexivity|lia]).
Qed.

Lemma varint_int_loop_range rounds : forall (dAtA : bytes) i k acc,
  0 <= k -> 0 <= acc < 2 ^ (7 * k) ->
  match varint_loop wrap64 rounds dAtA i (7 * k) acc with
  | Return (v, _) => - 2 ^ 63 <= v < 2 ^ 63
  | _ => True
  end.
Proof.
  assert (Hm : forall b, 0 <= Z.land (byte_val b) 127 < 128).
  { intros b. rewrite land_127. apply Z.mod_pos_bound. lia. }
  induction rounds as [|rounds IH]; intros dAtA i k acc Hk Hacc; cbn [varint_loop];
    (destruct (Z.leb_spec 64 (7 * k)); [exact I|]);
    (destruct (Z.leb_spec (len dAtA) i); [exact I|]);
    (destruct (index dAtA i) as [b| | |]; cbn [bind]; try exact I);
    cbv zeta;
    destruct (varint_int_step k acc (Z.land (byte_val b) 127) ltac:(lia) Hacc (Hm b))
      as [Hrange Hnext];
    (destruct (byte_val b <? 128); [exact Hrange|]); [exact I|].
  destruct (Z.le_gt_cases k 8) as [Hlow|Hhigh].
  - replace (7 * k + 7) with (7 * (k + 1)) by lia. apply IH; [lia|]. now apply Hnext.
  - rewrite varint_loop_overflow by lia. exact I.
Qed.

Lemma varint_int_range (dAtA : bytes) i :
  match varint wrap64 dAtA i with
  | Return (v, _) => - 2 ^ 63 <= v < 2 ^ 63
  | _ => True
  end.
Proof.
  unfold varint. apply (varint_int_loop_range 10 dAtA i 0 0); [lia|].
  change (2 ^ (7 * 0)) with 1. lia.
Qed.

Lemma skip_total fuel :
  (forall dAtA : bytes,
      len dAtA < 2 ^ 62 -> (2 * length dAtA <= fuel)%nat -> (1 <= fuel)%nat ->
      match skipControl_from fuel dAtA with
      | Return n => skipped n
      | OutOfFuel => False
      | _ => True
      end) /\
  (forall (dAtA : bytes) i,
      len dAtA < 2 ^ 62 -> (1 <= fuel)%nat ->
      (0 <= i < len dAtA -> 2 * (len dAtA - i) + 1 <= Z.of_nat fuel) ->
      match skipGroup fuel dAtA i with
      | Return n => 1 <= n <= len dAtA
      | OutOfFuel => False
      | _ => True
      end).
Proof.
  induction fuel as [|fuel [IHc IHg]]; [split; intros; lia|].
  split.
  - intros dAtA Hfit Hfuel _. cbn [skipControl_from]. cbv zeta.
    destruct (Z.ltb_spec 0 (len dAtA)) as [Hpos|]; [|exact I].
    pose proof (varint_total uint64 dAtA 0) as Hv.
    destruct (varint uint64 dAtA 0) as [[wire i1]| | |]; cbn [bind];
      try exact I; try contradiction.
    unfold skipped.
    destruct (Z.land wire 7 =? 0).
    { pose proof (skip_varint_loop_total 10 dAtA i1 0 ltac:(lia)) as Hs.
      destruct (skip_varint_loop 10 dAtA i1 0); try exact I; try contradiction. lia. }
    destruct (Z.land wire 7 =? 1); [lia|].
    destruct (Z.land wire 7 =? 2).
    { pose proof (varint_total wrap64 dAtA i1) as Hl.
      pose proof (varint_int_range dAtA i1) as Hr.
      destruct (varint wrap64 dAtA i1) as [[length i2]| | |]; cbn [bind];
        try exact I; try contradiction.
      cbv zeta. destruct (Z.ltb_spec length 0); [exact I|].
      destruct (Z.lt_ge_cases (i2 + length) (2 ^ 63)).
      - rewrite wrap64_small by lia. lia.
      - rewrite wrap64_high by lia. lia. }
    destruct (Z.land wire 7 =? 3).
    { specialize (IHg dAtA i1 Hfit).
      unfold len in *.
      destruct (skipGroup fuel dAtA i1); try exact I;
        (specialize (IHg ltac:(lia) ltac:(lia))); [lia|exact IHg]. }
    destruct (Z.land wire 7 =? 4); [lia|].
    destruct (Z.land wire 7 =? 5); [lia|exact I].
  - intros dAtA i Hfit _ Hfuel. cbn [skipGroup]. cbv zeta.
    pose proof (varint_total uint64 dAtA i) as Hv.
    destruct (varint uint64 dAtA i) as [[innerWire i1]| | |]; cbn [bind];
      try exact I; try contradiction.
    destruct (Z.land innerWire 7 =? 4); [lia|].
    pose proof (slice_Return dAtA i (len dAtA)) as Hs.
    destruct (slice dAtA i (len dAtA)) as [rest| | |]; cbn [bind];
      try exact I; try contradiction.
    destruct Hs as (_ & _ & Hrest).
    specialize (Hfuel ltac:(lia)).
    specialize (IHc rest).
    unfold len in Hrest.
    destruct (skipControl_from fuel rest) as [next| | |]; cbn [bind]; try exact I;
      (specialize (IHc ltac:(unfold len in *; lia) ltac:(unfold len in *; lia)
                       ltac:(unfold len in *; lia))); [|exact IHc].
    specialize (IHg dAtA (wrap64 (i + next)) Hfit ltac:(unfold len in *; lia)).
    assert (Hnext : 0 <= wrap64 (i + next) < len dAtA ->
                    2 * (len dAtA - wrap64 (i + next)) + 1 <= Z.of_nat fuel).
    { destruct IHc as [Hn|Hn].
      - destruct (Z.lt_ge_cases (i + next) (2 ^ 63)).
        + rewrite wrap64_small by lia. lia.
        + rewrite wrap64_high by lia. lia.
      - rewrite wrap64_small by lia. lia. }
    destruct (skipGroup fuel dAtA (wrap64 (i + next))); try exact I;
      exact (IHg Hnext).
Qed.

Lemma skipControl_total (dAtA : bytes) :
  len dAtA < 2 ^ 62 ->
  match skipControl dAtA with
  | Return n => skipped n
  | OutOfFuel => False
  | _ => True
  end.
Proof. intros Hfit. unfold skipControl. apply (proj1 (skip_total _)); [exact Hfit|lia|lia]. Qed.

(** The two parts of a round of [Unmarshal] that move the index. *)
Lemma unmarshal_string_total (dAtA : bytes) i :
  match unmarshal_string dAtA i with
  | Return (_, i') => 0 <= i /\ i < i' /\ i' <= len dAtA
  | OutOfFuel => False
  | _ => True
  end.
Proof.
  unfold unmarshal_string. cbv zeta.
  pose proof (varint_total uint64 dAtA i) as Hv.
  destruct (varint uint64 dAtA i) as [[stringLen i1]| | |]; cbn [bind];
    try exact I; try contradiction.
  destruct (wrap64 stringLen <? 0); [exact I|].
  destruct (len dAtA <? wrap64 (i1 + wrap64 stringLen)); [exact I|].
  pose proof (slice_Return dAtA i1 (wrap64 (i1 + wrap64 stringLen))) as Hs.
  destruct (slice dAtA i1 _) as [s| | |]; cbn [bind]; try exact I; try contradiction.
  lia.
Qed.

Lemma unmarshal_skip_total (dAtA : bytes) i :
  len dAtA < 2 ^ 62 ->
  match unmarshal_skip dAtA i with
  | Return i' => (0 <= i /\ i < i' /\ i' <= len dAtA) \/ i' < 0
  | OutOfFuel => False
  | _ => True
  end.
Proof.
  intros Hfit. unfold unmarshal_skip. cbv zeta.
  pose proof (slice_Return dAtA i (len dAtA)) as Hs.
  destruct (slice dAtA i (len dAtA)) as [rest| | |]; cbn [bind];
    try exact I; try contradiction.
  destruct Hs as (Hi & _ & Hrest).
  pose proof (skipControl_total rest ltac:(lia)) as Hk.
  destruct (skipControl rest) as [skippy| | |]; cbn [bind]; try exact I; try contradiction.
  destruct (Z.ltb_spec skippy 0); [exact I|].
  destruct (Z.ltb_spec (len dAtA) (wrap64 (i + skippy))); [exact I|].
  destruct Hk as [Hk|Hk]; [|lia].
  destruct (Z.lt_ge_cases (i + skippy) (2 ^ 63)).
  - rewrite wrap64_small in * by lia. left. lia.
  - rewrite wrap64_high in * by lia. right. lia.
Qed.

Lemma Disconnect_loop_total fuel : forall m (dAtA : bytes) i,
  len dAtA < 2 ^ 62 -> (1 <= fuel)%nat ->
  (0 <= i < len dAtA -> len dAtA - i + 1 <= Z.of_nat fuel) ->
  Disconnect_Unmarshal_loop fuel m dAtA i <> OutOfFuel.
Proof.
  induction fuel as [|fuel IH]; intros m dAtA i Hfit Hone Hfuel; [lia|].
  cbn [Disconnect_Unmarshal_loop]. cbv zeta.
  destruct (Z.ltb_spec i (len dAtA)) as [Hlt|];
    [|destruct (len dAtA <? i); discriminate].
  pose proof (varint_total uint64 dAtA i) as Hv.
  destruct (varint uint64 dAtA i) as [[wire i1]| | |]; cbn [bind];
    try discriminate; try contradiction.
  specialize (Hfuel ltac:(lia)).
  destruct (Z.land wire 7 =? 4); [discriminate|].
  destruct (int32 (Z.shiftr wire 3) <=? 0); [discriminate|].
  destruct (int32 (Z.shiftr wire 3) =? 1).
  - destruct (negb (Z.land wire 7 =? 2)); [discriminate|].
    pose proof (unmarshal_string_total dAtA i1) as Hs.
    destruct (unmarshal_string dAtA i1) as [[s i2]| | |]; cbn [bind];
      try discriminate; try contradiction.
    apply IH; [exact Hfit|lia|lia].
  - pose proof (unmarshal_skip_total dAtA i Hfit) as Hs.
    destruct (unmarshal_skip dAtA i) as [i2| | |]; cbn [bind];
      try discriminate; try contradiction.
    apply IH; [exact Hfit|lia|lia].
Qed.

Lemma Unsubscribe_loop_total fuel : forall m (dAtA : bytes) i,
  len dAtA < 2 ^ 62 -> (1 <= fuel)%nat ->
  (0 <= i < len dAtA -> len dAtA - i + 1 <= Z.of_nat fuel) ->
  Unsubscribe_Unmarshal_loop fuel m dAtA i <> OutOfFuel.
Proof.
  induction fuel as [|fuel IH]; intros m dAtA i Hfit Hone Hfuel; [lia|].
  cbn [Unsubscribe_Unmarshal_loop]. cbv zeta.
  destruct (Z.ltb_spec i (len dAtA)) as [Hlt|];
    [|destruct (len dAtA <? i); discriminate].
  pose proof (varint_total uint64 dAtA i) as Hv.
  destruct (varint uint64 dAtA i) as [[wire i1]| | |]; cbn [bind];
    try discriminate; try contradiction.
  specialize (Hfuel ltac:(lia)).
  destruct (Z.land wire 7 =? 4); [discriminate|].
  destruct (int32 (Z.shiftr wire 3) <=? 0); [discriminate|].
  pose proof (unmarshal_string_total dAtA i1) as Hs.
  destruct (int32 (Z.shiftr wire 3) =? 1); [|destruct (int32 (Z.shiftr wire 3) =? 2)].
  - destruct (negb (Z.land wire 7 =? 2)); [discriminate|].
    destruct (unmarshal_string dAtA i1) as [[s i2]| | |]; cbn [bind];
      try discriminate; try contradiction.
    apply IH; [exact Hfit|lia|lia].
  - destruct (negb (Z.land wire 7 =? 2)); [discriminate|].
    destruct (unmarshal_string dAtA i1) as [[s i2]| | |]; cbn [bind];
      try discriminate; try contradiction.
    apply IH; [exact Hfit|lia|lia].
  - clear Hs. pose proof (unmarshal_skip_total dAtA i Hfit) as Hs.
    destruct (unmarshal_skip dAtA i) as [i2| | |]; cbn [bind];
      try discriminate; try contradiction.
    apply IH; [exact Hfit|lia|lia].
Qed.

(** X25.  On every input the loops of [Unmarshal] and [skipControl] come to
    an end: a round that does not return moves the index on by a byte at
    least, or to a negative index at which the next round panics, so the
    bounds the model puts on the loops are never reached.  A call returns
    a message or a count, returns an error, or panics; a count returned by
    [skipControl] is at least one unless it has wrapped round to a negative
    number. *)
Theorem Unmarshal_terminates (dAtA : bytes) :
  len dAtA < 2 ^ 62 ->
  (forall m, Disconnect_Unmarshal m dAtA <> OutOfFuel) /\
  (forall m, Unsubscribe_Unmarshal m dAtA <> OutOfFuel) /\
  skipControl dAtA <> OutOfFuel /\
  (forall n, skipControl dAtA = Return n -> 1 <= n \/ n < 0).
Proof.
  intros Hfit. pose proof (skipControl_total dAtA Hfit) as Hk. split_and!.
  - intros m. apply Disconnect_loop_total; [exact Hfit|lia|].
    unfold len. lia.
  - intros m. apply Unsubscribe_loop_total; [exact Hfit|lia|].
    unfold len. lia.
  - intros E. now rewrite E in Hk.
  - intros n E. rewrite E in Hk. unfold skipped in Hk. lia.
Qed.

End ControlTermination.

(** *** The further properties at work *)

Lemma handleClientData_command_without_id_witness :
  let r := Demo.handle ["a"; "000"; "b"]%byte in
  fst r = false /\
  handled (w_events (snd r)) = [Fixtures.command "a"] /\
  written (w_events (snd r)) = [] /\
  closes (w_events (snd r))
    = [Some {| proto.Reason := "bad request"; proto.Reconnect := false |}].
Proof.
  pose proof (@handleClientData_command_without_id Demo.externals Demo.codec nat
                websocketTransport (@Demo.client _ Demo.ws) Demo.ws
                0 0%nat (Demo.transport 0) (Demo.a_writer 1024)
                ["a"; "000"; "b"]%byte
                [Fixtures.command "a"] (Fixtures.command "000")
                [Fixtures.command "b"]) as H.
  cbv zeta in H.
  destruct H as (H1 & H2 & H3 & _ & H5 & _);
    [discriminate|reflexivity|reflexivity|reflexivity|].
  exact (conj H1 (conj H2 (conj H3 H5))).
Defined.

Lemma handleClientData_disconnect_from_Handle_witness :
  let r := @handleClientData Demo.externals Demo.codec nat websocketTransport
             (@Fixtures.leaving _ Demo.ws) Demo.ws 0
             (world 0%nat (Demo.transport 0) (Demo.a_writer 1024))
             ["a"; "q"; "b"]%byte in
  fst r = false /\
  handled (w_events (snd r)) = [Fixtures.command "a"; Fixtures.command "q"] /\
  written (w_events (snd r)) = [] /\
  closes (w_events (snd r))
    = [Some {| proto.Reason := "bye"; proto.Reconnect := false |}].
Proof.
  pose proof (@handleClientData_disconnect_from_Handle Demo.externals Demo.codec nat
                websocketTransport (@Fixtures.leaving _ Demo.ws) Demo.ws
                0 0%nat (Demo.transport 0) (Demo.a_writer 1024)
                ["a"; "q"; "b"]%byte
                [Fixtures.command "a"] (Fixtures.command "q")
                [Fixtures.command "b"] 2%nat None
                {| proto.Reason := "bye"; proto.Reconnect := false |}) as H.
  cbv zeta in H.
  destruct H as (H1 & H2 & H3 & _ & H5 & _);
    [discriminate|reflexivity|reflexivity|discriminate|reflexivity|].
  exact (conj H1 (conj H2 (conj H3 H5))).
Defined.

Lemma handleClientData_reply_not_encoded_witness :
  let r := @handleClientData Demo.externals Fixtures.picky nat websocketTransport
             (@Demo.client _ Demo.ws) Demo.ws 0
             (world 0%nat (Demo.transport 0) (Demo.a_writer 1024))
             ["a"; "?"; "b"]%byte in
  fst r = false /\
  handled (w_events (snd r)) = [Fixtures.command "a"; Fixtures.command "?"] /\
  written (w_events (snd r)) = [] /\
  closes (w_events (snd r))
    = [Some {| proto.Reason := "internal error"; proto.Reconnect := true |}].
Proof.
  pose proof (@handleClientData_reply_not_encoded Demo.externals Fixtures.picky nat
                websocketTransport (@Demo.client _ Demo.ws) Demo.ws
                0 0%nat (Demo.transport 0) (Demo.a_writer 1024)
                ["a"; "?"; "b"]%byte
                [Fixtures.command "a"] (Fixtures.command "?")
                [Fixtures.command "b"] 2%nat
                (Fixtures.echo (Fixtures.command "?")) "cannot be encoded") as H.
  cbv zeta in H.
  destruct H as (H1 & H2 & H3 & _ & H5 & _);
    [discriminate|reflexivity|reflexivity|discriminate|reflexivity|reflexivity|].
  exact (conj H1 (conj H2 (conj H3 H5))).
Defined.

Lemma handleClientData_slow_consumer_witness :
  let r := @handleClientData Demo.externals Demo.codec nat websocketTransport
             (@Demo.client _ Demo.ws) Demo.ws 0
             (world 0%nat (Demo.transport 0) (Demo.a_writer 3))
             ["a"; "b"]%byte in
  fst r = false /\
  queue.items (messages (w_writer (snd r))) = [["a"; "010"; "b"; "010"]%byte] /\
  closes (w_events (snd r))
    = [Some {| proto.Reason := "slow"; proto.Reconnect := true |}].
Proof.
  pose proof (@handleClientData_slow_consumer Demo.externals Demo.codec nat
                websocketTransport (@Demo.client _ Demo.ws) Demo.ws
                0 0%nat (Demo.transport 0) (Demo.a_writer 3)
                ["a"; "b"]%byte) as H.
  cbv zeta in H.
  destruct H as (H1 & H2 & _ & _ & H5 & _);
    [discriminate|reflexivity|reflexivity|reflexivity|reflexivity|].
  exact (conj H1 (conj H2 H5)).
Defined.

Lemma read_frames_reply_order_witness :
  let W := @read_frames Demo.externals Demo.codec nat websocketTransport
             (@Demo.client _ Demo.ws) Demo.ws 0
             (world 0%nat (Demo.transport 0) (Demo.a_writer 1024))
             [["a"; "b"]; ["c"]; ["d"; "!"]; ["e"]]%byte in
  queue.items (messages (w_writer W))
    = @answered Demo.codec nat websocketTransport (@Demo.client _ Demo.ws)
        proto.EncodingJSON 0%nat (Demo.a_writer 1024)
        [["a"; "b"]; ["c"]; ["d"; "!"]; ["e"]]%byte /\
  queue.items (messages (w_writer W))
    = [["a"; "010"; "b"; "010"]; ["c"; "010"]]%byte.
Proof.
  pose proof (@read_frames_reply_order Demo.externals Demo.codec nat
                websocketTransport (@Demo.client _ Demo.ws) Demo.ws
                0 (world 0%nat (Demo.transport 0) (Demo.a_writer 1024))
                [["a"; "b"]; ["c"]; ["d"; "!"]; ["e"]]%byte eq_refl) as H.
  cbv zeta in H. destruct H as (_ & H2 & _).
  split; [exact H2|reflexivity].
Defined.

Lemma connection_end_witness :
  let W := @connection Demo.externals Demo.codec nat websocketTransport
             (@Demo.client _ Demo.ws) Demo.ws "websocket" 0
             (world 0%nat (Demo.transport 0) (Demo.a_writer 1024))
             [["a"; "b"]; ["c"]; ["d"; "!"]; ["e"]]%byte in
  w_closed (w_writer W) = true /\
  queue.Closed (messages (w_writer W)) = true /\
  closes (w_events W)
    = [Some {| proto.Reason := "bad request"; proto.Reconnect := false |}; None].
Proof.
  pose proof (@connection_end Demo.externals Demo.codec nat
                websocketTransport (@Demo.client _ Demo.ws) Demo.ws
                "websocket" 0 0%nat (Demo.transport 0) (Demo.a_writer 1024)
                [["a"; "b"]; ["c"]; ["d"; "!"]; ["e"]]%byte) as H.
  cbv zeta in H. destruct H as (H1 & H2 & _); [discriminate|].
  split; [exact H1|]. split; [exact H2|]. reflexivity.
Defined.

Lemma handleClientData_closes_once_witness :
  closes (w_events (snd (Demo.handle ["a"; "b"]%byte))) = [] /\
  exists d, closes (w_events (snd (Demo.handle ["a"; "!"]%byte))) = [Some d].
Proof.
  split.
  - apply (proj1 (@handleClientData_closes_once Demo.externals Demo.codec nat
                    websocketTransport (@Demo.client _ Demo.ws) Demo.ws 0
                    (world 0%nat (Demo.transport 0) (Demo.a_writer 1024))
                    ["a"; "b"]%byte)).
    reflexivity.
  - apply (proj2 (@handleClientData_closes_once Demo.externals Demo.codec nat
                    websocketTransport (@Demo.client _ Demo.ws) Demo.ws 0
                    (world 0%nat (Demo.transport 0) (Demo.a_writer 1024))
                    ["a"; "!"]%byte)).
    reflexivity.
Defined.

Lemma websocketTransport_write_all_or_nothing_witness :
  let t' := fst (@websocketTransport_write Demo.externals Demo.reliable 0
                   (Demo.transport 0) [Demo.text "a"; Demo.text "bc"]) in
  websocket.wire (conn t')
    = [websocket.Data websocket.TextMessage (Demo.text "abc") true] /\
  transportMessagesSent t' = 2 /\
  transportBytesOut t' = 4.
Proof.
  pose proof (@websocketTransport_write_all_or_nothing Demo.externals Demo.reliable 0
                (Demo.transport 0) [Demo.text "a"; Demo.text "bc"] eq_refl) as H.
  cbv zeta in H. vm_compute in H. destruct H as (H1 & _ & H3 & H4 & _).
  vm_compute. split; [exact H1|]. split; [exact H3|exact H4].
Defined.

Lemma websocketTransport_closed_is_silent_witness :
  let t1 := fst (@websocketTransport_Close Demo.externals Demo.reliable 0
                   (Demo.transport 0) None) in
  @websocketTransport_write Demo.externals Demo.reliable 5 t1 [Demo.text "a"]
    = (t1, Wrote None) /\
  @websocketTransport_ping Demo.externals Demo.reliable 5 t1 = t1.
Proof.
  pose proof (@websocketTransport_closed_is_silent Demo.externals Demo.reliable 0
                (Demo.transport 0) None eq_refl) as H.
  cbv zeta in H. destruct H as (_ & _ & H).
  destruct (H 5 [Demo.text "a"] None) as (H1 & H2 & _).
  split; [exact H1|exact H2].
Defined.

Lemma pings_until_failure_witness :
  let t := Demo.transport 0 in
  let t' := @pings Demo.externals Fixtures.two_pings t [10; 20; 30; 40] in
  ws_closed t' = true /\
  ping_frames (websocket.wire (conn t')) = map (ping_frame t) [10; 20] /\
  exists k : nat,
    (k < 4)%nat /\
    ping_frames (websocket.wire (conn t')) = map (ping_frame t) (take k [10; 20; 30; 40]) /\
    exists err,
      Fixtures.two_pings
        (with_frames (conn t) (map (ping_frame t) (take k [10; 20; 30; 40])))
        websocket.OpWriteControl = Some err.
Proof.
  pose proof (@pings_until_failure Demo.externals Fixtures.two_pings [10; 20; 30; 40]
                (Demo.transport 0) eq_refl eq_refl) as H.
  cbv zeta in H.
  destruct H as (k & _ & H1 & [(_ & H2 & _)|(H3 & H4 & H2 & _)]).
  - discriminate H2.
  - split; [exact H2|]. split; [reflexivity|].
    exists k. split; [exact H3|]. split; [exact H1|exact H4].
Defined.

Lemma sockjsTransport_write_prefix_witness :
  let data := [Demo.text "a"; Demo.text "b"; Demo.text "c"] in
  let r := @sockjsTransport_write Demo.externals Fixtures.no_b
             (newSockjsTransport Fixtures.a_session) data in
  exists (k : nat) payload,
    data !! k = Some payload /\
    Fixtures.no_b {| sockjs.sent := take k data; sockjs.closing := None |}
      (sockjs.OpSend payload) = Some "broken pipe"%string /\
    sockjs.sent (session (fst r)) = take k data /\
    sj_closed (fst r) = true /\
    sj_messagesSent (fst r) = Z.of_nat k + 1.
Proof.
  pose proof (@sockjsTransport_write_prefix Demo.externals Fixtures.no_b
                (newSockjsTransport Fixtures.a_session)
                [Demo.text "a"; Demo.text "b"; Demo.text "c"] eq_refl) as H.
  cbv zeta in H. destruct H as (k & _ & H1 & H2).
  change (snd (@sockjsTransport_write Demo.externals Fixtures.no_b
                 (newSockjsTransport Fixtures.a_session)
                 [Demo.text "a"; Demo.text "b"; Demo.text "c"]))
    with (Some "broken pipe"%string) in H2.
  destruct H2 as (_ & (payload & Hp & Hf) & H3 & H4 & _).
  exists k, payload. split; [exact Hp|]. split; [exact Hf|].
  split; [exact H1|]. split; [exact H3|exact H4].
Defined.


Lemma adminSecureTokenAuth_guard_witness :
  let h : Handler nat := fun s r w => (S s, [], http.Write w (Demo.text "done")) in
  @AdminHandler_adminSecureTokenAuth Fixtures.library Demo.plain_cookie nat
     Fixtures.admin h 0%nat (Fixtures.api_request "Token secret|token|authorized" "")
     http.fresh
  = (1%nat, [], http.Write http.fresh (Demo.text "done")) /\
  @AdminHandler_adminSecureTokenAuth Fixtures.library Demo.plain_cookie nat
     Fixtures.admin h 0%nat (Fixtures.api_request "Token secret|token|admin" "")
     http.fresh
  = (0%nat, [], http.WriteHeader http.fresh http.StatusUnauthorized).
Proof.
  intros h. split.
  - apply (proj1 (@adminSecureTokenAuth_guard Fixtures.library Demo.plain_cookie nat
                    Fixtures.admin h 0%nat
                    (Fixtures.api_request "Token secret|token|authorized" "")
                    http.fresh eq_refl)).
    split; [discriminate|].
    exists "Token"%string, "secret|token|authorized"%string. now split_and!.
  - destruct (proj2 (@adminSecureTokenAuth_guard Fixtures.library Demo.plain_cookie nat
                       Fixtures.admin h 0%nat
                       (Fixtures.api_request "Token secret|token|admin" "")
                       http.fresh eq_refl)) as [H1 H2].
    + intros (_ & m & tok & [= <- <-] & _ & Hc). discriminate Hc.
    + reflexivity.
Defined.

Lemma admin_login_opens_api_witness :
  let token := "secret|token|authorized"%string in
  @AdminHandler_authHandler Fixtures.library Demo.plain_cookie nat Fixtures.admin 0%nat
      (Fixtures.login "password") http.fresh
    = (0%nat, [], {| http.status := Some http.StatusOK;
                     http.contentType := Some "application/json"%string;
                     http.body := @json_Encode_token Fixtures.library token |}) /\
  fst (fst (@admin_api Fixtures.library Demo.plain_cookie (list bytes) Fixtures.api
              Fixtures.admin [] (Fixtures.api_request "token secret|token|authorized" "ab")
              http.fresh))
    = [Demo.text "a"; Demo.text "b"].
Proof.
  intros token.
  destruct (@admin_login_opens_api Fixtures.library Demo.plain_cookie nat (list bytes)
              Fixtures.api Fixtures.admin 0%nat []
              (Fixtures.login "password")
              (Fixtures.api_request "token secret|token|authorized" "ab")
              http.fresh token) as (H1 & H2 & _);
    try reflexivity; try discriminate.
  - intros key name value tok. apply plain_cookie_round_trip.
  - split; [exact H1|]. rewrite H2. reflexivity.
Defined.

Lemma authHandler_token_only_for_password_witness :
  snd (@AdminHandler_authHandler Fixtures.library Demo.plain_cookie nat Fixtures.admin
         0%nat (Fixtures.login "guess") http.fresh)
  = http.Error http.fresh "Bad Request" http.StatusBadRequest.
Proof.
  destruct (@authHandler_token_only_for_password Fixtures.library Demo.plain_cookie nat
              Fixtures.admin 0%nat (Fixtures.login "guess") http.fresh eq_refl)
    as (_ & [(token & _ & _ & H & _)|[(_ & H & _)|(H & _)]]).
  - discriminate H.
  - discriminate H.
  - exact H.
Defined.

Lemma encodeVarintControl_writes_witness :
  controlproto.encodeVarintControl ["010"; "000"; "000"; "z"]%byte 1 300
  = controlproto.Return (["010"; "172"; "002"; "z"]%byte, 3).
Proof.
  destruct (encodeVarintControl_writes 300 ["010"%byte] ["000"; "000"]%byte ["z"%byte])
    as (H & _); [lia|reflexivity|].
  exact H.
Defined.

Lemma varint_reads_what_encodeVarintControl_wrote_witness :
  controlproto.varint controlproto.uint64 ["010"; "172"; "002"; "z"]%byte 1
  = controlproto.Return (300, 3).
Proof.
  apply (varint_reads_what_encodeVarintControl_wrote 300 ["010"%byte]
           ["000"; "000"]%byte ["z"%byte]);
    [lia|reflexivity|reflexivity].
Defined.

Lemma Marshal_fills_Size_witness :
  exists dAtA,
    controlproto.Unsubscribe_Marshal
      {| controlproto.Unsubscribe_Channel := "news";
         controlproto.Unsubscribe_User := "bob" |}
    = controlproto.Return dAtA /\
    len dAtA = 11.
Proof.
  destruct (proj2 Marshal_fills_Size
              {| controlproto.Unsubscribe_Channel := "news";
                 controlproto.Unsubscribe_User := "bob" |})
    as (dAtA & H1 & H2 & _); [reflexivity|reflexivity|].
  exists dAtA. split; [exact H1|exact H2].
Defined.

Lemma Unmarshal_Marshal_witness :
  exists dAtA,
    controlproto.Unsubscribe_Marshal
      {| controlproto.Unsubscribe_Channel := "news";
         controlproto.Unsubscribe_User := "bob" |}
    = controlproto.Return dAtA /\
    controlproto.Unsubscribe_Unmarshal controlproto.Unsubscribe_Reset dAtA
    = controlproto.Return {| controlproto.Unsubscribe_Channel := "news";
                             controlproto.Unsubscribe_User := "bob" |}.
Proof.
  apply (proj2 Unmarshal_Marshal). vm_compute. discriminate.
Defined.

Lemma Unmarshal_panics_on_long_length_witness :
  controlproto.Disconnect_Unmarshal controlproto.Disconnect_Reset
    ["010"; "255"; "255"; "255"; "255"; "255"; "255"; "255"; "255"; "127"]%byte
  = controlproto.Panic "slice bounds out of range".
Proof.
  destruct (Unmarshal_panics_on_long_length (2 ^ 63 - 1) []) as (H & _).
  - lia.
  - vm_compute. discriminate.
  - exact (H controlproto.Disconnect_Reset).
Defined.

Lemma skipControl_field_length_witness :
  controlproto.skipControl ["024"; "005"; "z"]%byte = controlproto.Return 2.
Proof.
  assert (Htag : controlproto.byte_val "024" < 128) by reflexivity.
  destruct (skipControl_field_length "024"%byte ["005"; "z"]%byte Htag) as (H & _).
  apply (H eq_refl 5 ["z"%byte]); [lia|reflexivity].
Defined.

(** A field [Unmarshal] does not know is passed over, be it a group with
    fields of its own. *)
Example unknown_fields_are_skipped :
  controlproto.Disconnect_Unmarshal controlproto.Disconnect_Reset
    ["027"; "024"; "005"; "028"; "010"; "001"; "a"]%byte
  = controlproto.Return {| controlproto.Disconnect_User := "a" |}.
Proof. reflexivity. Qed.

Lemma Unmarshal_terminates_witness :
  controlproto.Disconnect_Unmarshal controlproto.Disconnect_Reset ["027"; "027"]%byte
  <> controlproto.OutOfFuel.
Proof.
  assert (Hfit : len ["027"; "027"]%byte < 2 ^ 62) by reflexivity.
  exact (proj1 (Unmarshal_terminates ["027"; "027"]%byte Hfit) controlproto.Disconnect_Reset).
Defined.

Lemma runWriteRoutine_websocket_frames_witness :
  let s' := snd (writer_runWriteRoutine
                   (@websocket_writeFn Demo.externals Demo.reliable Fixtures.ticks) 10
                   (start Demo.six_waiting Demo.producers (Demo.transport 0, 0%nat))) in
  payloads (websocket.wire (conn (fst (r_transport s'))))
  = [Demo.text "1234"; Demo.text "567"].
Proof.
  pose proof (@runWriteRoutine_websocket_frames Demo.externals Demo.reliable
                Fixtures.ticks 10 Demo.six_waiting Demo.producers (Demo.transport 0)
                eq_refl) as H.
  cbv zeta in H. destruct H as (batches & rest & _ & _ & Hp & Hopen).
  cbv zeta. rewrite Hp, (Hopen eq_refl). reflexivity.
Defined.

Lemma runWriteRoutine_sockjs_messages_witness :
  let s' := snd (writer_runWriteRoutine
                   (@sockjsTransport_write Demo.externals Fixtures.no_b) 10
                   (start Fixtures.abc_waiting [] (newSockjsTransport Fixtures.a_session))) in
  exists delivered rest,
    [Demo.text "a"; Demo.text "b"; Demo.text "c"] = delivered ++ rest /\
    sockjs.sent (session (r_transport s')) = delivered.
Proof.
  pose proof (@runWriteRoutine_sockjs_messages Demo.externals Fixtures.no_b 10
                Fixtures.abc_waiting [] (newSockjsTransport Fixtures.a_session)
                eq_refl) as H.
  cbv zeta in H. destruct H as (delivered & rest & Ha & Hs & _).
  exists delivered, rest. split; [exact Ha|exact Hs].
Defined.

(** On a SockJS network that refuses one payload, the session is given the
    frames before it, and the routine returns. *)
Example sockjs_batch_cut_short :
  let r := writer_runWriteRoutine
             (@sockjsTransport_write Demo.externals Fixtures.no_b) 10
             (start Fixtures.abc_waiting [] (newSockjsTransport Fixtures.a_session)) in
  fst r = Returned /\
  sockjs.sent (session (r_transport (snd r))) = [Demo.text "a"] /\
  sj_messagesSent (r_transport (snd r)) = 2.
Proof. vm_compute. now split_and!. Qed.
